(** * slice_sql: primary-key range slicing, embedded and verified

    A shallow embedding of [src/python/slice_sql.py].  The Python functions
    are transcribed one by one under their own names; text is [string],
    Python [int] is [Z], sequences are [list], the [IndexError] of a pure
    helper is [None], and the generator runs in a small trace-and-exception
    monad that records the queries sent over the connection.  The quotient
    [total / k] is Python's true division, the correctly rounded binary64
    quotient, written out on integers.  Logging, timing and the profile line
    on standard error do not influence the result and are left out.
    [chunk_lex], which the generator does not call, is embedded on its own
    after the generator.

    Three things the code leaves to its environment are parameters of the
    embedding.  Python's [==] on two key values is [py_eq]: on the scalars
    that reach [str(v)] it is not the identity of their text.  What the
    database reads a literal as, in a comparison with a given column, is
    [denote]: the text of a literal is all the database gets, and
    [fmt_literal] does not print everything of every value.  Whether
    Python's [<] accepts two values is [comparable].

    Beside the text-producing functions the file defines the same
    decomposition over a syntax of comparisons of a column with a literal
    ([atom]), shows that the emitted text is the rendering of that syntax,
    and gives the syntax its meaning on table rows, through [denote].
    Coverage and disjointness of the slices are proved for that meaning, for
    every strict total order on key values, on keys whose literals are read
    back as the values and on which [py_eq] is the identity; on other keys
    they fail, and how is proved as well.

    Contents: the embedding; lemmas; then the properties of the slicer, one
    theorem per property, each with an instance on concrete data. *)

From Stdlib Require Import ZArith String Ascii List Lia.
From stdpp Require Import base option list strings gmap sorting pretty.

(** ** Key values and literals *)

(** [datetime.date] and the time of day of a [datetime.datetime]. *)
Record date := Date { year : nat; month : nat; day : nat }.
Record time := TimeOfDay { hour : nat; minute : nat; second : nat; microsecond : nat }.

(** The values a driver hands back for a key column, in the order
    [fmt_literal] tests for them.  [VOther] stands for any scalar that falls
    through to [str(v)] (Decimal, float, ...); it carries that text. *)
Inductive value :=
| VStr (s : string)
| VDateTime (d : date) (t : time)
| VDate (d : date)
| VNone
| VInt (z : Z)
| VOther (repr : string).

#[global] Instance date_eq_dec : EqDecision date.
Proof. solve_decision. Defined.
#[global] Instance time_eq_dec : EqDecision time.
Proof. solve_decision. Defined.
#[global] Instance value_eq_dec : EqDecision value.
Proof. solve_decision. Defined.

(** [str.replace("'", "''")]. *)
Fixpoint double_quotes (s : string) : string :=
  match s with
  | EmptyString => EmptyString
  | String c s' =>
      if Ascii.eqb c "'"%char
      then String "'"%char (String "'"%char (double_quotes s'))
      else String c (double_quotes s')
  end.

(** The two-digit fields [%m], [%d], [%H], [%M], [%S]. *)
Definition pad2 (n : nat) : string :=
  if (n <? 10)%nat then "0" +:+ pretty n else pretty n.

(** [%Y-%m-%d].  [%Y] is the year in decimal as the C library prints it:
    glibc does not pad it, so only years from 1000 on have four digits. *)
Definition fmt_ymd (d : date) : string :=
  pretty (year d) +:+ "-" +:+ pad2 (month d) +:+ "-" +:+ pad2 (day d).

Definition fmt_hms (t : time) : string :=
  pad2 (hour t) +:+ ":" +:+ pad2 (minute t) +:+ ":" +:+ pad2 (second t).

(** [v.time() == datetime.time(0, 0, 0)]. *)
Definition is_midnight (t : time) : bool :=
  bool_decide (t = TimeOfDay 0 0 0 0).

Definition fmt_literal (v : value) : string :=
  match v with
  | VStr s => "'" +:+ double_quotes s +:+ "'"
  | VDateTime d t =>
      if is_midnight t
      then "DATE '" +:+ fmt_ymd d +:+ "'"
      else "TIMESTAMP '" +:+ fmt_ymd d +:+ " " +:+ fmt_hms t +:+ "'"
  | VDate d => "DATE '" +:+ fmt_ymd d +:+ "'"
  | VNone => "NULL"
  | VInt z => pretty z
  | VOther repr => repr
  end.

(** ** Single-column slicing *)

Section single_column.

(** Python's [a == b] on two key values.  On text, integers, dates,
    datetimes and [None] it tells whether the two are the same value; on
    the scalars behind [VOther] it is not determined by their text:
    [Decimal('1.0') == Decimal('1.00')] holds, and a float NaN is not equal
    to itself.  [a != b] is its negation. *)
Context (py_eq : value → value → bool).

(** The first loop of [make_single_pk_slices_from_bounds]: append [b]
    unless it equals the last element kept so far. *)
Definition dedup_step (dedup : list value) (b : value) : list value :=
  match last dedup with
  | None => dedup ++ [b]
  | Some l => if negb (py_eq b l) then dedup ++ [b] else dedup
  end.

Definition dedup_adjacent (bounds : list value) : list value :=
  fold_left dedup_step bounds [].

(** [if len(dedup) == 1: dedup.append(dedup[0])]. *)
Definition close_single (dedup : list value) : list value :=
  match dedup with
  | [d0] => [d0; d0]
  | _ => dedup
  end.

(** The body of the second loop for index [i]; both elements exist for
    every [i] the loop visits. *)
Definition single_slice_at (col : string) (dedup : list value) (i : nat)
  : option string :=
  lo ← dedup !! i;
  hi ← dedup !! (i + 1)%nat;
  Some (if bool_decide (i = (length dedup - 2)%nat)
        then col +:+ " >= " +:+ fmt_literal lo +:+ " AND " +:+ col +:+ " <= " +:+ fmt_literal hi
        else col +:+ " >= " +:+ fmt_literal lo +:+ " AND " +:+ col +:+ " < " +:+ fmt_literal hi).

Definition make_single_pk_slices_from_bounds (col : string) (bounds : list value)
  : list string :=
  let dedup := close_single (dedup_adjacent bounds) in
  omap (single_slice_at col dedup) (seq 0 (length dedup - 1)).

End single_column.

(** ** Lexicographic slicing for composite keys *)

(** [None] is the [IndexError] of [cols[0]] or [bounds[0]]. *)
Fixpoint _ge_segments (cols : list string) (bounds : list value)
  : option (list (list string)) :=
  match cols with
  | [] => None
  | [c] =>
      b0 ← bounds !! 0%nat;
      Some [[c +:+ " >= " +:+ fmt_literal b0]]
  | head :: tail =>
      b0 ← bounds !! 0%nat;
      let head_val := fmt_literal b0 in
      subs ← _ge_segments tail (drop 1 bounds);
      Some (map (fun sub => (head +:+ " = " +:+ head_val) :: sub) subs
            ++ [[head +:+ " > " +:+ head_val]])
  end.

Fixpoint _le_segments (cols : list string) (bounds : list value) (inclusive : bool)
  : option (list (list string)) :=
  match cols with
  | [] => None
  | [c] =>
      let op := if inclusive then "<=" else "<" in
      b0 ← bounds !! 0%nat;
      Some [[c +:+ " " +:+ op +:+ " " +:+ fmt_literal b0]]
  | head :: tail =>
      b0 ← bounds !! 0%nat;
      let head_val := fmt_literal b0 in
      subs ← _le_segments tail (drop 1 bounds) inclusive;
      Some ([[head +:+ " < " +:+ head_val]]
            ++ map (fun sub => (head +:+ " = " +:+ head_val) :: sub) subs)
  end.

Fixpoint build_composite_slice_wheres (py_eq : value → value → bool)
    (cols : list string) (left right : list value)
    (is_last : bool) : option (list string) :=
  match cols with
  | [] => None
  | [c] =>
      let op_hi := if is_last then "<=" else "<" in
      l0 ← left !! 0%nat;
      r0 ← right !! 0%nat;
      Some [c +:+ " >= " +:+ fmt_literal l0 +:+ " AND " +:+ c +:+ " " +:+ op_hi +:+ " "
              +:+ fmt_literal r0]
  | c0 :: tail =>
      l0 ← left !! 0%nat;
      r0 ← right !! 0%nat;
      if py_eq l0 r0 then
        tail_wheres ← build_composite_slice_wheres py_eq tail (drop 1 left) (drop 1 right)
                        is_last;
        Some (map (fun w => c0 +:+ " = " +:+ fmt_literal l0 +:+ " AND " +:+ w) tail_wheres)
      else
        lower ← _ge_segments tail (drop 1 left);
        upper ← _le_segments tail (drop 1 right) is_last;
        Some (map (fun seg => String.concat " AND " ((c0 +:+ " = " +:+ fmt_literal l0) :: seg)) lower
              ++ [c0 +:+ " > " +:+ fmt_literal l0 +:+ " AND " +:+ c0 +:+ " < " +:+ fmt_literal r0]
              ++ map (fun seg => String.concat " AND " ((c0 +:+ " = " +:+ fmt_literal r0) :: seg)) upper)
  end.

(** ** Python arithmetic used by the sampler *)

Inductive exn :=
| RuntimeError (msg : string)
| ValueError (msg : string)
| ZeroDivisionError
| OverflowError
| IndexError
| TypeError.

#[global] Instance exn_eq_dec : EqDecision exn.
Proof. solve_decision. Defined.

(** A finite binary64 number [mant * 2 ^ expo]. *)
Record float := Float { mant : Z; expo : Z }.

Section true_division.
Local Open Scope Z_scope.

(** [floor (log2 (a / b))] for positive [a] and [b]. *)
Definition quotient_log2 (a b : Z) : Z :=
  let d := Z.log2 a - Z.log2 b in
  if (if 0 <=? d then a <? b * 2 ^ d else a * 2 ^ (- d) <? b) then d - 1 else d.

(** [num / den] rounded to the nearest integer, ties to even. *)
Definition round_div (num den : Z) : Z :=
  let q := num / den in
  let r := num mod den in
  if (den <? 2 * r) || ((den =? 2 * r) && Z.odd q) then q + 1 else q.

(** The quotient [a / b] of two positive integers rounded to 53 significant
    bits, ties to even; the exponent does not go below that of the
    subnormal numbers. *)
Definition round_quotient (a b : Z) : float :=
  let e := Z.max (quotient_log2 a b - 52) (- 1074) in
  Float (if 0 <=? e then round_div a (b * 2 ^ e) else round_div (a * 2 ^ (- e)) b) e.

(** [a / b] on Python integers: the correctly rounded binary64 quotient. *)
Definition int_true_divide (a b : Z) : exn + float :=
  if b =? 0 then inl ZeroDivisionError
  else if a =? 0 then inr (Float 0 0)
  else
    let f := round_quotient (Z.abs a) (Z.abs b) in
    if 2 ^ 1024 <=? mant f * 2 ^ expo f then inl OverflowError
    else inr (Float (Z.sgn a * Z.sgn b * mant f) (expo f)).

(** [math.ceil] of a finite float, as an integer. *)
Definition math_ceil (f : float) : Z :=
  if 0 <=? expo f then mant f * 2 ^ expo f
  else - ((- mant f) / 2 ^ (- expo f)).

(** [range(k)]. *)
Definition range (k : Z) : list Z := Z.of_nat <$> seq 0 (Z.to_nat k).

(** [{1 + i * step for i in range(k)} | {total}]. *)
Definition rank_set (total k step : Z) : gset Z :=
  list_to_set ((fun i => 1 + i * step) <$> range k) ∪ {[ total ]}.

(** [rns = list(...); rns.sort()]. *)
Definition sorted_ranks (s : gset Z) : list Z := merge_sort Z.le (elements s).

(** [step = max(1, math.ceil(total / k))]. *)
Definition stride (total k : Z) : exn + Z :=
  match int_true_divide total k with
  | inl e => inl e
  | inr f => inr (Z.max 1 (math_ceil f))
  end.

(** The ranks the sampling query asks for. *)
Definition target_ranks (total k step : Z) : list Z :=
  sorted_ranks (rank_set total k step).

(** The ceiling of the exact quotient [n / k], for comparison. *)
Definition ceil_div (n k : Z) : Z := - ((- n) / k).

End true_division.

(** ** The connection and the effects of a run *)

(** What the database answers, for the table being sliced: the [conkey] of
    its primary-key constraint in [pg_constraint] ([None] when there is no
    such row), its [(attnum, attname)] pairs in [pg_attribute], the column
    names of its primary-key constraint in Oracle's catalog by position, and
    the key columns of every row in the order of [ORDER BY <key columns>]. *)
Record connection := Connection {
  pg_conkey : option (list Z);
  pg_attribute : list (Z * string);
  ora_cons_columns : list string;
  table_rows : list (list value)
}.

(** The statements a cursor executes. *)
Inductive query :=
| QPgConstraint
| QPgAttribute
| QOraConstraints
| QCount
| QRanked (rns : list Z).

#[global] Instance query_eq_dec : EqDecision query.
Proof. solve_decision. Defined.

Definition is_sampling_query (q : query) : bool :=
  match q with
  | QCount | QRanked _ => true
  | _ => false
  end.

(** Computations that execute queries and may raise. *)
Definition M (A : Type) : Type := list query → list query * (exn + A).

Definition ret {A} (a : A) : M A := fun tr => (tr, inr a).
Definition raise {A} (e : exn) : M A := fun tr => (tr, inl e).
Definition bind {A B} (m : M A) (f : A → M B) : M B :=
  fun tr =>
    match m tr with
    | (tr', inl e) => (tr', inl e)
    | (tr', inr a) => f a tr'
    end.
Definition execute (q : query) : M unit := fun tr => (tr ++ [q], inr tt).
Definition lift_exn {A} (r : exn + A) : M A := fun tr => (tr, r).
Definition or_index_error {A} (o : option A) : M A :=
  match o with
  | Some a => ret a
  | None => raise IndexError
  end.

#[global] Instance M_ret : MRet M := @ret.
#[global] Instance M_bind : MBind M := fun A B f m => bind m f.

(** ** Table names *)

Record TableSpec := mkTableSpec {
  schema : option string;
  name : string;
  qualified : string
}.

(** [raw.split(".", 1)], [None] when there is no dot. *)
Fixpoint split_dot (raw : string) : option (string * string) :=
  match raw with
  | EmptyString => None
  | String c rest =>
      if Ascii.eqb c "."%char then Some (EmptyString, rest)
      else '(a, b) ← split_dot rest; Some (String c a, b)
  end.

Definition parse_table (raw : string) : TableSpec :=
  match split_dot raw with
  | None => mkTableSpec None raw raw
  | Some (schema, name) => mkTableSpec (Some schema) name (schema +:+ "." +:+ name)
  end.

(** ** Metadata helpers *)

Definition get_pk_columns_pg (conn : connection) (table : TableSpec) : M (list string) :=
  execute QPgConstraint ;;
  match pg_conkey conn with
  | None | Some [] => ret []
  | Some conkey =>
      execute QPgAttribute ;;
      let m : gmap Z string :=
        fold_left (fun m '(attnum, attname) => <[attnum := attname]> m)
                  (pg_attribute conn) ∅ in
      ret (omap (fun k => m !! k) conkey)
  end.

Definition get_pk_columns_ora (conn : connection) (table : TableSpec) : M (list string) :=
  execute QOraConstraints ;;
  ret (ora_cons_columns conn).

(** The ranked query of either dialect: rows numbered from 1 in key order by
    [ROW_NUMBER()], kept when their number is among [rns], in number order. *)
Definition ranked_select (rows : list (list value)) (rns : list Z) : list (list value) :=
  snd <$> filter (fun p => p.1 ∈ rns) (imap (fun i r => (Z.of_nat i + 1, r)%Z) rows).

Definition fetch_pk_boundaries (conn : connection) (table : TableSpec)
    (pk_cols : list string) (k : Z) (dbtype : string) : M (list (list value)) :=
  execute QCount ;;
  let total := Z.of_nat (length (table_rows conn)) in
  if (total =? 0)%Z then ret []
  else
    step ← lift_exn (stride total k);
    let rns := target_ranks total k step in
    execute (QRanked rns) ;;
    ret (ranked_select (table_rows conn) rns).

(** ** The generator *)

(** Whether the two driver modules could be imported. *)
Record drivers := Drivers { psycopg2 : bool; cx_Oracle : bool }.

Definition select_stmt (qualified cond : string) : string :=
  "SELECT * FROM " +:+ qualified +:+ " WHERE " +:+ cond +:+ ";".

(** The list [bounds] of the composite branch: consecutive pairs, the last
    one flagged. *)
Definition composite_bounds (boundaries : list (list value))
  : option (list (list value * list value * bool)) :=
  mapM (fun i =>
          lo ← boundaries !! i;
          hi ← boundaries !! (i + 1)%nat;
          Some (lo, hi, bool_decide (i = (length boundaries - 2)%nat)))
       (seq 0 (length boundaries - 1)).

(** The conditions the two branches of [generate_slice_sql] put after
    [WHERE], in order. *)
Definition slice_conditions (py_eq : value → value → bool)
    (pk_cols : list string) (boundaries : list (list value))
  : option (list string) :=
  if bool_decide (length pk_cols = 1%nat) then
    c0 ← pk_cols !! 0%nat;
    firsts ← mapM (fun b : list value => b !! 0%nat) boundaries;
    Some (make_single_pk_slices_from_bounds py_eq c0 firsts)
  else
    bounds ← composite_bounds boundaries;
    wheres ← mapM (fun '(lo, hi, is_last) =>
                     build_composite_slice_wheres py_eq pk_cols lo hi is_last) bounds;
    Some (concat wheres).

(** The dispatch on [dbtype] that resolves the key columns. *)
Definition resolve_pk_columns (drv : drivers) (conn : connection)
    (dbtype : string) (t_spec : TableSpec) : M (list string) :=
  if String.eqb dbtype "pg" then
    if psycopg2 drv then get_pk_columns_pg conn t_spec
    else raise (RuntimeError "psycopg2 is not installed")
  else if String.eqb dbtype "ora" then
    if cx_Oracle drv then get_pk_columns_ora conn t_spec
    else raise (RuntimeError "cx_Oracle is not installed")
  else raise (ValueError "dbtype must be 'pg' or 'ora'").

Definition generate_slice_sql (py_eq : value → value → bool)
    (drv : drivers) (conn : connection)
    (dbtype table : string) (k : Z) : M (list string) :=
  let t_spec := parse_table table in
  pk_cols ← resolve_pk_columns drv conn dbtype t_spec;
  if bool_decide (pk_cols = []) then raise (RuntimeError "Primary key not found")
  else
    boundaries ← fetch_pk_boundaries conn t_spec pk_cols k dbtype;
    if bool_decide (boundaries = []) then ret []
    else
      conds ← or_index_error (slice_conditions py_eq pk_cols boundaries);
      ret (select_stmt (qualified t_spec) <$> conds).

(** ** Predicates as syntax

    The same decomposition, producing comparisons instead of text.  An atom
    compares a column with a literal, kept as the text [fmt_literal] wrote;
    a predicate is the conjunction of its atoms; [render_pred] is the text
    the Python functions build for it. *)

Inductive cmp_op := OpEq | OpLt | OpLe | OpGt | OpGe.

Record atom := Atom { a_col : string; a_op : cmp_op; a_lit : string }.

(** The comparison of [col] with the literal of [v]. *)
Definition lit_atom (col : string) (op : cmp_op) (v : value) : atom :=
  Atom col op (fmt_literal v).

Definition op_text (op : cmp_op) : string :=
  match op with
  | OpEq => "="
  | OpLt => "<"
  | OpLe => "<="
  | OpGt => ">"
  | OpGe => ">="
  end.

Definition render_atom (a : atom) : string :=
  a_col a +:+ " " +:+ op_text (a_op a) +:+ " " +:+ a_lit a.

Definition render_pred (p : list atom) : string :=
  String.concat " AND " (render_atom <$> p).

Definition render_preds (ps : list (list atom)) : list string :=
  render_pred <$> ps.

Definition render_segments (segs : list (list atom)) : list (list string) :=
  (fun seg : list atom => render_atom <$> seg) <$> segs.

Definition upper_op (inclusive : bool) : cmp_op :=
  if inclusive then OpLe else OpLt.

Fixpoint ge_segments (cols : list string) (bounds : list value)
  : option (list (list atom)) :=
  match cols with
  | [] => None
  | [c] =>
      b0 ← bounds !! 0%nat;
      Some [[lit_atom c OpGe b0]]
  | head :: tail =>
      b0 ← bounds !! 0%nat;
      subs ← ge_segments tail (drop 1 bounds);
      Some (map (cons (lit_atom head OpEq b0)) subs ++ [[lit_atom head OpGt b0]])
  end.

Fixpoint le_segments (cols : list string) (bounds : list value) (inclusive : bool)
  : option (list (list atom)) :=
  match cols with
  | [] => None
  | [c] =>
      b0 ← bounds !! 0%nat;
      Some [[lit_atom c (upper_op inclusive) b0]]
  | head :: tail =>
      b0 ← bounds !! 0%nat;
      subs ← le_segments tail (drop 1 bounds) inclusive;
      Some ([[lit_atom head OpLt b0]] ++ map (cons (lit_atom head OpEq b0)) subs)
  end.

Fixpoint composite_preds (py_eq : value → value → bool)
    (cols : list string) (left right : list value)
    (is_last : bool) : option (list (list atom)) :=
  match cols with
  | [] => None
  | [c] =>
      l0 ← left !! 0%nat;
      r0 ← right !! 0%nat;
      Some [[lit_atom c OpGe l0; lit_atom c (upper_op is_last) r0]]
  | c0 :: tail =>
      l0 ← left !! 0%nat;
      r0 ← right !! 0%nat;
      if py_eq l0 r0 then
        tail_preds ← composite_preds py_eq tail (drop 1 left) (drop 1 right) is_last;
        Some (map (cons (lit_atom c0 OpEq l0)) tail_preds)
      else
        lower ← ge_segments tail (drop 1 left);
        upper ← le_segments tail (drop 1 right) is_last;
        Some (map (cons (lit_atom c0 OpEq l0)) lower
              ++ [[lit_atom c0 OpGt l0; lit_atom c0 OpLt r0]]
              ++ map (cons (lit_atom c0 OpEq r0)) upper)
  end.

Definition single_pred_at (col : string) (dedup : list value) (i : nat)
  : option (list atom) :=
  lo ← dedup !! i;
  hi ← dedup !! (i + 1)%nat;
  Some [lit_atom col OpGe lo;
        lit_atom col (upper_op (bool_decide (i = (length dedup - 2)%nat))) hi].

Definition single_preds (py_eq : value → value → bool)
    (col : string) (bounds : list value) : list (list atom) :=
  let dedup := close_single (dedup_adjacent py_eq bounds) in
  omap (single_pred_at col dedup) (seq 0 (length dedup - 1)).

Definition slice_preds (py_eq : value → value → bool)
    (pk_cols : list string) (boundaries : list (list value))
  : option (list (list atom)) :=
  if bool_decide (length pk_cols = 1%nat) then
    c0 ← pk_cols !! 0%nat;
    firsts ← mapM (fun b : list value => b !! 0%nat) boundaries;
    Some (single_preds py_eq c0 firsts)
  else
    bounds ← composite_bounds boundaries;
    preds ← mapM (fun '(lo, hi, is_last) =>
                    composite_preds py_eq pk_cols lo hi is_last) bounds;
    Some (concat preds).

(** ** Orders on key values and key tuples *)

(** A three-way comparison that is a strict total order: what [ORDER BY]
    and the comparison operators of the database agree on for the values of
    a key column. *)
Class TotalCompare {A : Type} (cmp : A → A → comparison) : Prop := {
  cmp_eq a b : cmp a b = Eq ↔ a = b;
  cmp_antisym a b : cmp b a = CompOpp (cmp a b);
  cmp_trans a b c : cmp a b = Lt → cmp b c = Lt → cmp a c = Lt
}.

(** Tuples are compared component by component, left to right. *)
Fixpoint lex_compare {A : Type} (cmp : A → A → comparison) (x y : list A)
  : comparison :=
  match x, y with
  | [], [] => Eq
  | [], _ :: _ => Lt
  | _ :: _, [] => Gt
  | a :: x', b :: y' =>
      match cmp a b with
      | Eq => lex_compare cmp x' y'
      | c => c
      end
  end.

(** One such order on all of [value], for running the definitions: values
    are ordered by kind, and within a kind by content. *)
Definition string_codes (s : string) : list Z :=
  (fun c => Z.of_N (N_of_ascii c)) <$> list_ascii_of_string s.

Definition value_code (v : value) : list Z :=
  match v with
  | VNone => [0%Z]
  | VInt z => [1%Z; z]
  | VOther repr => 2%Z :: string_codes repr
  | VStr s => 3%Z :: string_codes s
  | VDate d => [4%Z; Z.of_nat (year d); Z.of_nat (month d); Z.of_nat (day d)]
  | VDateTime d t =>
      [5%Z; Z.of_nat (year d); Z.of_nat (month d); Z.of_nat (day d);
       Z.of_nat (hour t); Z.of_nat (minute t); Z.of_nat (second t);
       Z.of_nat (microsecond t)]
  end.

Definition value_compare (a b : value) : comparison :=
  lex_compare Z.compare (value_code a) (value_code b).

(** Python's [==] where it is the identity of the values: on text,
    integers, dates, datetimes and [None]. *)
Definition identity_eq (a b : value) : bool := bool_decide (a = b).

(** ** Meaning of predicates on rows *)

(** A row gives every column a value; its key is the tuple of the key
    columns. *)
Definition row : Type := string → value.

Definition key_of (r : row) (cols : list string) : list value := r <$> cols.

Definition holds (op : cmp_op) (c : comparison) : bool :=
  match op, c with
  | OpEq, Eq => true
  | OpLt, Lt => true
  | OpLe, (Lt | Eq) => true
  | OpGt, Gt => true
  | OpGe, (Gt | Eq) => true
  | _, _ => false
  end.

Section semantics_definitions.

(** What the database reads a literal as when it compares it with a given
    column ([denote col lit]); [None] for a text it does not read as a
    value, and for [NULL], with which no comparison holds. *)
Context (denote : string → string → option value).
Context (vcmp : value → value → comparison).

(** The comparison the database evaluates for an atom: the value of the
    column in the row against the value it reads from the literal. *)
Definition sat_atom (r : row) (a : atom) : bool :=
  match denote (a_col a) (a_lit a) with
  | Some v => holds (a_op a) (vcmp (r (a_col a)) v)
  | None => false
  end.

Definition sat_pred (r : row) (p : list atom) : bool := forallb (sat_atom r) p.

(** How many of the predicates a row satisfies. *)
Definition count_sat (r : row) (ps : list (list atom)) : nat :=
  length (filter (fun p => sat_pred r p = true) ps).

(** Membership of a key in [[low, high)], or in [[low, high]] when [closed]. *)
Definition in_interval (low high : list value) (closed : bool) (key : list value)
  : bool :=
  match lex_compare vcmp low key with
  | Gt => false
  | _ =>
      match lex_compare vcmp key high with
      | Lt => true
      | Eq => closed
      | Gt => false
      end
  end.

(** The literal of every component of a key tuple is read back as that
    component. *)
Definition faithful (cols : list string) (key : list value) : Prop :=
  Forall2 (fun c v => denote c (fmt_literal v) = Some v) cols key.

End semantics_definitions.

(** Python's [==] is the identity on the components of two key tuples, in
    both directions. *)
Definition eq_is_identity (py_eq : value → value → bool) (x y : list value) : Prop :=
  Forall2 (fun a b => py_eq a b = bool_decide (a = b) ∧ py_eq b a = bool_decide (a = b))
          x y.

(** Keys on which the text the slicer writes means what the slicer read:
    every literal is read back as the value, and [==] is the identity
    between any two of the keys. *)
Definition plain_keys (py_eq : value → value → bool)
    (denote : string → string → option value)
    (cols : list string) (keys : list (list value)) : Prop :=
  Forall (faithful denote cols) keys
  ∧ Forall (fun x => Forall (eq_is_identity py_eq x) keys) keys.

(** ** Runs of intervals *)

(** Consecutive pairs of a boundary list, the last pair flagged: the
    intervals both branches of the generator walk through. *)
Fixpoint consecutive {A : Type} (l : list A) : list (A * A * bool) :=
  match l with
  | [] => []
  | x :: tl =>
      match tl with
      | [] => []
      | y :: rest => (x, y, match rest with [] => true | _ => false end) :: consecutive tl
      end
  end.

(** The pair the index loops read at position [i]. *)
Definition pair_at {A : Type} (l : list A) (i : nat) : option (A * A * bool) :=
  lo ← l !! i;
  hi ← l !! (i + 1)%nat;
  Some (lo, hi, bool_decide (i = (length l - 2)%nat)).

(** The predicate of one interval of a single-column key. *)
Definition interval_pred (col : string) (iv : value * value * bool) : list atom :=
  let '(lo, hi, closed) := iv in [lit_atom col OpGe lo; lit_atom col (upper_op closed) hi].

(** No element equal, for Python, to the one before it: what the first
    loop of the single-column slicer leaves. *)
Fixpoint adjacent_distinct (py_eq : value → value → bool) (l : list value) : bool :=
  match l with
  | [] => true
  | x :: tl =>
      match tl with
      | [] => true
      | y :: _ => negb (py_eq y x) && adjacent_distinct py_eq tl
      end
  end.

(** The length of the leading run of components of two tuples that are
    equal for Python. *)
Fixpoint common_prefix (py_eq : value → value → bool) (l r : list value) : nat :=
  match l, r with
  | a :: l', b :: r' => if py_eq a b then S (common_prefix py_eq l' r') else 0
  | _, _ => 0
  end.

Section run_definitions.
Context (vcmp : value → value → comparison).

(** The strict order on key tuples. *)
Definition key_lt (x y : list value) : Prop := lex_compare vcmp x y = Lt.

(** A strictly increasing list of key tuples: a boundary list, or the rows
    of a table in key order, the key being unique. *)
Fixpoint strictly_increasing (bs : list (list value)) : bool :=
  match bs with
  | [] => true
  | x :: tl =>
      match tl with
      | [] => true
      | y :: _ =>
          match lex_compare vcmp x y with Lt => true | _ => false end
          && strictly_increasing tl
      end
  end.


End run_definitions.

(** ** Substrings *)

(** [w in s]. *)
Fixpoint contains (w s : string) : bool :=
  String.prefix w s
  || match s with
     | EmptyString => false
     | String _ s' => contains w s'
     end.

Definition is_substring (w s : string) : Prop := ∃ a b, s = a +:+ w +:+ b.

(** Words without a blank that occur in none of the keywords and operators
    the slicer writes between column names and literals. *)
Fixpoint no_space (w : string) : bool :=
  match w with
  | EmptyString => true
  | String c w' => negb (Ascii.eqb c " "%char) && no_space w'
  end.

Definition foreign_word (w : string) : bool :=
  no_space w
  && negb (contains w "AND")
  && forallb (fun op => negb (contains w (op_text op))) [OpEq; OpLt; OpLe; OpGt; OpGe].

(** ** Chunking a key list held in memory *)

Section chunk_definitions.

(** Whether Python's [a < b] is defined for two key values; it raises
    [TypeError] for values of kinds that do not compare: a number and
    [None], text and a number, a date and a datetime. *)
Context (comparable : value → value → bool).

(** Python's order on the values it compares.  The properties of
    [chunk_lex] are stated for orders in which only identical values are
    equal, as on integers, text, dates and datetimes. *)
Context (vcmp : value → value → comparison).

(** [x <= y] on tuples, the order [sorted] sorts by. *)
Definition key_le (x y : list value) : Prop := lex_compare vcmp x y ≠ Gt.

#[global] Instance key_le_dec (x y : list value) : Decision (key_le x y).
Proof. unfold key_le. destruct (lex_compare vcmp x y); [left | left | right]; congruence. Defined.

(** Whether [x < y] is defined for two tuples: Python skips the leading
    components that are equal, looks for the first pair in which the
    tuples differ, and applies [<] to that pair alone. *)
Fixpoint tuples_comparable (x y : list value) : bool :=
  match x, y with
  | a :: x', b :: y' =>
      match vcmp a b with
      | Eq => tuples_comparable x' y'
      | _ => comparable a b
      end
  | _, _ => true
  end.

(** [sorted(pk_rows)].  Sorting compares the tuples with one another: two
    tuples that end up next to each other have been compared, so a list
    that holds two tuples which do not compare raises [TypeError].
    Otherwise the result is the sorted arrangement of the list, which is
    unique for a total order. *)
Definition py_sorted (pk_rows : list (list value)) : exn + list (list value) :=
  if forallb (fun x => forallb (tuples_comparable x) pk_rows) pk_rows
  then inr (merge_sort key_le pk_rows)
  else inl TypeError.

(** [range(0, stop, step)] for [step >= 1], the only steps [chunk_lex]
    computes: the multiples of [step] below [stop]. *)
Definition range_step (stop step : Z) : list Z :=
  (fun i => i * step)%Z <$> range ((stop + step - 1) / step).

(** The body of the loop over [enumerate(starts)]. *)
Definition chunk_slice (data starts : list (list value)) (idx : nat) (lo : list value)
  : option (list value * list value * bool) :=
  if bool_decide (idx + 1 < length starts) then
    hi ← starts !! (idx + 1);
    Some (lo, hi, false)
  else
    hi ← last data;
    Some (lo, hi, true).

(** [chunk_lex].  [IndexError] stands for an index out of range. *)
Definition chunk_lex (pk_rows : list (list value)) (k : Z)
  : exn + list (list value * list value * bool) :=
  match py_sorted pk_rows with
  | inl e => inl e
  | inr data =>
      let n := Z.of_nat (length data) in
      match stride n k with
      | inl e => inl e
      | inr step =>
          match (starts ← mapM (fun i => data !! Z.to_nat i) (range_step n step);
                 mapM (fun '(idx, lo) => chunk_slice data starts idx lo)
                      (imap pair starts)) with
          | Some slices => inr slices
          | None => inl IndexError
          end
      end
  end.

End chunk_definitions.

(** ** The shape of a predicate *)

Definition is_upper (op : cmp_op) : bool :=
  match op with OpLt | OpLe => true | _ => false end.

(** A predicate that an index on [cols] serves with one range scan:
    equalities on leading key columns, in key order, then on the next key
    column either one comparison or a lower bound followed by an upper
    bound. *)
Fixpoint prefix_range (cols : list string) (p : list atom) : bool :=
  match cols, p with
  | c :: cols', a :: p' =>
      bool_decide (a_col a = c)
      && match a_op a with
         | OpEq => prefix_range cols' p'
         | OpGt | OpGe =>
             match p' with
             | [] => true
             | [b] => bool_decide (a_col b = c) && is_upper (a_op b)
             | _ => false
             end
         | OpLt | OpLe => match p' with [] => true | _ => false end
         end
  | _, _ => false
  end.

(** ** Reading a quoted literal back *)

(** The text a SQL string literal stands for.  [unquote_body] reads what
    follows the opening quote: two quotes in a row are one quote, a quote
    on its own ends the literal and must be the last character. *)
Fixpoint unquote_body (body : string) : option string :=
  match body with
  | EmptyString => None
  | String c rest =>
      if Ascii.eqb c "'"%char then
        match rest with
        | EmptyString => Some EmptyString
        | String c' rest' =>
            if Ascii.eqb c' "'"%char then String "'"%char <$> unquote_body rest' else None
        end
      else String c <$> unquote_body rest
  end.

Definition unquote (lit : string) : option string :=
  match lit with
  | String c body => if Ascii.eqb c "'"%char then unquote_body body else None
  | EmptyString => None
  end.

(** Key values that are text or integers. *)
Definition plain_key (v : value) : bool :=
  match v with
  | VStr _ | VInt _ => true
  | _ => false
  end.

(** ** One way of reading literals

    For running the definitions: the value a database reads from a literal
    that [fmt_literal] wrote, in a comparison with a column of the matching
    type.  A text literal is unquoted, a number is read in decimal, [DATE]
    and [TIMESTAMP] literals are read field by field, and a [TIMESTAMP]
    literal without a fraction names a whole second.  [NULL] is no value. *)

Definition read_digit (c : ascii) : option N :=
  let n := N_of_ascii c in
  if (48 <=? n)%N && (n <=? 57)%N then Some (n - 48)%N else None.

Fixpoint read_digits (acc : N) (s : string) : option N :=
  match s with
  | EmptyString => Some acc
  | String c s' => d ← read_digit c; read_digits (acc * 10 + d)%N s'
  end.

Definition read_nat (s : string) : option nat :=
  match s with
  | EmptyString => None
  | _ => N.to_nat <$> read_digits 0%N s
  end.

Definition read_int (s : string) : option Z :=
  match s with
  | String c s' =>
      if Ascii.eqb c "-"%char then (fun n => - Z.of_nat n)%Z <$> read_nat s'
      else Z.of_nat <$> read_nat s
  | EmptyString => None
  end.

Fixpoint split_at (sep : ascii) (s : string) : option (string * string) :=
  match s with
  | EmptyString => None
  | String c rest =>
      if Ascii.eqb c sep then Some (EmptyString, rest)
      else '(a, b) ← split_at sep rest; Some (String c a, b)
  end.

Fixpoint strip_prefix (p s : string) : option string :=
  match p, s with
  | EmptyString, _ => Some s
  | String a p', String b s' => if Ascii.eqb a b then strip_prefix p' s' else None
  | String _ _, EmptyString => None
  end.

(** What stands before the closing quote, which must end the text. *)
Definition quoted_body (s : string) : option string :=
  '(body, rest) ← split_at "'"%char s;
  match rest with
  | EmptyString => Some body
  | String _ _ => None
  end.

Definition read_date (s : string) : option date :=
  '(y, rest) ← split_at "-"%char s;
  '(m, d) ← split_at "-"%char rest;
  y ← read_nat y; m ← read_nat m; d ← read_nat d;
  Some (Date y m d).

Definition read_time (s : string) : option time :=
  '(h, rest) ← split_at ":"%char s;
  '(m, sec) ← split_at ":"%char rest;
  h ← read_nat h; m ← read_nat m; sec ← read_nat sec;
  Some (TimeOfDay h m sec 0).

Definition read_literal (lit : string) : option value :=
  match strip_prefix "TIMESTAMP '" lit with
  | Some rest =>
      body ← quoted_body rest;
      '(d, t) ← split_at " "%char body;
      d ← read_date d; t ← read_time t;
      Some (VDateTime d t)
  | None =>
      match strip_prefix "DATE '" lit with
      | Some rest => body ← quoted_body rest; VDate <$> read_date body
      | None =>
          match unquote lit with
          | Some s => Some (VStr s)
          | None => VInt <$> read_int lit
          end
      end
  end.

(** The reading that does not depend on the column. *)
Definition read_back (col lit : string) : option value := read_literal lit.

(** ** One way values compare

    For running the definitions: Python's [<] is defined between two
    numbers, two texts, two dates, two datetimes; [None] compares with
    nothing. *)
Definition same_kind (a b : value) : bool :=
  match a, b with
  | VStr _, VStr _ | VInt _, VInt _ | VDate _, VDate _
  | VDateTime _ _, VDateTime _ _ | VOther _, VOther _ => true
  | _, _ => false
  end.

(** * Lemmas *)

(** [List.map] and stdpp's [fmap] on lists are the same function; the
    lemmas of stdpp are stated for the latter. *)
Ltac fold_fmap :=
  repeat match goal with
         | |- context [map ?f ?l] => change (map f l) with (f <$> l)
         | H : context [map ?f ?l] |- _ => change (map f l) with (f <$> l) in H
         end.

Section lemmas.

(** Python's [==], and the database's reading of literals. *)
Context (py_eq : value → value → bool).
Context (denote : string → string → option value).

(** ** The emitted text is the rendering of the syntax *)

Lemma append_assoc (a b c : string) : (a +:+ b) +:+ c = a +:+ b +:+ c.
Proof.
  induction a as [|x a IH]; [done|].
  change (String x ((a +:+ b) +:+ c) = String x (a +:+ b +:+ c)).
  by rewrite IH.
Qed.

Lemma render_pred_cons (a : atom) (p : list atom) :
  p ≠ [] → render_pred (a :: p) = render_atom a +:+ " AND " +:+ render_pred p.
Proof. by destruct p. Qed.

Lemma render_pred_pair (a b : atom) :
  render_pred [a; b] = render_atom a +:+ " AND " +:+ render_atom b.
Proof. reflexivity. Qed.

Lemma _ge_segments_render cols bounds :
  _ge_segments cols bounds = render_segments <$> ge_segments cols bounds.
Proof.
  revert bounds. induction cols as [|c cols IH]; intros bounds; [done|].
  destruct cols as [|c' cols].
  - simpl. by destruct (bounds !! 0%nat).
  - change (_ge_segments (c :: c' :: cols) bounds) with
      (b0 ← bounds !! 0%nat;
       subs ← _ge_segments (c' :: cols) (drop 1 bounds);
       Some (map (fun sub => (c +:+ " = " +:+ fmt_literal b0) :: sub) subs
             ++ [[c +:+ " > " +:+ fmt_literal b0]])).
    change (ge_segments (c :: c' :: cols) bounds) with
      (b0 ← bounds !! 0%nat;
       subs ← ge_segments (c' :: cols) (drop 1 bounds);
       Some (map (cons (lit_atom c OpEq b0)) subs ++ [[lit_atom c OpGt b0]])).
    rewrite IH. destruct (bounds !! 0%nat) as [b0|]; [|reflexivity].
    destruct (ge_segments (c' :: cols) (drop 1 bounds)) as [subs|]; [|reflexivity].
    cbn [mbind option_bind fmap option_fmap option_map]. f_equal. unfold render_segments. rewrite fmap_app. f_equal.
    rewrite <- !list_fmap_compose. by apply list_fmap_ext.
Qed.

Lemma _le_segments_render cols bounds inclusive :
  _le_segments cols bounds inclusive
  = render_segments <$> le_segments cols bounds inclusive.
Proof.
  revert bounds. induction cols as [|c cols IH]; intros bounds; [done|].
  destruct cols as [|c' cols].
  - simpl. destruct (bounds !! 0%nat); [|done]. by destruct inclusive.
  - change (_le_segments (c :: c' :: cols) bounds inclusive) with
      (b0 ← bounds !! 0%nat;
       subs ← _le_segments (c' :: cols) (drop 1 bounds) inclusive;
       Some ([[c +:+ " < " +:+ fmt_literal b0]]
             ++ map (fun sub => (c +:+ " = " +:+ fmt_literal b0) :: sub) subs)).
    change (le_segments (c :: c' :: cols) bounds inclusive) with
      (b0 ← bounds !! 0%nat;
       subs ← le_segments (c' :: cols) (drop 1 bounds) inclusive;
       Some ([[lit_atom c OpLt b0]] ++ map (cons (lit_atom c OpEq b0)) subs)).
    rewrite IH. destruct (bounds !! 0%nat) as [b0|]; [|reflexivity].
    destruct (le_segments (c' :: cols) (drop 1 bounds) inclusive) as [subs|]; [|reflexivity].
    cbn [mbind option_bind fmap option_fmap option_map]. f_equal.
    unfold render_segments. rewrite fmap_app. f_equal.
    rewrite <- !list_fmap_compose. by apply list_fmap_ext.
Qed.

Lemma ge_segments_cons c c' cols bounds :
  ge_segments (c :: c' :: cols) bounds
  = b0 ← bounds !! 0%nat;
    subs ← ge_segments (c' :: cols) (drop 1 bounds);
    Some (map (cons (lit_atom c OpEq b0)) subs ++ [[lit_atom c OpGt b0]]).
Proof. reflexivity. Qed.

Lemma le_segments_cons c c' cols bounds inclusive :
  le_segments (c :: c' :: cols) bounds inclusive
  = b0 ← bounds !! 0%nat;
    subs ← le_segments (c' :: cols) (drop 1 bounds) inclusive;
    Some ([[lit_atom c OpLt b0]] ++ map (cons (lit_atom c OpEq b0)) subs).
Proof. reflexivity. Qed.

Lemma composite_preds_cons c0 c1 cols left right is_last :
  composite_preds py_eq (c0 :: c1 :: cols) left right is_last
  = l0 ← left !! 0%nat;
    r0 ← right !! 0%nat;
    if py_eq l0 r0 then
      tail_preds ← composite_preds py_eq (c1 :: cols) (drop 1 left) (drop 1 right) is_last;
      Some (map (cons (lit_atom c0 OpEq l0)) tail_preds)
    else
      lower ← ge_segments (c1 :: cols) (drop 1 left);
      upper ← le_segments (c1 :: cols) (drop 1 right) is_last;
      Some (map (cons (lit_atom c0 OpEq l0)) lower
            ++ [[lit_atom c0 OpGt l0; lit_atom c0 OpLt r0]]
            ++ map (cons (lit_atom c0 OpEq r0)) upper).
Proof. reflexivity. Qed.

Lemma build_composite_slice_wheres_cons c0 c1 cols left right is_last :
  build_composite_slice_wheres py_eq (c0 :: c1 :: cols) left right is_last
  = l0 ← left !! 0%nat;
    r0 ← right !! 0%nat;
    if py_eq l0 r0 then
      tail_wheres ← build_composite_slice_wheres py_eq (c1 :: cols) (drop 1 left)
                      (drop 1 right) is_last;
      Some (map (fun w => c0 +:+ " = " +:+ fmt_literal l0 +:+ " AND " +:+ w) tail_wheres)
    else
      lower ← _ge_segments (c1 :: cols) (drop 1 left);
      upper ← _le_segments (c1 :: cols) (drop 1 right) is_last;
      Some (map (fun seg => String.concat " AND " ((c0 +:+ " = " +:+ fmt_literal l0) :: seg)) lower
            ++ [c0 +:+ " > " +:+ fmt_literal l0 +:+ " AND " +:+ c0 +:+ " < " +:+ fmt_literal r0]
            ++ map (fun seg => String.concat " AND " ((c0 +:+ " = " +:+ fmt_literal r0) :: seg)) upper).
Proof. reflexivity. Qed.

(** Every predicate of the decomposition has at least one comparison. *)
Lemma composite_preds_nonempty cols left right is_last ps :
  composite_preds py_eq cols left right is_last = Some ps → Forall (fun p => p ≠ []) ps.
Proof.
  revert left right ps. induction cols as [|c0 cols IH]; intros left right ps; [done|].
  destruct cols as [|c1 cols].
  - simpl. destruct (left !! 0%nat); [|done]. destruct (right !! 0%nat); [|done].
    intros [= <-]. by repeat constructor.
  - rewrite composite_preds_cons.
    destruct (left !! 0%nat) as [l0|]; [|done].
    destruct (right !! 0%nat) as [r0|]; [|done].
    cbn [mbind option_bind]. destruct (py_eq l0 r0).
    + destruct (composite_preds py_eq (c1 :: cols) _ _ _); [|done].
      intros [= <-]. apply Forall_forall. intros p [q [-> _]]%list_elem_of_fmap. done.
    + destruct (ge_segments (c1 :: cols) _); [|done].
      destruct (le_segments (c1 :: cols) _ _); [|done].
      intros [= <-]. apply Forall_forall. intros p Hp.
      apply elem_of_app in Hp as [[q [-> _]]%list_elem_of_fmap|Hp]; [done|].
      apply elem_of_cons in Hp as [->|[q [-> _]]%list_elem_of_fmap]; done.
Qed.

Lemma build_composite_slice_wheres_render cols left right is_last :
  build_composite_slice_wheres py_eq cols left right is_last
  = render_preds <$> composite_preds py_eq cols left right is_last.
Proof.
  revert left right. induction cols as [|c0 cols IH]; intros left right; [done|].
  destruct cols as [|c1 cols].
  - simpl. destruct (left !! 0%nat); [|done]. destruct (right !! 0%nat); [|done].
    cbn [mbind option_bind fmap option_fmap option_map render_preds list_fmap].
    rewrite render_pred_pair. unfold render_atom. cbn [a_col a_op a_lit lit_atom op_text].
    rewrite !append_assoc. by destruct is_last.
  - rewrite build_composite_slice_wheres_cons, composite_preds_cons.
    destruct (left !! 0%nat) as [l0|]; [|reflexivity].
    destruct (right !! 0%nat) as [r0|]; [|reflexivity].
    cbn [mbind option_bind]. destruct (py_eq l0 r0).
    + rewrite IH.
      pose proof (composite_preds_nonempty (c1 :: cols) (drop 1 left) (drop 1 right) is_last) as Hne.
      destruct (composite_preds py_eq (c1 :: cols) _ _ _) as [ps|]; [|reflexivity].
      specialize (Hne ps eq_refl).
      cbn [mbind option_bind fmap option_fmap option_map]. f_equal.
      unfold render_preds. fold_fmap.
      rewrite <- !list_fmap_compose. apply Forall_fmap_ext.
      eapply Forall_impl; [exact Hne|]. intros p Hp. simpl.
      rewrite render_pred_cons by done. unfold render_atom. cbn [a_col a_op a_lit lit_atom op_text].
      by rewrite !append_assoc.
    + rewrite _ge_segments_render, _le_segments_render.
      destruct (ge_segments (c1 :: cols) _) as [lower|]; [|reflexivity].
      destruct (le_segments (c1 :: cols) _ _) as [upper|]; [|reflexivity].
      cbn [mbind option_bind fmap option_fmap option_map]. f_equal.
      unfold render_preds. fold_fmap.
      rewrite !fmap_app. unfold render_segments. f_equal; [|f_equal].
      * rewrite <- !list_fmap_compose. by apply list_fmap_ext.
      * cbn [fmap list_fmap]. rewrite render_pred_pair. unfold render_atom.
        cbn [a_col a_op a_lit lit_atom op_text]. by rewrite !append_assoc.
      * rewrite <- !list_fmap_compose. by apply list_fmap_ext.
Qed.

Lemma omap_fmap_option {A B C} (f : B → C) (g : A → option B) (l : list A) :
  omap (fun x => f <$> g x) l = f <$> omap g l.
Proof.
  induction l as [|x l IH]; [done|].
  simpl. destruct (g x); simpl; [f_equal|]; exact IH.
Qed.

Lemma mapM_fmap_option {A B C} (f : B → C) (g : A → option B) (l : list A) :
  mapM (fun x => f <$> g x) l = (fun k : list B => f <$> k) <$> mapM g l.
Proof.
  induction l as [|x l IH]; [done|]. simpl. rewrite IH.
  destruct (g x); [|done]. simpl. by destruct (mapM g l).
Qed.

Lemma make_single_pk_slices_from_bounds_render col bounds :
  make_single_pk_slices_from_bounds py_eq col bounds
  = render_pred <$> single_preds py_eq col bounds.
Proof.
  unfold make_single_pk_slices_from_bounds, single_preds.
  rewrite <- omap_fmap_option. apply list_omap_ext, Forall_Forall2_diag, Forall_forall.
  intros i _. unfold single_slice_at, single_pred_at.
  destruct (_ !! i) as [lo|]; [|done].
  destruct (_ !! (i + 1)%nat) as [hi|]; [|done].
  cbn [mbind option_bind fmap option_fmap option_map]. f_equal.
  rewrite render_pred_pair. unfold render_atom. cbn [a_col a_op a_lit lit_atom op_text].
  rewrite !append_assoc. by case_bool_decide.
Qed.

Lemma render_preds_concat (pss : list (list (list atom))) :
  concat (render_preds <$> pss) = render_preds (concat pss).
Proof.
  unfold render_preds. induction pss as [|ps pss IH]; [done|].
  simpl. rewrite fmap_app. f_equal. exact IH.
Qed.

Lemma slice_conditions_render pk_cols boundaries :
  slice_conditions py_eq pk_cols boundaries
  = render_preds <$> slice_preds py_eq pk_cols boundaries.
Proof.
  unfold slice_conditions, slice_preds. case_bool_decide.
  - destruct (pk_cols !! 0%nat) as [c0|]; [|done]. simpl.
    destruct (mapM _ boundaries) as [firsts|]; [|done]. simpl.
    by rewrite make_single_pk_slices_from_bounds_render.
  - destruct (composite_bounds boundaries) as [bounds|]; [|done]. simpl.
    rewrite (mapM_ext _ (fun b => render_preds <$>
               (let '(lo, hi, is_last) := b in composite_preds py_eq pk_cols lo hi is_last))).
    + rewrite mapM_fmap_option. destruct (mapM _ bounds) as [preds|]; [|done]. simpl.
      f_equal. apply render_preds_concat.
    + intros [[lo hi] is_last]. apply build_composite_slice_wheres_render.
Qed.

Section total_compare.
Context {A : Type} (cmp : A → A → comparison) `{!TotalCompare cmp}.

Lemma cmp_refl a : cmp a a = Eq.
Proof. by apply (cmp_eq (cmp:=cmp)). Qed.

Lemma lex_compare_eq x y : lex_compare cmp x y = Eq ↔ x = y.
Proof.
  revert y. induction x as [|a x IH]; intros [|b y]; simpl; try (split; congruence).
  destruct (cmp a b) eqn:E.
  - apply (cmp_eq (cmp:=cmp)) in E as ->. rewrite IH. split; congruence.
  - split; [done|]. intros [= -> ->]. rewrite cmp_refl in E. done.
  - split; [done|]. intros [= -> ->]. rewrite cmp_refl in E. done.
Qed.

Lemma lex_compare_antisym x y : lex_compare cmp y x = CompOpp (lex_compare cmp x y).
Proof.
  revert y. induction x as [|a x IH]; intros [|b y]; simpl; try done.
  rewrite (cmp_antisym (cmp:=cmp) a b). destruct (cmp a b); simpl; auto.
Qed.

Lemma lex_compare_trans x y z :
  lex_compare cmp x y = Lt → lex_compare cmp y z = Lt → lex_compare cmp x z = Lt.
Proof.
  revert y z. induction x as [|a x IH]; intros [|b y] [|c z]; simpl; try done.
  destruct (cmp a b) eqn:Eab; [| |done].
  - apply (cmp_eq (cmp:=cmp)) in Eab as ->. destruct (cmp b c); [|done..]. apply IH.
  - intros _. destruct (cmp b c) eqn:Ebc; [| |done].
    + apply (cmp_eq (cmp:=cmp)) in Ebc as <-. by rewrite Eab.
    + by rewrite (cmp_trans (cmp:=cmp) a b c).
Qed.

#[global] Instance lex_compare_total : TotalCompare (lex_compare cmp).
Proof.
  split; [apply lex_compare_eq | apply lex_compare_antisym | apply lex_compare_trans].
Qed.

(** A comparison carried along an injection. *)
Lemma total_compare_inj {B : Type} (f : B → A) :
  Inj (=) (=) f → TotalCompare (fun a b => cmp (f a) (f b)).
Proof.
  intros Hf. split.
  - intros a b. rewrite (cmp_eq (cmp:=cmp)). split; [apply Hf | congruence].
  - intros a b. apply (cmp_antisym (cmp:=cmp)).
  - intros a b c. apply (cmp_trans (cmp:=cmp)).
Qed.

End total_compare.

#[global] Instance Z_compare_total : TotalCompare Z.compare.
Proof.
  split.
  - apply Z.compare_eq_iff.
  - intros a b. by rewrite Z.compare_antisym.
  - intros a b c. rewrite !Z.compare_lt_iff. lia.
Qed.


Lemma string_codes_inj : Inj (=) (=) string_codes.
Proof.
  intros s1 s2 H. unfold string_codes in H.
  rewrite <- (string_of_list_ascii_of_string s1), <- (string_of_list_ascii_of_string s2).
  f_equal. revert H. generalize (list_ascii_of_string s1) (list_ascii_of_string s2).
  induction l as [|a l IH]; intros [|b l']; simpl; try done.
  intros [= Hab Hl]. f_equal; [|by apply IH].
  apply N2Z.inj in Hab.
  rewrite <- (ascii_N_embedding a), <- (ascii_N_embedding b). by rewrite Hab.
Qed.

Lemma value_code_inj : Inj (=) (=) value_code.
Proof.
  intros [s|[y m d] [h mi se us]|[y m d]| |z|s] [s'|[y' m' d'] [h' mi' se' us']|[y' m' d']| |z'|s'];
    simpl; try done; intros H; simplify_eq; try done.
  - by rewrite (string_codes_inj s s').
  - by rewrite (string_codes_inj s s').
Qed.

#[global] Instance value_compare_total : TotalCompare value_compare.
Proof. apply (total_compare_inj (lex_compare Z.compare) value_code), value_code_inj. Qed.

Section semantics.
Context (vcmp : value → value → comparison).

Lemma count_sat_nil r : count_sat denote vcmp r [] = 0.
Proof. reflexivity. Qed.

Lemma count_sat_cons r p ps :
  count_sat denote vcmp r (p :: ps) = (if sat_pred denote vcmp r p then 1 else 0) + count_sat denote vcmp r ps.
Proof.
  unfold count_sat. rewrite filter_cons. destruct (sat_pred denote vcmp r p) eqn:E.
  - by rewrite decide_True.
  - by rewrite decide_False.
Qed.

Lemma count_sat_app r ps qs :
  count_sat denote vcmp r (ps ++ qs) = count_sat denote vcmp r ps + count_sat denote vcmp r qs.
Proof. unfold count_sat. by rewrite filter_app, length_app. Qed.

Lemma count_sat_guard r a ps :
  count_sat denote vcmp r (cons a <$> ps) = if sat_atom denote vcmp r a then count_sat denote vcmp r ps else 0.
Proof.
  induction ps as [|p ps IH]; [by destruct (sat_atom denote vcmp r a)|].
  rewrite fmap_cons, !count_sat_cons, IH. simpl.
  destruct (sat_atom denote vcmp r a); simpl; done.
Qed.

(** A row satisfies some predicate exactly when the count is positive. *)
Lemma count_sat_pos r ps :
  0 < count_sat denote vcmp r ps ↔ ∃ p, p ∈ ps ∧ sat_pred denote vcmp r p = true.
Proof.
  unfold count_sat. split.
  - intros H. destruct (filter _ ps) as [|p l] eqn:E; [simpl in H; lia|].
    exists p. apply and_comm, (list_elem_of_filter (fun p => sat_pred denote vcmp r p = true)).
    rewrite E. left.
  - intros (p & Hp & Hs).
    assert (p ∈ filter (fun p => sat_pred denote vcmp r p = true) ps) as Hin
      by (by apply list_elem_of_filter).
    destruct (filter _ ps); [by apply elem_of_nil in Hin | simpl; lia].
Qed.


(** On a literal that is read back as the value, an atom compares the
    column with that value. *)
Lemma sat_lit_atom r c op v :
  denote c (fmt_literal v) = Some v →
  sat_atom denote vcmp r (lit_atom c op v) = holds op (vcmp (r c) v).
Proof. intros H. unfold sat_atom, lit_atom. cbn [a_col a_op a_lit]. by rewrite H. Qed.

Lemma faithful_cons c cols v key :
  faithful denote (c :: cols) (v :: key)
  ↔ denote c (fmt_literal v) = Some v ∧ faithful denote cols key.
Proof.
  unfold faithful. split.
  - intros H. by inversion H; subst.
  - intros [? ?]. by constructor.
Qed.

Lemma faithful_length cols key : faithful denote cols key → length key = length cols.
Proof. intros H. symmetry. by eapply Forall2_length. Qed.

Context `{!TotalCompare vcmp}.

Lemma vcmp_swap a b : vcmp a b = CompOpp (vcmp b a).
Proof. apply (cmp_antisym (cmp:=vcmp)). Qed.

(** The lower-band expansion: exactly one segment holds when the key is at
    or above the bound, none otherwise. *)
Lemma ge_segments_count r cols bounds segs :
  ge_segments cols bounds = Some segs → faithful denote cols bounds →
  count_sat denote vcmp r segs =
    match lex_compare vcmp (key_of r cols) bounds with Lt => 0 | _ => 1 end.
Proof.
  revert bounds segs. induction cols as [|c cols IH]; intros bounds segs; [simpl; done|].
  destruct cols as [|c' cols].
  - destruct bounds as [|b0 [|? ?]]; try done; simpl; intros [= <-] Hf;
      [|apply faithful_length in Hf; done].
    apply faithful_cons in Hf as [Hb _].
    rewrite count_sat_cons, count_sat_nil. unfold sat_pred. cbn [forallb].
    rewrite sat_lit_atom by done.
    by destruct (vcmp (r c) b0).
  - rewrite ge_segments_cons. destruct bounds as [|b0 bounds]; [done|].
    cbn [lookup list_lookup mbind option_bind drop]. rewrite drop_0. intros Hs Hf.
    apply faithful_cons in Hf as [Hb Hf].
    destruct (ge_segments (c' :: cols) bounds) as [subs|] eqn:Esub;
      cbn [mbind option_bind] in Hs; [|done].
    injection Hs as <-. fold_fmap.
    rewrite count_sat_app, count_sat_guard, count_sat_cons, count_sat_nil.
    rewrite (IH _ _ Esub) by done.
    unfold sat_pred. cbn [forallb]. rewrite !sat_lit_atom by done.
    cbn [key_of fmap list_fmap lex_compare].
    destruct (vcmp (r c) b0); simpl; lia.
Qed.

(** The upper-band expansion: exactly one segment holds when the key is
    below the bound, or at it when [inclusive]. *)
Lemma le_segments_count r cols bounds inclusive segs :
  le_segments cols bounds inclusive = Some segs → faithful denote cols bounds →
  count_sat denote vcmp r segs =
    match lex_compare vcmp (key_of r cols) bounds with
    | Lt => 1
    | Eq => if inclusive then 1 else 0
    | Gt => 0
    end.
Proof.
  revert bounds segs. induction cols as [|c cols IH]; intros bounds segs; [simpl; done|].
  destruct cols as [|c' cols].
  - destruct bounds as [|b0 [|? ?]]; try done; simpl; intros [= <-] Hf;
      [|apply faithful_length in Hf; done].
    apply faithful_cons in Hf as [Hb _].
    rewrite count_sat_cons, count_sat_nil. unfold sat_pred. cbn [forallb].
    rewrite sat_lit_atom by done.
    by destruct (vcmp (r c) b0), inclusive.
  - rewrite le_segments_cons. destruct bounds as [|b0 bounds]; [done|].
    cbn [lookup list_lookup mbind option_bind drop]. rewrite drop_0. intros Hs Hf.
    apply faithful_cons in Hf as [Hb Hf].
    destruct (le_segments (c' :: cols) bounds inclusive) as [subs|] eqn:Esub;
      cbn [mbind option_bind] in Hs; [|done].
    injection Hs as <-. fold_fmap.
    cbn [app]. rewrite count_sat_cons, count_sat_guard.
    rewrite (IH _ _ Esub) by done.
    unfold sat_pred. cbn [forallb]. rewrite !sat_lit_atom by done.
    cbn [key_of fmap list_fmap lex_compare].
    destruct (vcmp (r c) b0); simpl; lia.
Qed.

Lemma eq_is_identity_cons a x b y :
  eq_is_identity py_eq (a :: x) (b :: y)
  ↔ (py_eq a b = bool_decide (a = b) ∧ py_eq b a = bool_decide (a = b))
    ∧ eq_is_identity py_eq x y.
Proof.
  unfold eq_is_identity. split.
  - intros H. by inversion H; subst.
  - intros [? ?]. by constructor.
Qed.

(** The decomposition of one interval: a row satisfies exactly one emitted
    predicate when its key lies in the interval, and none otherwise. *)
Lemma composite_preds_count r cols low high is_last ps :
  composite_preds py_eq cols low high is_last = Some ps →
  faithful denote cols low → faithful denote cols high →
  eq_is_identity py_eq low high →
  lex_compare vcmp low high ≠ Gt →
  count_sat denote vcmp r ps
  = if in_interval vcmp low high is_last (key_of r cols) then 1 else 0.
Proof.
  revert low high ps. induction cols as [|c0 cols IH]; intros low high ps; [simpl; done|].
  destruct cols as [|c1 cols].
  - intros Hps Hl Hh _ _.
    pose proof (faithful_length _ _ Hl). pose proof (faithful_length _ _ Hh).
    destruct low as [|l0 [|? ?]], high as [|h0 [|? ?]]; try done. simpl in Hps.
    injection Hps as <-.
    apply faithful_cons in Hl as [Hl _]. apply faithful_cons in Hh as [Hh _].
    rewrite count_sat_cons, count_sat_nil.
    unfold sat_pred. cbn [forallb]. rewrite !sat_lit_atom by done.
    unfold in_interval. simpl. rewrite (vcmp_swap l0 (r c0)).
    by destruct (vcmp (r c0) l0), (vcmp (r c0) h0), is_last.
  - rewrite composite_preds_cons.
    intros Hps Hl Hh Hid Hle.
    pose proof (faithful_length _ _ Hl). pose proof (faithful_length _ _ Hh).
    destruct low as [|l0 lt], high as [|h0 ht]; try done.
    cbn [lookup list_lookup mbind option_bind drop] in Hps. rewrite !drop_0 in Hps.
    apply faithful_cons in Hl as [Hl0 Hl]. apply faithful_cons in Hh as [Hh0 Hh].
    apply eq_is_identity_cons in Hid as [[Hpe _] Hid]. rewrite Hpe in Hps.
    case_bool_decide as Heq.
    + subst h0.
      destruct (composite_preds py_eq (c1 :: cols) lt ht is_last) as [tps|] eqn:Etl;
        cbn [mbind option_bind] in Hps; [|done].
      injection Hps as <-. fold_fmap. rewrite count_sat_guard.
      simpl in Hle. rewrite (cmp_refl vcmp l0) in Hle.
      rewrite sat_lit_atom by done.
      unfold in_interval.
      cbn [lex_compare key_of fmap list_fmap].
      rewrite (vcmp_swap l0 (r c0)).
      destruct (vcmp (r c0) l0); simpl; [|done..].
      by apply (IH lt ht tps Etl).
    + destruct (ge_segments (c1 :: cols) lt) as [lower|] eqn:Elo;
        cbn [mbind option_bind] in Hps; [|done].
      destruct (le_segments (c1 :: cols) ht is_last) as [upper|] eqn:Eup;
        cbn [mbind option_bind] in Hps; [|done].
      injection Hps as <-. fold_fmap.
      rewrite count_sat_app, count_sat_guard. cbn [app].
      rewrite count_sat_cons, count_sat_guard.
      rewrite (ge_segments_count r _ _ _ Elo) by done.
      rewrite (le_segments_count r _ _ _ _ Eup) by done.
      assert (vcmp l0 h0 = Lt) as Hlt.
      { simpl in Hle. destruct (vcmp l0 h0) eqn:E; [|done..].
        by apply (cmp_eq (cmp:=vcmp)) in E. }
      change (key_of r (c0 :: c1 :: cols)) with (r c0 :: key_of r (c1 :: cols)).
      generalize (key_of r (c1 :: cols)). intros kt.
      unfold sat_pred. cbn [forallb]. rewrite !sat_lit_atom by done.
      unfold in_interval. cbn [lex_compare].
      rewrite (vcmp_swap l0 (r c0)).
      rewrite (lex_compare_antisym vcmp kt lt).
      destruct (vcmp (r c0) l0) eqn:E1.
      * apply (cmp_eq (cmp:=vcmp)) in E1. rewrite E1, Hlt. simpl.
        destruct (lex_compare vcmp kt lt); simpl; lia.
      * rewrite (cmp_trans (cmp:=vcmp) _ _ _ E1 Hlt). done.
      * destruct (vcmp (r c0) h0) eqn:E2; simpl; [|lia..].
        destruct (lex_compare vcmp kt ht), is_last; simpl; lia.
Qed.

End semantics.

(** ** The expansions never fail on tuples of the key's arity, and their sizes *)

Lemma ge_segments_length cols bounds :
  cols ≠ [] → length cols ≤ length bounds →
  ∃ segs, ge_segments cols bounds = Some segs ∧ length segs = length cols.
Proof.
  revert bounds. induction cols as [|c cols IH]; intros bounds Hne Hlen; [done|].
  destruct bounds as [|b0 bounds]; [simpl in Hlen; lia|].
  destruct cols as [|c' cols].
  - simpl. eauto.
  - rewrite ge_segments_cons. cbn [lookup list_lookup mbind option_bind drop]. rewrite drop_0.
    destruct (IH bounds) as (subs & -> & Hs); [done|simpl in *; lia|].
    cbn [mbind option_bind]. eexists; split; [done|]. fold_fmap.
    rewrite length_app, length_fmap, Hs. simpl. lia.
Qed.

Lemma le_segments_length cols bounds inclusive :
  cols ≠ [] → length cols ≤ length bounds →
  ∃ segs, le_segments cols bounds inclusive = Some segs ∧ length segs = length cols.
Proof.
  revert bounds. induction cols as [|c cols IH]; intros bounds Hne Hlen; [done|].
  destruct bounds as [|b0 bounds]; [simpl in Hlen; lia|].
  destruct cols as [|c' cols].
  - simpl. eauto.
  - rewrite le_segments_cons. cbn [lookup list_lookup mbind option_bind drop]. rewrite drop_0.
    destruct (IH bounds) as (subs & -> & Hs); [done|simpl in *; lia|].
    cbn [mbind option_bind]. eexists; split; [done|]. fold_fmap.
    rewrite length_app, length_fmap, Hs. simpl. lia.
Qed.

Lemma composite_preds_length cols left right is_last :
  cols ≠ [] → length cols ≤ length left → length cols ≤ length right →
  ∃ ps, composite_preds py_eq cols left right is_last = Some ps
        ∧ length ps
          = 2 * (length cols - Nat.min (common_prefix py_eq left right) (length cols - 1)) - 1.
Proof.
  revert left right. induction cols as [|c0 cols IH]; intros left right Hne Hl Hr; [done|].
  destruct left as [|l0 lt]; [simpl in Hl; lia|].
  destruct right as [|r0 rt]; [simpl in Hr; lia|].
  destruct cols as [|c1 cols].
  - simpl. eexists; split; [done|]. simpl. lia.
  - rewrite composite_preds_cons.
    cbn [lookup list_lookup mbind option_bind drop common_prefix]. rewrite !drop_0.
    destruct (py_eq l0 r0) eqn:Heq.
    + destruct (IH lt rt) as (tps & -> & Ht); [done|simpl in *; lia..|].
      cbn [mbind option_bind]. eexists; split; [done|]. fold_fmap.
      rewrite length_fmap, Ht. simpl length. lia.
    + destruct (ge_segments_length (c1 :: cols) lt) as (lower & -> & Hlo);
        [done|simpl in *; lia|].
      destruct (le_segments_length (c1 :: cols) rt is_last) as (upper & -> & Hup);
        [done|simpl in *; lia|].
      cbn [mbind option_bind]. eexists; split; [done|]. fold_fmap.
      rewrite !length_app, !length_fmap, Hlo, Hup. simpl. lia.
Qed.

(** The common prefix, read off the tuples. *)
Lemma common_prefix_spec l r j a b :
  Forall2 (fun x y => py_eq x y = true) (take j l) (take j r) →
  l !! j = Some a → r !! j = Some b → py_eq a b = false →
  common_prefix py_eq l r = j.
Proof.
  revert l r. induction j as [|j IH]; intros [|x l] [|y r]; simpl; try done.
  - by intros _ [= ->] [= ->] ->.
  - intros H Hl Hr Hne. inversion H as [|? ? ? ? Hxy Ht]; subst. rewrite Hxy.
    f_equal. by apply IH.
Qed.

(** ** Index loops and consecutive pairs *)

Lemma mapM_pair_at_consecutive {A} (pre l : list A) :
  mapM (pair_at (pre ++ l)) (seq (length pre) (length l - 1)) = Some (consecutive l).
Proof.
  revert pre. induction l as [|x l IH]; intros pre; [done|].
  destruct l as [|y rest]; [done|].
  replace (length (x :: y :: rest) - 1) with (S (length (y :: rest) - 1)) by (simpl; lia).
  rewrite <- cons_seq. cbn [mapM].
  assert (pair_at (pre ++ x :: y :: rest) (length pre)
          = Some (x, y, match rest with [] => true | _ => false end)) as ->.
  { unfold pair_at. rewrite (list_lookup_middle pre (y :: rest) x (length pre) eq_refl). cbn [mbind option_bind].
    rewrite (lookup_app_r pre) by lia.
    replace (length pre + 1 - length pre) with 1 by lia. cbn [lookup list_lookup mbind option_bind].
    do 2 f_equal. rewrite length_app. destruct rest as [|z rest]; simpl.
    - apply bool_decide_true. lia.
    - apply bool_decide_false. lia. }
  cbn [mbind option_bind].
  specialize (IH (pre ++ [x])). rewrite <- app_assoc, length_app in IH. simpl in IH.
  replace (length pre + 1) with (S (length pre)) in IH by lia.
  simpl. rewrite Nat.sub_0_r in *. rewrite IH. done.
Qed.

Lemma composite_bounds_consecutive boundaries :
  composite_bounds boundaries = Some (consecutive boundaries).
Proof. apply (mapM_pair_at_consecutive [] boundaries). Qed.

Lemma omap_of_mapM {A B} (f : A → option B) (l : list A) (k : list B) :
  mapM f l = Some k → omap f l = k.
Proof.
  revert k. induction l as [|x l IH]; intros k; simpl; [by intros [= <-]|].
  destruct (f x) as [y|]; [|done]. simpl.
  destruct (mapM f l) as [k'|]; [|done]. simpl. intros [= <-].
  f_equal. by apply IH.
Qed.

Lemma single_preds_consecutive col bounds :
  single_preds py_eq col bounds
  = interval_pred col <$> consecutive (close_single (dedup_adjacent py_eq bounds)).
Proof.
  unfold single_preds. generalize (close_single (dedup_adjacent py_eq bounds)). intros dedup.
  rewrite (list_omap_ext _ (fun i => interval_pred col <$> pair_at dedup i)
             (seq 0 (length dedup - 1)) (seq 0 (length dedup - 1))).
  - rewrite omap_fmap_option. f_equal. apply omap_of_mapM.
    apply (mapM_pair_at_consecutive [] dedup).
  - apply Forall_Forall2_diag, Forall_forall. intros i _.
    unfold single_pred_at, pair_at.
    destruct (dedup !! i); [|done]. by destruct (dedup !! (i + 1)).
Qed.

(** ** The first loop of the single-column slicer *)

Lemma adjacent_distinct_app_inv pre x y l :
  adjacent_distinct py_eq (pre ++ x :: y :: l) = true → py_eq y x = false.
Proof.
  induction pre as [|a pre IH].
  - simpl. intros [H _]%andb_prop. by apply negb_true_iff in H.
  - change ((a :: pre) ++ x :: y :: l) with (a :: (pre ++ x :: y :: l)).
    destruct pre as [|b pre]; simpl; intros [_ H]%andb_prop; by apply IH.
Qed.

Lemma fold_dedup_step_distinct acc l :
  adjacent_distinct py_eq (acc ++ l) = true →
  fold_left (dedup_step py_eq) l acc = acc ++ l.
Proof.
  revert acc. induction l as [|b l IH]; intros acc H; simpl.
  - by rewrite app_nil_r.
  - assert (dedup_step py_eq acc b = acc ++ [b]) as ->.
    { unfold dedup_step. destruct (last acc) as [x|] eqn:E; [|done].
      apply last_Some in E as [pre ->]. rewrite <- app_assoc in H. simpl in H.
      apply adjacent_distinct_app_inv in H. by rewrite H. }
    rewrite IH; rewrite <- app_assoc; done.
Qed.

Lemma dedup_adjacent_distinct bounds :
  adjacent_distinct py_eq bounds = true → dedup_adjacent py_eq bounds = bounds.
Proof. intros H. apply (fold_dedup_step_distinct [] bounds H). Qed.

(** ** Keys that the text renders without loss *)





Lemma plain_keys_of cols keys :
  (∀ x, x ∈ keys → faithful denote cols x) →
  (∀ x y, x ∈ keys → y ∈ keys → eq_is_identity py_eq x y) →
  plain_keys py_eq denote cols keys.
Proof.
  intros Hf Hid. split.
  - by apply Forall_forall.
  - apply Forall_forall. intros x Hx. apply Forall_forall. intros y Hy. by apply Hid.
Qed.

Lemma elem_of_consecutive {A} (l : list A) lo hi closed :
  (lo, hi, closed) ∈ consecutive l → lo ∈ l ∧ hi ∈ l.
Proof.
  induction l as [|x l IH]; [by intros ?%elem_of_nil|].
  destruct l as [|y l]; [by intros ?%elem_of_nil|].
  change (consecutive (x :: y :: l))
    with ((x, y, match l with [] => true | _ => false end) :: consecutive (y :: l)).
  intros [Heq | Hin]%elem_of_cons.
  - injection Heq as -> -> _. split; [left|right; left].
  - destruct (IH Hin). split; by right.
Qed.

(** ** Runs of intervals: a key lies in at most one *)

Section runs.
Context (vcmp : value → value → comparison) `{!TotalCompare vcmp}.


Lemma strictly_increasing_cons x y bs :
  strictly_increasing vcmp (x :: y :: bs) = true ↔
  lex_compare vcmp x y = Lt ∧ strictly_increasing vcmp (y :: bs) = true.
Proof.
  change (strictly_increasing vcmp (x :: y :: bs))
    with (match lex_compare vcmp x y with Lt => true | _ => false end
          && strictly_increasing vcmp (y :: bs)).
  rewrite andb_true_iff. destruct (lex_compare vcmp x y); intuition congruence.
Qed.

Lemma consecutive_cons {A} (x y : A) (l : list A) :
  consecutive (x :: y :: l)
  = (x, y, match l with [] => true | _ => false end) :: consecutive (y :: l).
Proof. reflexivity. Qed.




Lemma Forall_consecutive {A} (P : A → Prop) (l : list A) :
  Forall P l → Forall (fun iv => P iv.1.1 ∧ P iv.1.2) (consecutive l).
Proof.
  induction l as [|x l IH]; intros H; [constructor|].
  destruct l as [|y l]; [constructor|].
  rewrite consecutive_cons. inversion H as [|? ? Hx Htl]; subst.
  constructor; [|by apply IH]. inversion Htl; subst. done.
Qed.



End runs.

(** ** Whole runs *)

(** Boundary rows of a single-column key are one-element tuples. *)
Lemma singleton_rows (boundaries : list (list value)) :
  Forall (fun b => length b = 1) boundaries →
  ∃ firsts, boundaries = (fun v => [v]) <$> firsts
            ∧ mapM (fun b : list value => b !! 0) boundaries = Some firsts.
Proof.
  induction 1 as [|b bs Hb _ (firsts & -> & IH)]; [by exists []|].
  destruct b as [|v [|? ?]]; try done.
  exists (v :: firsts). split; [done|]. simpl. by rewrite IH.
Qed.

Lemma slice_preds_total pk_cols boundaries :
  pk_cols ≠ [] → Forall (fun b => length b = length pk_cols) boundaries →
  ∃ ps, slice_preds py_eq pk_cols boundaries = Some ps.
Proof.
  intros Hne Hlen. unfold slice_preds. case_bool_decide as H1.
  - destruct pk_cols as [|c0 [|? ?]]; try done.
    destruct (singleton_rows boundaries Hlen) as (firsts & _ & ->). simpl. eauto.
  - rewrite composite_bounds_consecutive. cbn [mbind option_bind].
    destruct (mapM _ (consecutive boundaries)) as [pss|] eqn:E; [simpl; eauto|].
    exfalso. apply mapM_None_1, Exists_exists in E as ([[lo hi] closed] & Hin & E).
    pose proof (Forall_consecutive _ _ Hlen) as Hl.
    rewrite Forall_forall in Hl. destruct (Hl _ Hin) as [Hlo Hhi].
    simpl in *.
    destruct (composite_preds_length pk_cols lo hi closed) as (ps & Hps & _);
      [done|lia..|congruence].
Qed.

Section run_theorems.
Context (vcmp : value → value → comparison) `{!TotalCompare vcmp}.






End run_theorems.

(** ** Index loops whose body never fails *)

Lemma omap_seq_total {B} (f : nat → option B) (g : nat → B) (n : nat) :
  (∀ i, i < n → f i = Some (g i)) → omap f (seq 0 n) = g <$> seq 0 n.
Proof.
  intros H. rewrite (list_omap_ext f (fun i => Some (g i)) (seq 0 n) (seq 0 n)).
  - generalize (seq 0 n). induction l as [|x l IH]; [done|]. simpl. by f_equal.
  - apply Forall_Forall2_diag, Forall_forall. intros i Hi.
    apply H. apply elem_of_seq in Hi. lia.
Qed.

Lemma close_single_long (dedup : list value) :
  2 ≤ length dedup → close_single dedup = dedup.
Proof. destruct dedup as [|? [|? ?]]; simpl; (done || lia). Qed.

(** ** Python's true division and the stride *)

Section true_division_facts.
Local Open Scope Z_scope.

Lemma quotient_log2_le a b : quotient_log2 a b ≤ Z.log2 a - Z.log2 b.
Proof. unfold quotient_log2. repeat case_match; lia. Qed.

Lemma quotient_log2_lower a b :
  0 < a → 0 < b → 0 ≤ quotient_log2 a b → b * 2 ^ quotient_log2 a b ≤ a.
Proof.
  intros Ha Hb. unfold quotient_log2.
  pose proof (Z.log2_spec a Ha) as [Ha1 _].
  pose proof (Z.log2_spec b Hb) as [_ Hb2].
  pose proof (Z.log2_nonneg b) as Hlb.
  set (d := Z.log2 a - Z.log2 b) in *.
  destruct (0 <=? d) eqn:Hd.
  - destruct (a <? b * 2 ^ d) eqn:Hlt.
    + intros Hq.
      assert (2 ^ Z.log2 a = 2 ^ Z.succ (Z.log2 b) * 2 ^ (d - 1)) as Hpow.
      { rewrite <- Z.pow_add_r by lia. f_equal. lia. }
      assert (0 < 2 ^ (d - 1)) by (apply Z.pow_pos_nonneg; lia).
      nia.
    + intros _. lia.
  - apply Z.leb_gt in Hd. repeat case_match; lia.
Qed.

Lemma quotient_log2_nonneg a b : 0 < b → b ≤ a → 0 ≤ quotient_log2 a b.
Proof.
  intros Hb Hab. unfold quotient_log2.
  pose proof (Z.log2_le_mono b a Hab) as Hl.
  set (d := Z.log2 a - Z.log2 b) in *.
  assert (0 ≤ d) as Hd by lia. rewrite (proj2 (Z.leb_le 0 d) Hd).
  destruct (a <? b * 2 ^ d) eqn:Hlt; [|lia].
  apply Z.ltb_lt in Hlt. destruct (decide (d = 0)) as [->|]; [|lia].
  rewrite Z.pow_0_r in Hlt. lia.
Qed.

Lemma round_div_bounds num den :
  num / den ≤ round_div num den ≤ num / den + 1.
Proof. unfold round_div. case_match; lia. Qed.

Lemma round_div_exact num den :
  0 < den → num mod den = 0 → round_div num den = num / den.
Proof.
  intros Hd Hr. unfold round_div. rewrite Hr.
  rewrite (proj2 (Z.ltb_ge den (2 * 0))) by lia.
  rewrite (proj2 (Z.eqb_neq den (2 * 0))) by lia. done.
Qed.

Lemma round_div_up num den :
  den < 2 * (num mod den) → round_div num den = num / den + 1.
Proof.
  intros H. unfold round_div. by rewrite (proj2 (Z.ltb_lt den _) H).
Qed.

(** [ceil_div n k] is the least [c] with [n <= c * k]. *)
Lemma ceil_div_spec n k : 0 < k → (ceil_div n k - 1) * k < n ≤ ceil_div n k * k.
Proof.
  intros Hk. unfold ceil_div.
  pose proof (Z.div_mod (- n) k) as Hdm. pose proof (Z.mod_pos_bound (- n) k Hk). nia.
Qed.

Lemma ceil_div_unique n k c : 0 < k → (c - 1) * k < n ≤ c * k → ceil_div n k = c.
Proof. intros Hk Hc. pose proof (ceil_div_spec n k Hk). nia. Qed.

(** Rounding at a scale [p] finer than half the divisor keeps the ceiling. *)
Lemma ceil_round_scaled n k p :
  0 < n → 0 < k → 0 < p → k < 2 * p →
  ceil_div (round_div (n * p) k) p = ceil_div n k.
Proof.
  intros Hn Hk Hp Hkp. apply ceil_div_unique; [done|].
  pose proof (ceil_div_spec n k Hk) as [Hc1 Hc2].
  set (c := ceil_div n k) in *.
  pose proof (Z.div_mod (n * p) k) as Hdm.
  pose proof (Z.mod_pos_bound (n * p) k Hk) as Hr.
  pose proof (round_div_bounds (n * p) k) as [Hm1 Hm2].
  set (q := n * p / k) in *. set (r := (n * p) mod k) in *.
  split.
  - destruct (decide ((c - 1) * p < q)) as [|Hq]; [lia|].
    assert (q = (c - 1) * p) by nia.
    assert (k < 2 * r) by nia.
    rewrite (round_div_up (n * p) k) by done. fold q. lia.
  - destruct (decide (q < c * p)) as [|Hq]; [lia|].
    assert (r = 0) by nia.
    rewrite (round_div_exact (n * p) k) by done. fold q. nia.
Qed.

Lemma ceil_round_small n k p :
  0 < n → n < k → 0 < p → 0 ≤ ceil_div (round_div (n * p) k) p ≤ 1.
Proof.
  intros Hn Hk Hp.
  pose proof (round_div_bounds (n * p) k) as [Hm1 Hm2].
  assert (0 ≤ n * p / k) by (apply Z.div_pos; nia).
  assert (n * p / k < p) by (apply Z.div_lt_upper_bound; nia).
  pose proof (ceil_div_spec (round_div (n * p) k) p Hp). nia.
Qed.

Lemma math_ceil_neg_expo m e : e < 0 → math_ceil (Float m e) = ceil_div m (2 ^ (- e)).
Proof. intros He. unfold math_ceil, ceil_div. simpl. by rewrite (proj2 (Z.leb_gt 0 e)). Qed.

(** Below [2 ^ 53] rows the stride is the exact ceiling. *)
Lemma stride_exact n k :
  0 < n → n < 2 ^ 53 → 0 < k → stride n k = inr (Z.max 1 (ceil_div n k)).
Proof.
  intros Hn Hn53 Hk. unfold stride, int_true_divide.
  rewrite (proj2 (Z.eqb_neq k 0)), (proj2 (Z.eqb_neq n 0)) by lia.
  rewrite (Z.abs_eq n), (Z.abs_eq k), (Z.sgn_pos n), (Z.sgn_pos k) by lia.
  unfold round_quotient. cbn [mant expo].
  pose proof (quotient_log2_le n k) as Hql.
  pose proof (Z.log2_nonneg k) as Hlk.
  assert (Z.log2 n < 53) as Hln by (by apply Z.log2_lt_pow2).
  set (ql := quotient_log2 n k) in *.
  set (e := Z.max (ql - 52) (- 1074)).
  assert (e ≤ 0) as He by lia.
  destruct (decide (e = 0)) as [He0|He0].
  - assert (ql = 52) as Hq52 by lia.
    pose proof (quotient_log2_lower n k Hn Hk) as Hlow. fold ql in Hlow.
    rewrite Hq52 in Hlow. specialize (Hlow ltac:(lia)).
    assert (k = 1) as -> by (change (2 ^ 53) with (2 * 2 ^ 52) in Hn53; nia).
    rewrite He0. change (0 <=? 0) with true. cbv iota.
    rewrite Z.pow_0_r, !Z.mul_1_r.
    rewrite (round_div_exact n 1) by (lia || apply Z.mod_1_r).
    rewrite Z.div_1_r, !Z.mul_1_l.
    rewrite (proj2 (Z.leb_gt (2 ^ 1024) n)).
    + f_equal. f_equal. unfold math_ceil. simpl expo. simpl mant.
      change (0 <=? 0) with true. cbv iota. rewrite Z.pow_0_r, Z.mul_1_r.
      symmetry. apply ceil_div_unique; lia.
    + assert (2 ^ 53 ≤ 2 ^ 1024) by (apply Z.pow_le_mono_r; lia). lia.
  - assert (e < 0) as Hneg by lia.
    rewrite (proj2 (Z.leb_gt 0 e) Hneg).
    rewrite (Z.pow_neg_r 2 e Hneg), Z.mul_0_r.
    rewrite (proj2 (Z.leb_gt (2 ^ 1024) 0)) by (apply Z.pow_pos_nonneg; lia).
    rewrite !Z.mul_1_l. f_equal. rewrite math_ceil_neg_expo by done.
    assert (0 < 2 ^ (- e)) as Hp by (apply Z.pow_pos_nonneg; lia).
    destruct (decide (k ≤ n)) as [Hkn|Hkn].
    + f_equal. apply ceil_round_scaled; [done..|].
      pose proof (quotient_log2_nonneg n k Hk Hkn) as Hq0. fold ql in Hq0.
      pose proof (quotient_log2_lower n k Hn Hk) as Hlow. fold ql in Hlow.
      specialize (Hlow Hq0).
      assert (e = ql - 52) as Hee by lia.
      assert (0 < 2 ^ ql) by (apply Z.pow_pos_nonneg; lia).
      assert (2 ^ 53 = 2 ^ ql * (2 * 2 ^ (- e))) as Hpow.
      { rewrite <- (Z.pow_succ_r 2 (- e)) by lia. rewrite <- Z.pow_add_r by lia.
        f_equal. lia. }
      nia.
    + pose proof (ceil_round_small n k (2 ^ (- e)) Hn ltac:(lia) Hp).
      assert (ceil_div n k = 1) as -> by (apply ceil_div_unique; lia).
      lia.
Qed.

End true_division_facts.

(** ** The target ranks *)

Section target_ranks_facts.
Local Open Scope Z_scope.

Lemma elem_of_range k i : i ∈ range k ↔ 0 ≤ i < k.
Proof.
  unfold range. rewrite list_elem_of_fmap. split.
  - intros (n & -> & Hn%elem_of_seq). lia.
  - intros Hi. exists (Z.to_nat i). split; [lia|]. apply elem_of_seq. lia.
Qed.

Lemma elem_of_rank_set total k step x :
  x ∈ rank_set total k step ↔ x = total ∨ ∃ i, 0 ≤ i < k ∧ x = 1 + i * step.
Proof.
  unfold rank_set. rewrite elem_of_union, elem_of_list_to_set, elem_of_singleton.
  rewrite list_elem_of_fmap. split.
  - intros [(i & -> & Hi%elem_of_range) | ->]; [right; by exists i | by left].
  - intros [-> | (i & Hi & ->)]; [by right|].
    left. exists i. split; [done|]. by apply elem_of_range.
Qed.

Lemma elem_of_sorted_ranks (s : gset Z) x : x ∈ sorted_ranks s ↔ x ∈ s.
Proof.
  unfold sorted_ranks. rewrite (merge_sort_Permutation Z.le (elements s)).
  apply elem_of_elements.
Qed.

Lemma elem_of_target_ranks total k step x :
  x ∈ target_ranks total k step ↔ x = total ∨ ∃ i, 0 ≤ i < k ∧ x = 1 + i * step.
Proof. unfold target_ranks. by rewrite elem_of_sorted_ranks, elem_of_rank_set. Qed.

Lemma strictly_sorted_of_NoDup (l : list Z) :
  StronglySorted Z.le l → NoDup l → StronglySorted Z.lt l.
Proof.
  induction 1 as [|x l Hs IH Hx]; intros Hnd; [constructor|].
  apply NoDup_cons in Hnd as [Hxl Hnd]. constructor; [by apply IH|].
  rewrite Forall_forall in Hx |- *. intros y Hy. specialize (Hx y Hy).
  assert (x ≠ y) by (intros ->; done). lia.
Qed.

(** Sorted ascending and deduplicated. *)
Lemma sorted_ranks_strict (s : gset Z) : StronglySorted Z.lt (sorted_ranks s).
Proof.
  apply strictly_sorted_of_NoDup.
  - apply (StronglySorted_merge_sort Z.le).
  - unfold sorted_ranks. rewrite (merge_sort_Permutation Z.le (elements s)).
    apply NoDup_elements.
Qed.

Lemma length_sorted_ranks (s : gset Z) : length (sorted_ranks s) = size s.
Proof.
  unfold sorted_ranks. by rewrite (merge_sort_Permutation Z.le (elements s)).
Qed.

Lemma size_union_le (X Y : gset Z) : (size (X ∪ Y) ≤ size X + size Y)%nat.
Proof.
  rewrite size_union_alt.
  assert (size (Y ∖ X) ≤ size Y)%nat by (by apply subseteq_size, subseteq_difference_l).
  lia.
Qed.

Lemma size_list_to_set_le (l : list Z) :
  (size (list_to_set l : gset Z) ≤ length l)%nat.
Proof.
  induction l as [|x l IH].
  - change (size (∅ : gset Z) ≤ 0)%nat. by rewrite size_empty.
  - change (size ({[x]} ∪ list_to_set l : gset Z) ≤ S (length l))%nat.
    pose proof (size_union_le {[x]} (list_to_set l)) as H.
    rewrite size_singleton in H. lia.
Qed.

Lemma length_target_ranks total k step :
  (length (target_ranks total k step) ≤ Z.to_nat k + 1)%nat.
Proof.
  unfold target_ranks, rank_set. rewrite length_sorted_ranks.
  pose proof (size_union_le (list_to_set ((fun i => 1 + i * step) <$> range k)) {[total]}) as H.
  pose proof (size_list_to_set_le ((fun i => 1 + i * step) <$> range k)) as H'.
  rewrite size_singleton in H. unfold range in H' at 2.
  rewrite !length_fmap, length_seq in H'. lia.
Qed.

End target_ranks_facts.

(** ** Runs of the sampler and of the generator *)

Lemma bind_run {A B} (m : M A) (f : A → M B) tr :
  (m ≫= f) tr = match m tr with
                | (tr', inl e) => (tr', inl e)
                | (tr', inr a) => f a tr'
                end.
Proof. reflexivity. Qed.

Lemma fetch_pk_boundaries_empty conn table pk_cols k dbtype tr :
  table_rows conn = [] →
  fetch_pk_boundaries conn table pk_cols k dbtype tr = (tr ++ [QCount], inr []).
Proof. intros H. unfold fetch_pk_boundaries. rewrite H. reflexivity. Qed.

Lemma fetch_pk_boundaries_ranked conn table pk_cols k dbtype tr step :
  table_rows conn ≠ [] →
  stride (Z.of_nat (length (table_rows conn))) k = inr step →
  fetch_pk_boundaries conn table pk_cols k dbtype tr
  = (tr ++ [QCount; QRanked (target_ranks (Z.of_nat (length (table_rows conn))) k step)],
     inr (ranked_select (table_rows conn)
            (target_ranks (Z.of_nat (length (table_rows conn))) k step))).
Proof.
  intros Hne Hs. unfold fetch_pk_boundaries. rewrite bind_run.
  unfold execute at 1.
  rewrite (proj2 (Z.eqb_neq (Z.of_nat (length (table_rows conn))) 0))
    by (destruct (table_rows conn); [done | simpl; lia]).
  rewrite bind_run. unfold lift_exn. rewrite Hs. rewrite bind_run.
  unfold execute, ret. by rewrite <- app_assoc.
Qed.

(** Resolving the key columns sends catalog queries only. *)
Lemma resolve_pk_columns_trace drv conn dbtype t_spec tr tr' res :
  resolve_pk_columns drv conn dbtype t_spec tr = (tr', res) →
  ∃ qs, tr' = tr ++ qs ∧ Forall (fun q => is_sampling_query q = false) qs.
Proof.
  unfold resolve_pk_columns.
  destruct (String.eqb dbtype "pg"); [|destruct (String.eqb dbtype "ora")].
  - destruct (psycopg2 drv).
    + unfold get_pk_columns_pg. rewrite bind_run. unfold execute at 1.
      destruct (pg_conkey conn) as [[|k0 conkey]|].
      * intros [= <- _]. exists [QPgConstraint]. by repeat constructor.
      * rewrite bind_run. unfold execute, ret. intros [= <- _].
        exists [QPgConstraint; QPgAttribute]. rewrite <- app_assoc. by repeat constructor.
      * intros [= <- _]. exists [QPgConstraint]. by repeat constructor.
    + intros [= <- _]. exists []. by rewrite app_nil_r.
  - destruct (cx_Oracle drv).
    + unfold get_pk_columns_ora. rewrite bind_run. unfold execute, ret.
      intros [= <- _]. exists [QOraConstraints]. by repeat constructor.
    + intros [= <- _]. exists []. by rewrite app_nil_r.
  - intros [= <- _]. exists []. by rewrite app_nil_r.
Qed.

Lemma generate_slice_sql_run drv conn dbtype table k tr tr' pk_cols :
  resolve_pk_columns drv conn dbtype (parse_table table) tr = (tr', inr pk_cols) →
  generate_slice_sql py_eq drv conn dbtype table k tr
  = if bool_decide (pk_cols = []) then (tr', inl (RuntimeError "Primary key not found"))
    else
      match fetch_pk_boundaries conn (parse_table table) pk_cols k dbtype tr' with
      | (tr'', inl e) => (tr'', inl e)
      | (tr'', inr boundaries) =>
          if bool_decide (boundaries = []) then (tr'', inr [])
          else
            match slice_conditions py_eq pk_cols boundaries with
            | Some conds => (tr'', inr (select_stmt (qualified (parse_table table)) <$> conds))
            | None => (tr'', inl IndexError)
            end
      end.
Proof.
  intros Hr. unfold generate_slice_sql. cbv zeta. rewrite bind_run, Hr.
  case_bool_decide; [done|]. rewrite bind_run.
  destruct (fetch_pk_boundaries _ _ _ _ _ _) as [tr'' [e|boundaries]]; [done|].
  case_bool_decide; [done|]. rewrite bind_run.
  by destruct (slice_conditions py_eq pk_cols boundaries).
Qed.

(** ** Substrings of the emitted text *)

Lemma append_cons c (a b : string) : String c a +:+ b = String c (a +:+ b).
Proof. reflexivity. Qed.

Lemma append_nil_l (b : string) : EmptyString +:+ b = b.
Proof. reflexivity. Qed.

Lemma prefix_append (w b : string) : String.prefix w (w +:+ b) = true.
Proof.
  induction w as [|c w IH]; [rewrite append_nil_l; by destruct b|].
  rewrite append_cons. simpl. destruct (ascii_dec c c); done.
Qed.

Lemma contains_prefix (w s : string) : String.prefix w s = true → contains w s = true.
Proof.
  intros H. destruct s.
  - change (String.prefix w EmptyString || false = true). by rewrite H.
  - change (String.prefix w (String a s) || contains w s = true). by rewrite H.
Qed.

Lemma contains_of_substring (w s : string) : is_substring w s → contains w s = true.
Proof.
  intros (a & b & ->). induction a as [|c a IH].
  - rewrite append_nil_l. apply contains_prefix, prefix_append.
  - rewrite append_cons.
    change (String.prefix w (String c (a +:+ w +:+ b)) || contains w (a +:+ w +:+ b) = true).
    rewrite IH. apply orb_true_r.
Qed.

Lemma not_substring_of_contains (w s : string) : contains w s = false → ¬ is_substring w s.
Proof. intros H Hs. apply contains_of_substring in Hs. congruence. Qed.

Lemma substring_cons c (w s : string) : is_substring w s → is_substring w (String c s).
Proof. intros (a & b & ->). by exists (String c a), b. Qed.

Lemma substring_empty (w : string) : is_substring w EmptyString → w = EmptyString.
Proof.
  intros (a & b & H). destruct a; [|done]. rewrite append_nil_l in H. by destruct w.
Qed.

Ltac norm_append H :=
  repeat (rewrite append_cons in H || rewrite append_nil_l in H).

(** A word without blanks that starts a text with a blank in it ends
    before the blank. *)
Lemma no_space_prefix (w y a b : string) :
  no_space w = true → w +:+ y = a +:+ " " +:+ b → ∃ a2, a = w +:+ a2.
Proof.
  revert a. induction w as [|c w IH]; intros a Hw H; [by exists a|].
  simpl in Hw. apply andb_prop in Hw as [Hc Hw].
  destruct a as [|d a]; norm_append H.
  - injection H as -> _. done.
  - injection H as -> H.
    destruct (IH a Hw H) as [a2 ->]. by exists a2.
Qed.

(** Such a word occurring in [a ++ " " ++ b] occurs in [a] or in [b]. *)
Lemma substring_space_split (w a b : string) :
  no_space w = true → is_substring w (a +:+ " " +:+ b) →
  is_substring w a ∨ is_substring w b.
Proof.
  intros Hw (x & y & H). revert x H. induction a as [|c a IH]; intros x H.
  - destruct x as [|d x]; [destruct w as [|e w]|]; norm_append H.
    + left. by exists EmptyString, EmptyString.
    + injection H as <- _. done.
    + injection H as _ H. right. exists x, y. done.
  - destruct x as [|d x].
    + rewrite append_nil_l in H. symmetry in H.
      destruct (no_space_prefix w y (String c a) b Hw H) as [a2 ->].
      left. by exists EmptyString, a2.
    + norm_append H. injection H as _ H.
      destruct (IH x H) as [Ha|Hb]; [left; by apply substring_cons | by right].
Qed.

Lemma foreign_word_spec (w : string) :
  foreign_word w = true →
  no_space w = true ∧ w ≠ EmptyString ∧ ¬ is_substring w "AND"
  ∧ ∀ op, ¬ is_substring w (op_text op).
Proof.
  unfold foreign_word. rewrite !andb_true_iff, forallb_forall.
  intros [[Hs Ha] Ho]. split; [done|]. split; [by intros ->|]. split.
  - apply not_substring_of_contains. by destruct (contains w "AND").
  - intros op. apply not_substring_of_contains.
    specialize (Ho op). destruct (contains w (op_text op)); [|done].
    exfalso. enough (negb true = true) by done. apply Ho.
    destruct op; simpl; repeat ((left; reflexivity) || right).
Qed.

Lemma substring_render_atom (w : string) (a : atom) :
  foreign_word w = true → is_substring w (render_atom a) →
  is_substring w (a_col a) ∨ is_substring w (a_lit a).
Proof.
  intros (Hs & _ & _ & Hop)%foreign_word_spec H. unfold render_atom in H.
  apply (substring_space_split w _ _ Hs) in H as [H|H]; [by left|].
  apply (substring_space_split w _ _ Hs) in H as [H|H]; [by apply Hop in H|by right].
Qed.

Lemma substring_render_pred (w : string) (p : list atom) :
  foreign_word w = true → is_substring w (render_pred p) →
  ∃ a, a ∈ p ∧ (is_substring w (a_col a) ∨ is_substring w (a_lit a)).
Proof.
  intros Hw. pose proof (foreign_word_spec w Hw) as (Hs & Hne & Hand & _).
  induction p as [|a p IH]; intros H.
  - by apply substring_empty in H.
  - destruct p as [|b p].
    + exists a. split; [left|]. by apply substring_render_atom.
    + rewrite render_pred_cons in H by done.
      change (" AND " +:+ render_pred (b :: p))
        with (" " +:+ "AND" +:+ " " +:+ render_pred (b :: p)) in H.
      apply (substring_space_split w _ _ Hs) in H as [H|H].
      * exists a. split; [left|]. by apply substring_render_atom.
      * change ("AND" +:+ " " +:+ render_pred (b :: p))
          with ("AND" +:+ (" " +:+ render_pred (b :: p))) in H.
        apply (substring_space_split w _ _ Hs) in H as [H|H]; [done|].
        destruct (IH H) as (a' & Ha' & Hsub). exists a'. split; [by right|done].
Qed.

(** ** Where the comparisons of a run come from *)

Lemma ge_segments_atoms cols bounds segs seg a :
  ge_segments cols bounds = Some segs → seg ∈ segs → a ∈ seg →
  a_col a ∈ cols ∧ a_lit a ∈ fmt_literal <$> bounds.
Proof.
  revert bounds segs seg. induction cols as [|c cols IH]; intros bounds segs seg; [simpl; done|].
  destruct bounds as [|b0 bounds]; [by destruct cols|].
  destruct cols as [|c' cols].
  - simpl. intros [= <-] ->%list_elem_of_singleton ->%list_elem_of_singleton.
    simpl. split; left.
  - rewrite ge_segments_cons. cbn [lookup list_lookup mbind option_bind drop]. rewrite drop_0.
    destruct (ge_segments (c' :: cols) bounds) as [subs|] eqn:E; [|done].
    cbn [mbind option_bind]. intros [= <-]. fold_fmap.
    intros [(sub & -> & Hsub)%list_elem_of_fmap | ->%list_elem_of_singleton]%elem_of_app.
    + intros [-> |Ha]%elem_of_cons; [simpl; split; left|].
      destruct (IH bounds subs sub E Hsub Ha). split; by right.
    + intros ->%list_elem_of_singleton. simpl. split; left.
Qed.

Lemma le_segments_atoms cols bounds inclusive segs seg a :
  le_segments cols bounds inclusive = Some segs → seg ∈ segs → a ∈ seg →
  a_col a ∈ cols ∧ a_lit a ∈ fmt_literal <$> bounds.
Proof.
  revert bounds segs seg. induction cols as [|c cols IH]; intros bounds segs seg; [simpl; done|].
  destruct bounds as [|b0 bounds]; [by destruct cols|].
  destruct cols as [|c' cols].
  - simpl. intros [= <-] ->%list_elem_of_singleton ->%list_elem_of_singleton.
    simpl. split; left.
  - rewrite le_segments_cons. cbn [lookup list_lookup mbind option_bind drop]. rewrite drop_0.
    destruct (le_segments (c' :: cols) bounds inclusive) as [subs|] eqn:E; [|done].
    cbn [mbind option_bind app]. intros [= <-]. fold_fmap.
    intros [-> | (sub & -> & Hsub)%list_elem_of_fmap]%elem_of_cons.
    + intros ->%list_elem_of_singleton. simpl. split; left.
    + intros [-> |Ha]%elem_of_cons; [simpl; split; left|].
      destruct (IH bounds subs sub E Hsub Ha). split; by right.
Qed.

Lemma composite_preds_atoms cols left right is_last ps p a :
  composite_preds py_eq cols left right is_last = Some ps → p ∈ ps → a ∈ p →
  a_col a ∈ cols ∧ (a_lit a ∈ fmt_literal <$> left ∨ a_lit a ∈ fmt_literal <$> right).
Proof.
  revert left right ps p. induction cols as [|c0 cols IH]; intros left right ps p; [simpl; done|].
  destruct left as [|l0 lt]; [by destruct cols|].
  destruct right as [|r0 rt]; [by destruct cols|].
  destruct cols as [|c1 cols].
  - simpl. intros [= <-] ->%list_elem_of_singleton.
    intros [-> | ->%list_elem_of_singleton]%elem_of_cons; simpl;
      (split; [left|]); [left|right]; left.
  - rewrite composite_preds_cons.
    cbn [lookup list_lookup mbind option_bind drop]. rewrite !drop_0.
    destruct (py_eq l0 r0) eqn:Heq.
    + destruct (composite_preds py_eq (c1 :: cols) lt rt is_last) as [tps|] eqn:E; [|done].
      cbn [mbind option_bind]. intros [= <-]. fold_fmap.
      intros (q & -> & Hq)%list_elem_of_fmap.
      intros [-> |Ha]%elem_of_cons; [simpl; split; [left|left; left]|].
      destruct (IH lt rt tps q E Hq Ha) as [Hc [Hv|Hv]];
        (split; [by right|]); [left|right]; by right.
    + destruct (ge_segments (c1 :: cols) lt) as [lower|] eqn:Elo; [|done].
      destruct (le_segments (c1 :: cols) rt is_last) as [upper|] eqn:Eup; [|done].
      cbn [mbind option_bind]. intros [= <-]. fold_fmap.
      intros [(q & -> & Hq)%list_elem_of_fmap | Hp]%elem_of_app.
      * intros [-> |Ha]%elem_of_cons; [simpl; split; [left|left; left]|].
        destruct (ge_segments_atoms _ _ _ _ _ Elo Hq Ha) as [Hc Hv].
        split; [by right|]. left. by right.
      * apply elem_of_cons in Hp as [-> | (q & -> & Hq)%list_elem_of_fmap].
        -- intros [-> | ->%list_elem_of_singleton]%elem_of_cons; simpl;
             (split; [left|]); [left|right]; left.
        -- intros [-> |Ha]%elem_of_cons; [simpl; split; [left|right; left]|].
           destruct (le_segments_atoms _ _ _ _ _ _ Eup Hq Ha) as [Hc Hv].
           split; [by right|]. right. by right.
Qed.

Lemma elem_of_fold_dedup_step acc l x :
  x ∈ fold_left (dedup_step py_eq) l acc → x ∈ acc ∨ x ∈ l.
Proof.
  revert acc. induction l as [|b l IH]; intros acc; simpl; [by left|].
  intros [Hx|Hx]%IH; [|right; by right].
  unfold dedup_step in Hx. destruct (last acc) as [d|]; [destruct (py_eq b d)|]; simpl in Hx;
    try apply elem_of_app in Hx as [Hx| ->%list_elem_of_singleton];
    (by left) || (right; left).
Qed.

Lemma elem_of_closed_dedup bounds x :
  x ∈ close_single (dedup_adjacent py_eq bounds) → x ∈ bounds.
Proof.
  intros Hx.
  assert (x ∈ dedup_adjacent py_eq bounds) as Hd.
  { destruct (dedup_adjacent py_eq bounds) as [|d0 [|d1 l]]; simpl in Hx; [done| |done].
    apply elem_of_cons in Hx as [-> |Hx]; [left|done]. }
  apply elem_of_fold_dedup_step in Hd as [Hd|Hd]; [by apply elem_of_nil in Hd|done].
Qed.

Lemma single_preds_atoms col bounds p a :
  p ∈ single_preds py_eq col bounds → a ∈ p →
  a_col a = col ∧ a_lit a ∈ fmt_literal <$> bounds.
Proof.
  rewrite single_preds_consecutive.
  intros ([[lo hi] closed] & -> & [Hlo Hhi]%elem_of_consecutive)%list_elem_of_fmap.
  apply elem_of_closed_dedup in Hlo, Hhi. simpl.
  intros [-> | ->%list_elem_of_singleton]%elem_of_cons;
    (split; [done|]); apply list_elem_of_fmap; eauto.
Qed.

Lemma elem_of_concat {A} (x : A) (ls : list (list A)) :
  x ∈ concat ls → ∃ l, x ∈ l ∧ l ∈ ls.
Proof.
  induction ls as [|l ls IH]; simpl; [by intros ?%elem_of_nil|].
  intros [Hx|Hx]%elem_of_app.
  - exists l. split; [done|left].
  - destruct (IH Hx) as (l' & Hl' & Hin). exists l'. split; [done|by right].
Qed.

Lemma slice_preds_atoms pk_cols boundaries ps p a :
  slice_preds py_eq pk_cols boundaries = Some ps → p ∈ ps → a ∈ p →
  a_col a ∈ pk_cols ∧ ∃ b v, b ∈ boundaries ∧ v ∈ b ∧ a_lit a = fmt_literal v.
Proof.
  unfold slice_preds. case_bool_decide as H1.
  - destruct (pk_cols !! 0) as [c0|] eqn:Ec; [|done]. cbn [mbind option_bind].
    destruct (mapM _ boundaries) as [firsts|] eqn:Em; [|done]. cbn [mbind option_bind].
    intros [= <-] Hp Ha.
    destruct (single_preds_atoms c0 firsts p a Hp Ha) as [-> Hv].
    split; [by eapply list_elem_of_lookup_2|].
    apply list_elem_of_fmap in Hv as (v & Hlit & Hv).
    apply mapM_Some_1 in Em. apply list_elem_of_lookup_1 in Hv as [i Hi].
    destruct (Forall2_lookup_r _ _ _ _ _ Em Hi) as (b & Hb & Hb0).
    exists b, v. split; [by eapply list_elem_of_lookup_2|].
    split; [by eapply list_elem_of_lookup_2|done].
  - rewrite composite_bounds_consecutive. cbn [mbind option_bind].
    destruct (mapM _ (consecutive boundaries)) as [pss|] eqn:Em; [|done].
    cbn [mbind option_bind]. intros [= <-] Hp Ha.
    apply elem_of_concat in Hp as (qs & Hp & Hqs).
    apply mapM_Some_1 in Em. apply list_elem_of_lookup_1 in Hqs as [i Hi].
    destruct (Forall2_lookup_r _ _ _ _ _ Em Hi) as ([[lo hi] closed] & Hiv & Hc).
    apply list_elem_of_lookup_2, elem_of_consecutive in Hiv as [Hlo Hhi].
    destruct (composite_preds_atoms _ _ _ _ _ _ _ Hc Hp Ha)
      as [Hcol [(v & Hlit & Hv)%list_elem_of_fmap | (v & Hlit & Hv)%list_elem_of_fmap]];
      (split; [done|]); [exists lo, v | exists hi, v]; done.
Qed.

(** ** Sampled boundaries of a table in key order *)

Lemma sublist_Forall {A} (P : A → Prop) (l k : list A) :
  l `sublist_of` k → Forall P k → Forall P l.
Proof.
  induction 1 as [|x l k _ IH|x l k _ IH]; intros H; [done| |].
  - apply Forall_cons in H as [Hx H]. constructor; [done|by apply IH].
  - apply Forall_cons in H as [_ H]. by apply IH.
Qed.


Section sorted_tables.
Context (vcmp : value → value → comparison) `{!TotalCompare vcmp}.

Lemma strictly_increasing_sorted bs :
  strictly_increasing vcmp bs = true ↔ StronglySorted (key_lt vcmp) bs.
Proof.
  induction bs as [|x bs IH]; [split; [constructor|done]|].
  destruct bs as [|y bs]; [split; [by repeat constructor|done]|].
  rewrite strictly_increasing_cons, IH. split.
  - intros [Hxy Hs]. constructor; [done|].
    apply StronglySorted_inv in Hs as Hy. destruct Hy as [_ Hy].
    constructor; [done|]. eapply Forall_impl; [exact Hy|]. intros z Hz.
    by apply (lex_compare_trans vcmp x y z).
  - intros [Hs Hx]%StronglySorted_inv. apply Forall_cons in Hx as [Hxy _]. done.
Qed.





End sorted_tables.

(** ** The ranked query *)

Lemma snd_numbered {A} (g : nat → Z) (rows : list A) :
  snd <$> imap (fun i r => (g i, r)) rows = rows.
Proof.
  revert g. induction rows as [|r rows IH]; intros g; [done|].
  simpl. f_equal. apply (IH (g ∘ S)).
Qed.

Lemma ranked_select_sublist rows rns : ranked_select rows rns `sublist_of` rows.
Proof.
  unfold ranked_select.
  rewrite <- (snd_numbered (fun i => (Z.of_nat i + 1)%Z) rows) at 2.
  apply fmap_sublist, sublist_filter.
Qed.

Lemma ranked_select_head r1 rows rns :
  1%Z ∈ rns → head (ranked_select (r1 :: rows) rns) = Some r1.
Proof.
  intros H. unfold ranked_select. simpl. rewrite filter_cons, decide_True by done. done.
Qed.

Lemma ranked_select_last init rn rns :
  Z.of_nat (length (init ++ [rn])) ∈ rns →
  last (ranked_select (init ++ [rn]) rns) = Some rn.
Proof.
  intros H. unfold ranked_select. rewrite imap_app, filter_app, fmap_app. simpl.
  rewrite filter_cons, filter_nil, decide_True.
  - simpl. apply last_snoc.
  - simpl. rewrite length_app in H. simpl in H.
    replace (Z.of_nat (length init + 0) + 1)%Z with (Z.of_nat (length init + 1)) by lia.
    done.
Qed.

(** ** Coverage of a whole run *)

Section run_coverage.
Context (vcmp : value → value → comparison) `{!TotalCompare vcmp}.


End run_coverage.

(** ** More on the sampler *)

Lemma filter_all {A} (P : A → Prop) `{!∀ x, Decision (P x)} (l : list A) :
  Forall P l → filter P l = l.
Proof.
  induction 1 as [|x l Hx _ IH]; [done|]. by rewrite filter_cons, decide_True, IH.
Qed.

Lemma filter_none {A} (P : A → Prop) `{!∀ x, Decision (P x)} (l : list A) :
  Forall (fun x => ¬ P x) l → filter P l = [].
Proof.
  induction 1 as [|x l Hx _ IH]; [done|]. by rewrite filter_cons, decide_False.
Qed.

Lemma ranked_select_all rows rns :
  (∀ i : Z, (1 ≤ i ≤ Z.of_nat (length rows))%Z → i ∈ rns) →
  ranked_select rows rns = rows.
Proof.
  intros H. unfold ranked_select.
  rewrite filter_all; [apply snd_numbered|].
  apply Forall_forall. intros [i r] Hin.
  apply elem_of_lookup_imap_1 in Hin as (j & y & [= -> ->] & Hj).
  apply lookup_lt_Some in Hj. simpl. apply H. lia.
Qed.

Lemma ranked_select_length rows rns :
  length (ranked_select rows rns) ≤ length rns.
Proof.
  unfold ranked_select. rewrite length_fmap.
  set (numbered := imap (fun i r => ((Z.of_nat i + 1)%Z, r)) rows).
  rewrite <- (length_fmap fst (filter _ numbered)).
  apply submseteq_length, NoDup_submseteq.
  - apply (sublist_NoDup _ (fst <$> numbered)); [|apply fmap_sublist, sublist_filter].
    unfold numbered. rewrite fmap_imap.
    rewrite (imap_ext _ (fun j _ => (Z.of_nat j + 1)%Z)) by done.
    rewrite (imap_seq_0 rows (fun j => (Z.of_nat j + 1)%Z)).
    apply NoDup_fmap_2; [|apply NoDup_seq]. intros a b ?. lia.
  - intros x (p & -> & Hp)%list_elem_of_fmap.
    by apply list_elem_of_filter in Hp as [Hp _].
Qed.

Lemma ranked_select_only_last init rn :
  ranked_select (init ++ [rn]) [Z.of_nat (length (init ++ [rn]))] = [rn].
Proof.
  unfold ranked_select. rewrite imap_app, filter_app, fmap_app. simpl.
  rewrite length_app. simpl.
  rewrite filter_none.
  - rewrite filter_cons, filter_nil, decide_True; [done|].
    simpl. apply list_elem_of_singleton. lia.
  - apply Forall_forall. intros [i r] Hin.
    apply elem_of_lookup_imap_1 in Hin as (j & y & [= -> ->] & Hj).
    apply lookup_lt_Some in Hj. simpl. rewrite list_elem_of_singleton. lia.
Qed.

Section stride_edges.
Local Open Scope Z_scope.

Lemma round_div_nonneg num den : 0 ≤ num → 0 < den → 0 ≤ round_div num den.
Proof.
  intros Hn Hd. pose proof (round_div_bounds num den) as [H _].
  assert (0 ≤ num / den) by (by apply Z.div_pos). lia.
Qed.

Lemma ceil_div_one n k : 0 < n → n ≤ k → ceil_div n k = 1.
Proof. intros Hn Hk. apply ceil_div_unique; lia. Qed.

Lemma round_quotient_mant_nonneg a b :
  0 < a → 0 < b → 0 ≤ mant (round_quotient a b).
Proof.
  intros Ha Hb. unfold round_quotient. cbn [mant].
  destruct (0 <=? _) eqn:He.
  - apply round_div_nonneg; [lia|]. apply Z.leb_le in He.
    apply Z.mul_pos_pos; [done|]. by apply Z.pow_pos_nonneg.
  - apply Z.leb_gt in He. apply round_div_nonneg; [|done].
    apply Z.mul_nonneg_nonneg; [lia|]. apply Z.pow_nonneg. lia.
Qed.

Lemma math_ceil_nonpos m e : m ≤ 0 → math_ceil (Float m e) ≤ 0.
Proof.
  intros Hm. unfold math_ceil. cbn [mant expo]. destruct (0 <=? e) eqn:He.
  - apply Z.leb_le in He. apply Z.mul_nonpos_nonneg; [done|]. apply Z.pow_nonneg. lia.
  - apply Z.leb_gt in He.
    assert (0 ≤ - m / 2 ^ (- e)); [|lia].
    apply Z.div_pos; [lia|]. apply Z.pow_pos_nonneg; lia.
Qed.

(** A negative slice count gives stride 1. *)
Lemma stride_negative n k :
  0 < n → n < 2 ^ 53 → k < 0 → stride n k = inr 1.
Proof.
  intros Hn Hn53 Hk.
  pose proof (stride_exact n (- k) Hn Hn53 ltac:(lia)) as Hpos.
  unfold stride, int_true_divide in *.
  rewrite (proj2 (Z.eqb_neq k 0)) by lia.
  rewrite (proj2 (Z.eqb_neq (- k) 0)) in Hpos by lia.
  rewrite (proj2 (Z.eqb_neq n 0)) in Hpos |- * by lia.
  rewrite Z.abs_opp in Hpos.
  pose proof (round_quotient_mant_nonneg (Z.abs n) (Z.abs k) ltac:(lia) ltac:(lia)) as Hm.
  destruct (2 ^ 1024 <=? _); [done|]. clear Hpos.
  rewrite (Z.sgn_pos n), (Z.sgn_neg k) by lia. f_equal.
  pose proof (math_ceil_nonpos (1 * -1 * mant (round_quotient (Z.abs n) (Z.abs k)))
                (expo (round_quotient (Z.abs n) (Z.abs k))) ltac:(lia)).
  lia.
Qed.

Lemma stride_zero_slices n : stride n 0 = inl ZeroDivisionError.
Proof. reflexivity. Qed.

End stride_edges.

Lemma target_ranks_negative total k step :
  (k ≤ 0)%Z → target_ranks total k step = [total].
Proof.
  intros Hk. unfold target_ranks, rank_set, range, sorted_ranks.
  replace (Z.to_nat k) with 0 by lia. simpl.
  rewrite (left_id_L ∅ (∪)). by rewrite elements_singleton.
Qed.

Lemma fetch_pk_boundaries_raise conn table pk_cols k dbtype tr e :
  table_rows conn ≠ [] →
  stride (Z.of_nat (length (table_rows conn))) k = inl e →
  fetch_pk_boundaries conn table pk_cols k dbtype tr = (tr ++ [QCount], inl e).
Proof.
  intros Hne Hs. unfold fetch_pk_boundaries. rewrite bind_run.
  unfold execute at 1.
  rewrite (proj2 (Z.eqb_neq (Z.of_nat (length (table_rows conn))) 0))
    by (destruct (table_rows conn); [done | simpl; lia]).
  rewrite bind_run. unfold lift_exn. by rewrite Hs.
Qed.

(** What a run of the sampler can be. *)
Lemma fetch_pk_boundaries_cases conn table pk_cols k dbtype tr :
  (table_rows conn = []
   ∧ fetch_pk_boundaries conn table pk_cols k dbtype tr = (tr ++ [QCount], inr []))
  ∨ (∃ e, table_rows conn ≠ []
          ∧ stride (Z.of_nat (length (table_rows conn))) k = inl e
          ∧ fetch_pk_boundaries conn table pk_cols k dbtype tr = (tr ++ [QCount], inl e))
  ∨ (∃ step, table_rows conn ≠ []
             ∧ stride (Z.of_nat (length (table_rows conn))) k = inr step
             ∧ fetch_pk_boundaries conn table pk_cols k dbtype tr
               = (tr ++ [QCount;
                         QRanked (target_ranks (Z.of_nat (length (table_rows conn))) k step)],
                  inr (ranked_select (table_rows conn)
                         (target_ranks (Z.of_nat (length (table_rows conn))) k step)))).
Proof.
  destruct (decide (table_rows conn = [])) as [He|Hne].
  - left. split; [done|]. by apply fetch_pk_boundaries_empty.
  - right. destruct (stride (Z.of_nat (length (table_rows conn))) k) as [e|step] eqn:Hs.
    + left. exists e. split; [done|]. split; [done|]. by apply fetch_pk_boundaries_raise.
    + right. exists step. split; [done|]. split; [done|].
      by apply fetch_pk_boundaries_ranked.
Qed.

(** ** More on the single-column slicer and on runs *)

Lemma stride_errors n k e :
  stride n k = inl e → e = ZeroDivisionError ∨ e = OverflowError.
Proof.
  unfold stride, int_true_divide. repeat case_match; intros [= <-]; simplify_eq; auto.
Qed.

Lemma length_consecutive {A} (l : list A) : length (consecutive l) = length l - 1.
Proof.
  induction l as [|x l IH]; [done|]. destruct l as [|y l]; [done|].
  rewrite consecutive_cons. cbn [length]. rewrite IH. simpl. lia.
Qed.

Lemma length_fold_dedup_step acc l :
  length acc ≤ length (fold_left (dedup_step py_eq) l acc)
  ∧ length (fold_left (dedup_step py_eq) l acc) ≤ length acc + length l.
Proof.
  revert acc. induction l as [|b l IH]; intros acc; simpl; [lia|].
  destruct (IH (dedup_step py_eq acc b)) as [H1 H2].
  assert (length acc ≤ length (dedup_step py_eq acc b) ≤ S (length acc)) as Hs.
  { unfold dedup_step. destruct (last acc) as [d|]; [destruct (py_eq b d)|];
      simpl; rewrite ?length_app; simpl; lia. }
  lia.
Qed.

Lemma length_dedup_adjacent bounds :
  length (dedup_adjacent py_eq bounds) ≤ length bounds
  ∧ (bounds ≠ [] → 1 ≤ length (dedup_adjacent py_eq bounds)).
Proof.
  unfold dedup_adjacent. split.
  - destruct (length_fold_dedup_step [] bounds) as [_ H]. simpl in H. lia.
  - destruct bounds as [|b l]; [done|]. intros _. simpl.
    destruct (length_fold_dedup_step (dedup_step py_eq [] b) l) as [H _]. simpl in H. lia.
Qed.

Lemma length_make_single_pk_slices_from_bounds col bounds :
  length (make_single_pk_slices_from_bounds py_eq col bounds)
  = length (close_single (dedup_adjacent py_eq bounds)) - 1.
Proof.
  rewrite make_single_pk_slices_from_bounds_render, single_preds_consecutive.
  by rewrite !length_fmap, length_consecutive.
Qed.

Lemma length_close_single (dedup : list value) :
  dedup ≠ [] → 2 ≤ length (close_single dedup) ∧ length (close_single dedup) ≤ Nat.max 2 (length dedup).
Proof. destruct dedup as [|? [|? ?]]; simpl; intros; (done || lia). Qed.

(** The first loop leaves no two equal neighbours. *)
Lemma fold_dedup_step_adjacent_distinct acc l :
  adjacent_distinct py_eq acc = true →
  adjacent_distinct py_eq (fold_left (dedup_step py_eq) l acc) = true.
Proof.
  revert acc. induction l as [|b l IH]; intros acc Hacc; simpl; [done|].
  apply IH. unfold dedup_step. destruct (last acc) as [x|] eqn:E.
  - destruct (py_eq b x) eqn:Hb; [done|]. cbn [negb].
    apply last_Some in E as [pre ->]. clear IH.
    induction pre as [|a pre IHp]; simpl.
    + by rewrite Hb.
    + change ((a :: pre) ++ [x]) with (a :: (pre ++ [x])) in Hacc.
      destruct pre as [|a' pre]; simpl in *.
      * apply andb_prop in Hacc as [-> _]. simpl. by rewrite Hb.
      * apply andb_prop in Hacc as [-> Hacc]. simpl. by apply IHp.
  - apply last_None in E as ->. done.
Qed.

Lemma dedup_adjacent_adjacent_distinct bounds :
  adjacent_distinct py_eq (dedup_adjacent py_eq bounds) = true.
Proof. by apply fold_dedup_step_adjacent_distinct. Qed.

(** Duplicates next to each other in the input do not change the output. *)
Lemma dedup_adjacent_idempotent bounds :
  dedup_adjacent py_eq (dedup_adjacent py_eq bounds) = dedup_adjacent py_eq bounds.
Proof. apply dedup_adjacent_distinct, dedup_adjacent_adjacent_distinct. Qed.

Lemma ge_segments_length_le cols bounds segs :
  ge_segments cols bounds = Some segs → length segs ≤ length cols.
Proof.
  revert bounds segs. induction cols as [|c cs IHc]; intros lt lower; [simpl; done|].
  destruct lt as [|b lt]; [by destruct cs|]. destruct cs as [|c' cs].
  - simpl. intros [= <-]. simpl. lia.
  - rewrite ge_segments_cons.
    cbn [lookup list_lookup mbind option_bind drop]. rewrite drop_0.
    destruct (ge_segments (c' :: cs) lt) as [subs|] eqn:E; [|done].
    cbn [mbind option_bind]. intros [= <-]. fold_fmap.
    rewrite length_app, length_fmap. specialize (IHc lt subs E). simpl in *. lia.
Qed.

Lemma le_segments_length_le cols bounds inclusive segs :
  le_segments cols bounds inclusive = Some segs → length segs ≤ length cols.
Proof.
  revert bounds segs. induction cols as [|c cs IHc]; intros rt upper; [simpl; done|].
  destruct rt as [|b rt]; [by destruct cs|]. destruct cs as [|c' cs].
  - simpl. intros [= <-]. simpl. lia.
  - rewrite le_segments_cons.
    cbn [lookup list_lookup mbind option_bind drop]. rewrite drop_0.
    destruct (le_segments (c' :: cs) rt inclusive) as [subs|] eqn:E; [|done].
    cbn [mbind option_bind]. intros [= <-]. fold_fmap.
    rewrite ?length_app; cbn [length]; rewrite ?length_app, ?length_fmap.
    specialize (IHc rt subs E). simpl in *. lia.
Qed.

Lemma composite_preds_length_le cols left right is_last ps :
  composite_preds py_eq cols left right is_last = Some ps →
  length ps ≤ 2 * (length cols - 1) + 1.
Proof.
  revert left right ps. induction cols as [|c0 cols IH]; intros left right ps; [simpl; done|].
  destruct left as [|l0 lt]; [by destruct cols|].
  destruct right as [|r0 rt]; [by destruct cols|].
  destruct cols as [|c1 cols].
  - simpl. intros [= <-]. simpl. lia.
  - rewrite composite_preds_cons.
    cbn [lookup list_lookup mbind option_bind drop]. rewrite !drop_0.
    destruct (py_eq l0 r0) eqn:Heq.
    + destruct (composite_preds py_eq (c1 :: cols) lt rt is_last) as [tps|] eqn:E; [|done].
      cbn [mbind option_bind]. intros [= <-]. fold_fmap. rewrite length_fmap.
      specialize (IH lt rt tps E). simpl in *. lia.
    + destruct (ge_segments (c1 :: cols) lt) as [lower|] eqn:Elo; [|done].
      destruct (le_segments (c1 :: cols) rt is_last) as [upper|] eqn:Eup; [|done].
      cbn [mbind option_bind]. intros [= <-]. fold_fmap.
      rewrite !length_app, !length_fmap. simpl. rewrite ?length_fmap.
      apply ge_segments_length_le in Elo. apply le_segments_length_le in Eup.
      simpl in *. lia.
Qed.

Lemma length_concat_le {A} (n : nat) (ls : list (list A)) :
  Forall (fun l => length l ≤ n) ls → length (concat ls) ≤ length ls * n.
Proof.
  induction 1 as [|l ls Hl _ IH]; [done|]. simpl. rewrite length_app. lia.
Qed.

Lemma slice_conditions_length pk_cols boundaries conds :
  boundaries ≠ [] →
  slice_conditions py_eq pk_cols boundaries = Some conds →
  length conds ≤ Nat.max 1 (length boundaries - 1) * (2 * (length pk_cols - 1) + 1).
Proof.
  intros Hne. unfold slice_conditions. case_bool_decide as H1.
  - destruct (pk_cols !! 0) as [c0|]; [|done]. cbn [mbind option_bind].
    destruct (mapM _ boundaries) as [firsts|] eqn:E; [|done]. cbn [mbind option_bind].
    intros [= <-]. apply length_mapM in E.
    rewrite length_make_single_pk_slices_from_bounds, H1.
    destruct (length_dedup_adjacent firsts) as [Hle Hpos].
    assert (firsts ≠ []) as Hf by (destruct firsts, boundaries; done).
    specialize (Hpos Hf).
    destruct (length_close_single (dedup_adjacent py_eq firsts)) as [_ Hc].
    { intros E'. rewrite E' in Hpos. simpl in Hpos. lia. }
    simpl. lia.
  - rewrite composite_bounds_consecutive. cbn [mbind option_bind].
    destruct (mapM _ (consecutive boundaries)) as [wheres|] eqn:E; [|done].
    cbn [mbind option_bind]. intros [= <-].
    pose proof (length_mapM _ _ _ E) as Hlen. rewrite length_consecutive in Hlen.
    etrans; [apply (length_concat_le (2 * (length pk_cols - 1) + 1))|].
    + apply mapM_Some in E. clear Hlen.
      induction E as [|[[lo hi] is_last] ws ? ? Hw _ IH]; constructor; [|done].
      rewrite build_composite_slice_wheres_render in Hw.
      destruct (composite_preds py_eq pk_cols lo hi is_last) as [ps|] eqn:Eps; [|done].
      injection Hw as <-. unfold render_preds. rewrite length_fmap.
      by apply composite_preds_length_le in Eps.
    + rewrite <- Hlen. apply Nat.mul_le_mono_r. lia.
Qed.

Lemma fetch_pk_boundaries_length conn table pk_cols k dbtype tr tr' bs :
  (1 ≤ k)%Z →
  fetch_pk_boundaries conn table pk_cols k dbtype tr = (tr', inr bs) →
  length bs ≤ Z.to_nat k + 1.
Proof.
  intros Hk Hrun.
  destruct (fetch_pk_boundaries_cases conn table pk_cols k dbtype tr)
    as [[Hrows H] | [(e & _ & _ & H) | (step & Hrows & Hs & H)]];
    rewrite H in Hrun; [| done |]; injection Hrun as _ <-; [simpl; lia|].
  etrans; [apply ranked_select_length|]. apply length_target_ranks.
Qed.

(** ** Runs over boundaries that may repeat *)

Section weak_runs.
Context (vcmp : value → value → comparison) `{!TotalCompare vcmp}.

Lemma key_le_refl x : key_le vcmp x x.
Proof. unfold key_le. by rewrite (cmp_refl (lex_compare vcmp)). Qed.

Lemma key_le_trans x y z : key_le vcmp x y → key_le vcmp y z → key_le vcmp x z.
Proof.
  unfold key_le. intros Hxy Hyz.
  destruct (lex_compare vcmp x y) eqn:E1; [| |done].
  - by apply (lex_compare_eq vcmp) in E1 as ->.
  - destruct (lex_compare vcmp y z) eqn:E2; [| |done].
    + apply (lex_compare_eq vcmp) in E2 as <-. by rewrite E1.
    + by rewrite (lex_compare_trans vcmp x y z).
Qed.

Lemma key_le_total x y : key_le vcmp x y ∨ key_le vcmp y x.
Proof.
  unfold key_le. rewrite (lex_compare_antisym vcmp x y).
  destruct (lex_compare vcmp x y); simpl; [left | left | right]; done.
Qed.

#[global] Instance key_le_Transitive : Transitive (key_le vcmp).
Proof. intros x y z. apply key_le_trans. Qed.

#[global] Instance key_le_Total : Total (key_le vcmp).
Proof. intros x y. apply key_le_total. Qed.









End weak_runs.

Section run_outside.
Context (vcmp : value → value → comparison) `{!TotalCompare vcmp}.



End run_outside.

(** ** Shapes *)

Lemma prefix_range_eq c cols v p :
  prefix_range (c :: cols) (lit_atom c OpEq v :: p) = prefix_range cols p.
Proof. simpl. by rewrite bool_decide_true. Qed.

Lemma ge_segments_shape cols bounds segs :
  ge_segments cols bounds = Some segs →
  Forall (fun p => prefix_range cols p = true) segs.
Proof.
  revert bounds segs. induction cols as [|c cs IH]; intros bounds segs; [simpl; done|].
  destruct bounds as [|b bounds]; [by destruct cs|]. destruct cs as [|c' cs].
  - simpl. intros [= <-]. repeat constructor. simpl. by rewrite bool_decide_true.
  - rewrite ge_segments_cons.
    cbn [lookup list_lookup mbind option_bind drop]. rewrite drop_0.
    destruct (ge_segments (c' :: cs) bounds) as [subs|] eqn:E; [|done].
    cbn [mbind option_bind]. intros [= <-]. fold_fmap.
    apply Forall_app. split.
    + apply Forall_fmap. eapply Forall_impl; [exact (IH bounds subs E)|].
      intros p Hp. unfold compose. by rewrite prefix_range_eq.
    + repeat constructor. simpl. by rewrite bool_decide_true.
Qed.

Lemma le_segments_shape cols bounds inclusive segs :
  le_segments cols bounds inclusive = Some segs →
  Forall (fun p => prefix_range cols p = true) segs.
Proof.
  revert bounds segs. induction cols as [|c cs IH]; intros bounds segs; [simpl; done|].
  destruct bounds as [|b bounds]; [by destruct cs|]. destruct cs as [|c' cs].
  - simpl. intros [= <-]. repeat constructor. simpl. rewrite bool_decide_true by done.
    by destruct inclusive.
  - rewrite le_segments_cons.
    cbn [lookup list_lookup mbind option_bind drop]. rewrite drop_0.
    destruct (le_segments (c' :: cs) bounds inclusive) as [subs|] eqn:E; [|done].
    cbn [mbind option_bind]. intros [= <-]. fold_fmap.
    apply (Forall_app _ [_] _). split.
    + repeat constructor. simpl. by rewrite bool_decide_true.
    + apply Forall_fmap. eapply Forall_impl; [exact (IH bounds subs E)|].
      intros p Hp. unfold compose. by rewrite prefix_range_eq.
Qed.

Lemma composite_preds_shape cols left right is_last ps :
  composite_preds py_eq cols left right is_last = Some ps →
  Forall (fun p => prefix_range cols p = true) ps.
Proof.
  revert left right ps. induction cols as [|c0 cols IH]; intros left right ps; [simpl; done|].
  destruct left as [|l0 lt]; [by destruct cols|].
  destruct right as [|r0 rt]; [by destruct cols|].
  destruct cols as [|c1 cols].
  - simpl. intros [= <-]. repeat constructor. simpl. rewrite !bool_decide_true by done.
    by destruct is_last.
  - rewrite composite_preds_cons.
    cbn [lookup list_lookup mbind option_bind drop]. rewrite !drop_0.
    destruct (py_eq l0 r0) eqn:Heq.
    + destruct (composite_preds py_eq (c1 :: cols) lt rt is_last) as [tps|] eqn:E; [|done].
      cbn [mbind option_bind]. intros [= <-]. fold_fmap.
      apply Forall_fmap. eapply Forall_impl; [exact (IH lt rt tps E)|].
      intros p Hp. unfold compose. by rewrite prefix_range_eq.
    + destruct (ge_segments (c1 :: cols) lt) as [lower|] eqn:Elo; [|done].
      destruct (le_segments (c1 :: cols) rt is_last) as [upper|] eqn:Eup; [|done].
      cbn [mbind option_bind]. intros [= <-]. fold_fmap.
      apply Forall_app. split; [|apply (Forall_app _ [_] _); split].
      * apply Forall_fmap. eapply Forall_impl; [exact (ge_segments_shape _ _ _ Elo)|].
        intros p Hp. unfold compose. by rewrite prefix_range_eq.
      * repeat constructor. simpl. by rewrite !bool_decide_true.
      * apply Forall_fmap. eapply Forall_impl; [exact (le_segments_shape _ _ _ _ Eup)|].
        intros p Hp. unfold compose. by rewrite prefix_range_eq.
Qed.

Lemma slice_preds_shape pk_cols boundaries ps :
  slice_preds py_eq pk_cols boundaries = Some ps →
  Forall (fun p => prefix_range pk_cols p = true) ps.
Proof.
  unfold slice_preds. case_bool_decide as H1.
  - destruct pk_cols as [|c0 [|? ?]]; try done. cbn [lookup list_lookup mbind option_bind].
    destruct (mapM _ boundaries) as [firsts|]; [|done]. cbn [mbind option_bind].
    intros [= <-]. rewrite single_preds_consecutive. apply Forall_fmap, Forall_forall.
    intros [[lo hi] closed] _. simpl. rewrite !bool_decide_true by done. by destruct closed.
  - rewrite composite_bounds_consecutive. cbn [mbind option_bind].
    destruct (mapM _ (consecutive boundaries)) as [pss|] eqn:E; [|done].
    cbn [mbind option_bind]. intros [= <-].
    apply mapM_Some_1 in E. apply Forall_concat.
    induction E as [|[[lo hi] closed] ps' ? ? Hp _ IH]; constructor; [|done].
    by apply composite_preds_shape in Hp.
Qed.

(** ** Table names *)

Lemma split_dot_spec raw :
  match split_dot raw with
  | None => contains "." raw = false
  | Some (a, b) => raw = a +:+ "." +:+ b ∧ contains "." a = false
  end.
Proof.
  induction raw as [|c rest IH]; [done|].
  cbn [split_dot]. destruct (Ascii.eqb c ".") eqn:Ec.
  - apply Ascii.eqb_eq in Ec as ->. done.
  - assert (contains "." (String c rest) = contains "." rest) as Hc.
    { cbn [contains String.prefix]. destruct (ascii_dec "." c) as [<- | _]; [|done].
      by rewrite Ascii.eqb_refl in Ec. }
    destruct (split_dot rest) as [[a b]|]; cbn [mbind option_bind].
    + destruct IH as [-> IH]. split; [done|].
      cbn [contains String.prefix]. destruct (ascii_dec "." c) as [<- | _]; [|done].
      by rewrite Ascii.eqb_refl in Ec.
    + by rewrite Hc.
Qed.

(** ** Literals *)

Lemma unquote_body_double_quotes s :
  unquote_body (double_quotes s +:+ "'") = Some s.
Proof.
  induction s as [|c s IH]; [done|]. cbn [double_quotes].
  destruct (Ascii.eqb c "'") eqn:Ec.
  - apply Ascii.eqb_eq in Ec as ->. rewrite !append_cons.
    cbn [unquote_body]. rewrite !Ascii.eqb_refl, IH. done.
  - rewrite append_cons. cbn [unquote_body]. rewrite Ec, IH. done.
Qed.

Lemma unquote_fmt_literal s : unquote (fmt_literal (VStr s)) = Some s.
Proof.
  unfold fmt_literal. rewrite append_cons, append_nil_l.
  cbn [unquote]. rewrite Ascii.eqb_refl. apply unquote_body_double_quotes.
Qed.

Lemma pretty_N_go_ne_quote x s s' :
  s ≠ String "'" s' → pretty_N_go x s ≠ String "'" s'.
Proof.
  revert s. induction (N.lt_wf_0 x) as [x _ IH]; intros s ?.
  assert (x = 0 ∨ 0 < x)%N as [-> | ?] by lia.
  - by rewrite pretty_N_go_0.
  - rewrite pretty_N_go_step by done. apply IH.
    { by apply N.div_lt. }
    unfold pretty_N_char. by repeat case_match.
Qed.

Lemma pretty_Z_ne_quote (z : Z) s : pretty z ≠ String "'" s.
Proof.
  assert (∀ p : positive, pretty p ≠ String "'" s) as Hp.
  { intros p. unfold pretty, pretty_positive, pretty, pretty_N.
    rewrite decide_False by done. by apply pretty_N_go_ne_quote. }
  destruct z as [|p|p]; [done | apply Hp | done].
Qed.

(** ** Repeated boundaries in the single-column slicer *)

Lemma dedup_step_repeat acc x :
  py_eq x x = true → dedup_step py_eq (dedup_step py_eq acc x) x = dedup_step py_eq acc x.
Proof.
  intros Hx. unfold dedup_step. destruct (last acc) as [l|] eqn:E.
  - destruct (py_eq x l) eqn:Hxl; cbn [negb].
    + by rewrite E, Hxl.
    + by rewrite last_snoc, Hx.
  - by rewrite last_snoc, Hx.
Qed.

Lemma dedup_adjacent_repeat l1 x l2 :
  py_eq x x = true →
  dedup_adjacent py_eq (l1 ++ x :: x :: l2) = dedup_adjacent py_eq (l1 ++ x :: l2).
Proof.
  intros Hx. unfold dedup_adjacent. rewrite !fold_left_app. cbn [fold_left].
  by rewrite dedup_step_repeat.
Qed.

Lemma dedup_adjacent_replicate n v :
  py_eq v v = true → dedup_adjacent py_eq (replicate (S n) v) = [v].
Proof.
  intros Hv. unfold dedup_adjacent. cbn [replicate fold_left].
  change (dedup_step py_eq [] v) with [v].
  induction n as [|n IH]; [done|]. cbn [replicate fold_left].
  change (dedup_step py_eq [v] v) with (if negb (py_eq v v) then [v] ++ [v] else [v]).
  by rewrite Hv.
Qed.

(** A value that is not equal to itself is never dropped. *)
Lemma dedup_adjacent_irreflexive n v :
  py_eq v v = false → dedup_adjacent py_eq (replicate n v) = replicate n v.
Proof.
  intros Hv. apply dedup_adjacent_distinct.
  induction n as [|n IH]; [done|]. destruct n as [|n]; [done|].
  change (adjacent_distinct py_eq (replicate (S (S n)) v))
    with (negb (py_eq v v) && adjacent_distinct py_eq (replicate (S n) v)).
  by rewrite Hv, IH.
Qed.

(** A second value that equals the first for Python is dropped, however it
    is written. *)
Lemma dedup_adjacent_equal_head x y l :
  py_eq y x = true → dedup_adjacent py_eq (x :: y :: l) = dedup_adjacent py_eq (x :: l).
Proof.
  intros Hyx. unfold dedup_adjacent. cbn [fold_left].
  change (dedup_step py_eq [] x) with [x].
  change (dedup_step py_eq [x] y) with (if negb (py_eq y x) then [x] ++ [y] else [x]).
  by rewrite Hyx.
Qed.

(** ** The attribute dictionary of [get_pk_columns_pg] *)

Lemma fold_insert_lookup (attrs : list (Z * string)) (acc : gmap Z string) k :
  (∀ c, fold_left (fun m '(attnum, attname) => <[attnum := attname]> m) attrs acc !! k
        = Some c → (k, c) ∈ attrs ∨ acc !! k = Some c)
  ∧ (k ∈ attrs.*1 ∨ is_Some (acc !! k) →
     is_Some (fold_left (fun m '(attnum, attname) => <[attnum := attname]> m) attrs acc !! k)).
Proof.
  revert acc. induction attrs as [|[a n] attrs IH]; intros acc.
  - simpl. split; [auto|]. intros [H | H]; [|done]. by apply elem_of_nil in H.
  - cbn [fold_left]. destruct (IH (<[a := n]> acc)) as [IH1 IH2]. split.
    + intros c Hc. apply IH1 in Hc as [Hc | Hc]; [left; by right|].
      destruct (decide (a = k)) as [-> | Hne].
      * rewrite lookup_insert_eq in Hc. injection Hc as ->. left. left.
      * rewrite lookup_insert_ne in Hc by done. by right.
    + intros H. apply IH2. rewrite fmap_cons in H. simpl in H.
      destruct (decide (a = k)) as [-> | Hne].
      * right. rewrite lookup_insert_eq. by eexists.
      * destruct H as [H | H].
        -- apply elem_of_cons in H as [H | H]; [congruence | by left].
        -- right. by rewrite lookup_insert_ne.
Qed.

Lemma omap_lookup_attributes (attrs : list (Z * string)) (conkey : list Z) :
  Forall2 (fun k c => (k, c) ∈ attrs)
    (filter (fun k => k ∈ attrs.*1) conkey)
    (omap (fun k => fold_left (fun m '(attnum, attname) => <[attnum := attname]> m)
                      attrs (∅ : gmap Z string) !! k) conkey).
Proof.
  induction conkey as [|k conkey IH]; [constructor|].
  cbn [omap list_omap]. rewrite filter_cons.
  destruct (fold_insert_lookup attrs ∅ k) as [H1 H2].
  destruct (fold_left _ attrs ∅ !! k) as [c|] eqn:E.
  - destruct (H1 c eq_refl) as [Hin | Hin]; [|by rewrite lookup_empty in Hin].
    rewrite decide_True.
    + constructor; [done | exact IH].
    + apply list_elem_of_fmap. by exists (k, c).
  - rewrite decide_False; [exact IH|].
    intros Hk. destruct H2 as [? H2]; [by left|done].
Qed.

(** ** [chunk_lex] *)

Lemma StronglySorted_lookup {A} (R : relation A) (l : list A) i j x y :
  StronglySorted R l → i < j → l !! i = Some x → l !! j = Some y → R x y.
Proof.
  intros Hs. revert i j. induction Hs as [|a l Hs IH Ha]; intros i j Hij Hi Hj; [done|].
  destruct j as [|j]; [lia|]. destruct i as [|i].
  - simpl in Hi, Hj. injection Hi as <-. rewrite Forall_forall in Ha.
    apply Ha. by eapply list_elem_of_lookup_2.
  - simpl in *. apply (IH i j); [lia | done..].
Qed.

Lemma StronglySorted_of_lookup {A} (R : relation A) (l : list A) :
  (∀ i j x y, i < j → l !! i = Some x → l !! j = Some y → R x y) → StronglySorted R l.
Proof.
  induction l as [|a l IH]; intros H; constructor.
  - apply IH. intros i j x y Hij Hi Hj. apply (H (S i) (S j)); [lia | done..].
  - apply Forall_forall. intros y Hy. apply list_elem_of_lookup_1 in Hy as [j Hj].
    apply (H 0 (S j)); [lia | done..].
Qed.

Lemma stride_pos n k step : stride n k = inr step → (1 ≤ step)%Z.
Proof.
  unfold stride. destruct (int_true_divide n k); [done|]. intros [= <-]. lia.
Qed.

(** The list [starts]: every [step]-th element of [data], from the first
    one on. *)
Lemma chunk_starts {A} (data : list A) (step : Z) :
  (1 ≤ step)%Z →
  ∃ starts,
    mapM (fun i => data !! Z.to_nat i) (range_step (Z.of_nat (length data)) step)
    = Some starts
    ∧ length starts = Z.to_nat ((Z.of_nat (length data) + step - 1) / step)
    ∧ ∀ a x, starts !! a = Some x → data !! (a * Z.to_nat step) = Some x.
Proof.
  intros Hstep. set (n := Z.of_nat (length data)).
  set (cnt := ((n + step - 1) / step)%Z).
  assert (step * cnt ≤ n + step - 1)%Z as Hcnt by (apply Z.mul_div_le; lia).
  destruct (mapM (fun i => data !! Z.to_nat i) (range_step n step)) as [starts|] eqn:E.
  - exists starts. split; [done|]. apply mapM_Some_1 in E.
    pose proof (Forall2_length _ _ _ E) as Hlen.
    unfold range_step, range in Hlen. rewrite !length_fmap, length_seq in Hlen.
    split; [done|]. intros a x Ha.
    destruct (Forall2_lookup_r _ _ _ _ _ E Ha) as (i & Hi & Hx).
    unfold range_step, range in Hi. rewrite !list_lookup_fmap in Hi.
    apply fmap_Some in Hi as (j & Hj & ->). apply fmap_Some in Hj as (a' & Ha' & ->).
    apply lookup_seq in Ha' as [-> _]. rewrite <- Hx. f_equal. lia.
  - exfalso. apply mapM_None_1, Exists_exists in E as (i & Hin & E).
    unfold range_step in Hin. apply list_elem_of_fmap in Hin as (j & -> & Hj).
    apply elem_of_range in Hj. apply lookup_ge_None in E. unfold n in *. nia.
Qed.

Lemma chunk_slices_consecutive {A} (data pre suffix : list A) (mx : A) :
  last data = Some mx → suffix ≠ [] →
  mapM (fun '(idx, lo) =>
          if bool_decide (idx + 1 < length (pre ++ suffix)) then
            hi ← (pre ++ suffix) !! (idx + 1); Some (lo, hi, false)
          else hi ← last data; Some (lo, hi, true))
       (imap (fun i => pair (length pre + i)) suffix)
  = Some (consecutive (suffix ++ [mx])).
Proof.
  intros Hmx. revert pre. induction suffix as [|x suffix IH]; intros pre Hne; [done|].
  cbn [imap mapM]. rewrite Nat.add_0_r.
  destruct suffix as [|y suffix].
  - rewrite bool_decide_false by (rewrite length_app; simpl; lia).
    rewrite Hmx. done.
  - rewrite bool_decide_true by (rewrite length_app; simpl; lia).
    rewrite lookup_app_r by lia.
    replace (length pre + 1 - length pre) with 1 by lia. cbn [lookup list_lookup].
    cbn [mbind option_bind].
    specialize (IH (pre ++ [x]) ltac:(done)).
    rewrite <- app_assoc in IH. cbn [app] in IH.
    rewrite (imap_ext _ (fun i => pair (length (pre ++ [x]) + i)));
      [|intros i z _; rewrite length_app; simpl; f_equal; lia].
    rewrite IH. cbn [mbind option_bind mret option_ret app].
    rewrite (consecutive_cons x y). by destruct suffix.
Qed.

Section chunk_runs.
Context (comparable : value → value → bool).
Context (vcmp : value → value → comparison) `{!TotalCompare vcmp}.

Lemma merge_sort_sorted (rows : list (list value)) :
  StronglySorted (key_le vcmp) (merge_sort (key_le vcmp) rows).
Proof. apply (StronglySorted_merge_sort (key_le vcmp)). Qed.

Lemma merge_sort_length (rows : list (list value)) :
  length (merge_sort (key_le vcmp) rows) = length rows.
Proof. apply Permutation_length, merge_sort_Permutation. Qed.

Lemma elem_of_merge_sort (rows : list (list value)) x :
  x ∈ merge_sort (key_le vcmp) rows ↔ x ∈ rows.
Proof. by rewrite merge_sort_Permutation. Qed.








(** What [chunk_lex] returns once the list is sorted and the stride is
    computed: nothing for an empty list, else the run over the boundary
    list [starts ++ [mx]], which is sorted, begins with the least tuple and
    ends with the greatest. *)
Lemma chunk_lex_run rows k step :
  py_sorted comparable vcmp rows = inr (merge_sort (key_le vcmp) rows) →
  stride (Z.of_nat (length rows)) k = inr step →
  (rows = [] ∧ chunk_lex comparable vcmp rows k = inr [])
  ∨ ∃ b0 bs mx,
      chunk_lex comparable vcmp rows k = inr (consecutive (b0 :: bs ++ [mx]))
      ∧ StronglySorted (key_le vcmp) (b0 :: bs ++ [mx])
      ∧ Forall (fun b => b ∈ rows) (b0 :: bs ++ [mx])
      ∧ (∀ x, x ∈ rows → key_le vcmp b0 x ∧ key_le vcmp x mx)
      ∧ S (length bs) = Z.to_nat ((Z.of_nat (length rows) + step - 1) / step).
Proof.
  intros Hsort Hs. pose proof (stride_pos _ _ _ Hs) as Hstep.
  unfold chunk_lex. rewrite Hsort, merge_sort_length, Hs.
  set (data := merge_sort (key_le vcmp) rows).
  pose proof (merge_sort_sorted rows) as Hsorted. fold data in Hsorted.
  pose proof (merge_sort_length rows) as Hlen. fold data in Hlen.
  destruct (chunk_starts data step Hstep) as (starts & Hstarts & Hcount & Hlook).
  rewrite Hlen in Hstarts, Hcount. rewrite Hstarts. cbn [mbind option_bind].
  destruct data as [|d0 data'] eqn:Edata.
  - left. assert (rows = []) as -> by (destruct rows; [done | simpl in Hlen; lia]).
    simpl in Hcount. rewrite Z.div_small in Hcount by lia.
    destruct starts; [|simpl in Hcount; lia]. done.
  - right. rewrite <- Edata in *.
    assert (1 ≤ (Z.of_nat (length rows) + step - 1) / step)%Z as Hpos.
    { apply Z.div_le_lower_bound; [lia|]. rewrite <- Hlen, Edata. simpl. lia. }
    destruct starts as [|b0 bs]; [simpl in Hcount; lia|].
    destruct (last data) as [mx|] eqn:Emx; [|apply last_None in Emx; congruence].
    exists b0, bs, mx.
    assert (∀ x, x ∈ b0 :: bs → x ∈ data) as Hsub.
    { intros x [a Ha]%list_elem_of_lookup_1. eapply list_elem_of_lookup_2, Hlook, Ha. }
    assert (∀ x, x ∈ data → key_le vcmp x mx) as Hmax.
    { intros x Hx. apply last_Some in Emx as [init Einit]. rewrite Einit in Hx, Hsorted.
      apply elem_of_app in Hx as [Hx | ->%list_elem_of_singleton]; [|apply key_le_refl; done].
      apply (StronglySorted_app_1_elem_of (key_le vcmp) init [mx] x mx Hsorted Hx). left. }
    assert (b0 = d0) as ->.
    { pose proof (Hlook 0 b0 eq_refl) as H0. rewrite Edata in H0. simpl in H0. congruence. }
    assert (mx ∈ data) as Hmx_in.
    { apply last_Some in Emx as [init ->]. apply elem_of_app. right. left. }
    split; [|split; [|split; [|split]]].
    + pose proof (chunk_slices_consecutive data [] (d0 :: bs) mx Emx ltac:(done)) as Hc.
      cbn [app] in Hc. unfold chunk_slice.
      rewrite (imap_ext _ (fun i => pair (length (@nil (list value)) + i)) (d0 :: bs)) by done.
      by rewrite Hc.
    + change (d0 :: bs ++ [mx]) with ((d0 :: bs) ++ [mx]).
      apply StronglySorted_app_2; [| |repeat constructor].
      * intros x1 x2 Hx1 ->%list_elem_of_singleton. by apply Hmax, Hsub.
      * apply StronglySorted_of_lookup. intros i j x y Hij Hi Hj.
        apply Hlook in Hi, Hj.
        destruct (decide (i * Z.to_nat step = j * Z.to_nat step)) as [Heq | Hne]; [nia|].
        apply (StronglySorted_lookup (key_le vcmp) data (i * Z.to_nat step)
                 (j * Z.to_nat step)); [done | nia | done..].
    + change (d0 :: bs ++ [mx]) with ((d0 :: bs) ++ [mx]).
      apply Forall_app. split; [|repeat constructor; by apply elem_of_merge_sort].
      apply Forall_forall. intros x Hx. by apply elem_of_merge_sort, Hsub.
    + intros x Hx. apply elem_of_merge_sort in Hx. fold data in Hx. split; [|by apply Hmax].
      rewrite Edata in Hx, Hsorted.
      apply elem_of_cons in Hx as [-> | Hx]; [apply key_le_refl; done|].
      apply StronglySorted_inv in Hsorted as [_ Hall]. rewrite Forall_forall in Hall.
      by apply Hall.
    + simpl in Hcount. done.
Qed.

End chunk_runs.


(** ** How many rows an interval holds *)

Lemma consecutive_fmap {A B} (f : A → B) (l : list A) :
  consecutive (f <$> l)
  = (fun iv : A * A * bool => (f iv.1.1, f iv.1.2, iv.2)) <$> consecutive l.
Proof.
  induction l as [|x l IH]; [done|]. destruct l as [|y l]; [done|].
  change (consecutive (f <$> x :: y :: l))
    with ((f x, f y, match f <$> l with [] => true | _ => false end)
            :: consecutive (f <$> y :: l)).
  rewrite IH, (consecutive_cons x y), fmap_cons. simpl. by destruct l.
Qed.

Lemma filter_head_split {A} (P : A → Prop) `{!∀ x, Decision (P x)} (l : list A) b fl :
  filter P l = b :: fl →
  ∃ mid l2, l = mid ++ b :: l2 ∧ Forall (fun z => ¬ P z) mid.
Proof.
  induction l as [|a l IH]; [done|]. rewrite filter_cons. destruct (decide (P a)) as [Ha | Ha].
  - intros [= -> _]. by exists [], l.
  - intros Hf. destruct (IH Hf) as (mid & l2 & -> & Hmid).
    exists (a :: mid), l2. split; [done|]. by constructor.
Qed.

Lemma consecutive_filter_split {A} (P : A → Prop) `{!∀ x, Decision (P x)}
    (l : list A) x y c :
  (x, y, c) ∈ consecutive (filter P l) →
  ∃ l1 mid l2, l = l1 ++ x :: mid ++ y :: l2 ∧ Forall (fun z => ¬ P z) mid.
Proof.
  induction l as [|a l IH]; [intros Hf; by apply elem_of_nil in Hf|].
  rewrite filter_cons. destruct (decide (P a)) as [Ha | Ha].
  - destruct (filter P l) as [|b fl] eqn:E; [intros Hf; by apply elem_of_nil in Hf|].
    rewrite consecutive_cons. intros [Heq | Hin]%elem_of_cons.
    + injection Heq as -> -> ->.
      destruct (filter_head_split P l b fl E) as (mid & l2 & -> & Hmid).
      by exists [], mid, l2.
    + destruct (IH Hin) as (l1 & mid & l2 & -> & Hmid). by exists (a :: l1), mid, l2.
  - intros Hf. destruct (IH Hf) as (l1 & mid & l2 & -> & Hmid).
    by exists (a :: l1), mid, l2.
Qed.

(** Two neighbours in the sample are rows of the table with no sampled
    rank between theirs. *)
Lemma sampled_neighbours (rows : list (list value)) (rns : list Z) lo hi c :
  (lo, hi, c) ∈ consecutive (ranked_select rows rns) →
  ∃ a b, rows !! a = Some lo ∧ rows !! b = Some hi ∧ a < b
         ∧ (Z.of_nat a + 1)%Z ∈ rns
         ∧ ∀ t, a < t < b → (Z.of_nat t + 1)%Z ∉ rns.
Proof.
  unfold ranked_select. rewrite consecutive_fmap.
  intros ([[x y] c'] & [= -> -> ->] & Hin)%list_elem_of_fmap.
  set (numbered := imap (fun i r => ((Z.of_nat i + 1)%Z, r)) rows) in *.
  assert (x.1 ∈ rns) as Hx.
  { apply elem_of_consecutive in Hin as [Hx _].
    by apply list_elem_of_filter in Hx as [Hx _]. }
  apply consecutive_filter_split in Hin as (l1 & mid & l2 & Hsplit & Hmid).
  assert (∀ i p, numbered !! i = Some p → rows !! i = Some p.2 ∧ p.1 = (Z.of_nat i + 1)%Z)
    as Hnum.
  { intros i p Hp. unfold numbered in Hp. rewrite list_lookup_imap in Hp.
    destruct (rows !! i) as [r|]; [|done]. injection Hp as <-. done. }
  exists (length l1), (length l1 + S (length mid)).
  assert (numbered !! length l1 = Some x) as H1.
  { rewrite Hsplit. by apply list_lookup_middle. }
  assert (numbered !! (length l1 + S (length mid)) = Some y) as H2.
  { rewrite Hsplit. rewrite lookup_app_r by lia.
    replace (length l1 + S (length mid) - length l1) with (S (length mid)) by lia.
    cbn [lookup list_lookup]. by apply list_lookup_middle. }
  destruct (Hnum _ _ H1) as [Ha Hra]. destruct (Hnum _ _ H2) as [Hb _].
  split; [done|]. split; [done|]. split; [lia|]. split; [by rewrite <- Hra|].
  intros t Ht.
  assert (numbered !! t = mid !! (t - S (length l1))) as Hlook.
  { rewrite Hsplit. rewrite lookup_app_r by lia.
    replace (t - length l1) with (S (t - S (length l1))) by lia.
    cbn [lookup list_lookup]. apply lookup_app_l. lia. }
  destruct (mid !! (t - S (length l1))) as [z|] eqn:Ez;
    [|apply lookup_ge_None in Ez; lia].
  destruct (Hnum _ _ Hlook) as [_ Hz]. rewrite <- Hz.
  rewrite Forall_forall in Hmid. by eapply Hmid, list_elem_of_lookup_2.
Qed.

Section interval_sizes.
Context (vcmp : value → value → comparison) `{!TotalCompare vcmp}.

(** In a table in strict key order, the rows between the row at position
    [a] and the row at position [b] are those at the positions between. *)
Lemma interval_row_count (rows : list (list value)) a b lo hi closed :
  strictly_increasing vcmp rows = true →
  rows !! a = Some lo → rows !! b = Some hi → a ≤ b →
  length (filter (fun key => in_interval vcmp lo hi closed key = true) rows)
  ≤ b - a + (if closed then 1 else 0).
Proof.
  intros Hinc Ha Hb Hab. apply (strictly_increasing_sorted vcmp) in Hinc.
  set (w := b - a + (if closed then 1 else 0)).
  rewrite <- (take_drop a rows) at 1.
  rewrite <- (take_drop w (drop a rows)).
  rewrite !filter_app, !length_app.
  rewrite (filter_none _ (take a rows)), (filter_none _ (drop w (drop a rows))).
  - simpl. rewrite Nat.add_0_r. etrans; [apply length_filter|]. rewrite length_take. lia.
  - apply Forall_forall. intros key [i Hi]%list_elem_of_lookup_1.
    rewrite lookup_drop, lookup_drop in Hi.
    unfold in_interval.
    destruct (decide (a + (w + i) = b)) as [Heq | Hne].
    + rewrite Heq, Hb in Hi. injection Hi as <-.
      assert (closed = false) as -> by (destruct closed; [unfold w in Heq; lia | done]).
      rewrite (cmp_refl (lex_compare vcmp)). by destruct (lex_compare vcmp lo hi).
    + assert (b < a + (w + i)) as Hlt by (unfold w in *; destruct closed; lia).
      pose proof (StronglySorted_lookup _ rows _ _ _ _ Hinc Hlt Hb Hi) as Hgt.
      unfold key_lt in Hgt. rewrite (lex_compare_antisym vcmp hi key), Hgt. simpl.
      by destruct (lex_compare vcmp lo key).
  - apply Forall_forall. intros key [i Hi]%list_elem_of_lookup_1.
    apply lookup_take_Some in Hi as [Hi Hlt].
    pose proof (StronglySorted_lookup _ rows _ _ _ _ Hinc Hlt Hi Ha) as Hgt.
    unfold key_lt in Hgt. unfold in_interval.
    by rewrite (lex_compare_antisym vcmp key lo), Hgt.
Qed.

(** Neighbours in the sample are at most one stride apart. *)
Lemma sampled_neighbours_stride (rows : list (list value)) (k step : Z) lo hi c :
  (1 ≤ k)%Z → (1 ≤ step)%Z → (Z.of_nat (length rows) ≤ k * step)%Z →
  (lo, hi, c)
  ∈ consecutive (ranked_select rows (target_ranks (Z.of_nat (length rows)) k step)) →
  ∃ a b, rows !! a = Some lo ∧ rows !! b = Some hi ∧ a < b ∧ (Z.of_nat (b - a) ≤ step)%Z.
Proof.
  intros Hk Hstep Hcover Hin.
  apply sampled_neighbours in Hin as (a & b & Ha & Hb & Hab & Hrank & Hgap).
  exists a, b. split; [done|]. split; [done|]. split; [done|].
  apply lookup_lt_Some in Hb as Hbn.
  destruct (Z.le_gt_cases (Z.of_nat (b - a)) step) as [|Hwide]; [done|]. exfalso.
  apply elem_of_target_ranks in Hrank as [Hrank | (i & Hi & Hrank)]; [lia|].
  apply (Hgap (a + Z.to_nat step)); [lia|].
  apply elem_of_target_ranks. right. exists (i + 1)%Z. split; [|lia].
  split; [lia|]. destruct (Z.lt_ge_cases (i + 1) k) as [|Hlast]; [done|]. nia.
Qed.

End interval_sizes.

Lemma qualified_parse_table raw : qualified (parse_table raw) = raw.
Proof.
  unfold parse_table. pose proof (split_dot_spec raw) as H.
  destruct (split_dot raw) as [[a b]|]; [|done]. simpl. by destruct H as [<- _].
Qed.

End lemmas.

(** * Properties of the slicer *)

(** ** One composite interval *)

(** Every tuple of the right arity is the key of some row when the key
    columns are pairwise different, so statements about all rows are
    statements about all key tuples. *)
Lemma row_of_key (cols : list string) (key : list value) :
  NoDup cols → length key = length cols → ∃ r : row, key_of r cols = key.
Proof.
  revert key. induction cols as [|c cols IH]; intros [|k key] Hnd Hlen; try done.
  - by exists (fun _ => VNone).
  - apply NoDup_cons in Hnd as [Hc Hnd].
    destruct (IH key Hnd) as [r Hr]; [simpl in Hlen; lia|].
    exists (fun x => if decide (x = c) then k else r x).
    unfold key_of in *. rewrite fmap_cons, decide_True by done. f_equal.
    rewrite <- Hr. apply list_fmap_ext. intros i x Hx.
    rewrite decide_False; [done|]. intros ->. apply Hc.
    by eapply list_elem_of_lookup_2.
Qed.

(** C1 fails on the code as soon as the literal written for the leading
    component of [high] is read as an earlier value, which is what happens
    to a datetime with a fraction of a second: [fmt_literal] writes it to
    the second.  Whatever the arity and whichever branch the decomposition
    takes, no emitted predicate of the last interval holds on a row whose
    key is [high], although [high] lies in [[low, high]]; and the columns
    being pairwise different, such a row exists. *)
Theorem composite_slice_misses_upper_bound
    (py_eq : value → value → bool) (denote : string → string → option value)
    (vcmp : value → value → comparison) `{!TotalCompare vcmp}
    (c0 : string) (tail : list string) (l0 h0 h0' : value) (lt ht : list value) :
  length lt = length tail → length ht = length tail →
  lex_compare vcmp (l0 :: lt) (h0 :: ht) = Lt →
  denote c0 (fmt_literal h0) = Some h0' → vcmp h0' h0 = Lt →
  denote c0 (fmt_literal l0) ≠ Some h0 →
  ∃ ps,
    composite_preds py_eq (c0 :: tail) (l0 :: lt) (h0 :: ht) true = Some ps
    ∧ build_composite_slice_wheres py_eq (c0 :: tail) (l0 :: lt) (h0 :: ht) true
      = Some (render_preds ps)
    ∧ (∀ r : row,
         key_of r (c0 :: tail) = h0 :: ht →
         in_interval vcmp (l0 :: lt) (h0 :: ht) true (key_of r (c0 :: tail)) = true
         ∧ count_sat denote vcmp r ps = 0)
    ∧ (NoDup (c0 :: tail) → ∃ r : row, key_of r (c0 :: tail) = h0 :: ht).
Proof.
  intros Hl Hh Hlt Hread Hearly Hlow.
  destruct (composite_preds_length py_eq (c0 :: tail) (l0 :: lt) (h0 :: ht) true)
    as (ps & Hps & _); [done | simpl; lia.. |].
  exists ps. split; [done|]. split; [by rewrite build_composite_slice_wheres_render, Hps|].
  split; [|intros Hnd; apply row_of_key; [done | simpl; lia]].
  intros r Hr. split.
  { rewrite Hr. unfold in_interval. rewrite Hlt.
    by rewrite (proj2 (lex_compare_eq vcmp (h0 :: ht) (h0 :: ht)) eq_refl). }
  assert (r c0 = h0) as Hr0 by (by injection Hr).
  assert (sat_atom denote vcmp r (lit_atom c0 OpEq l0) = false) as Hal.
  { unfold sat_atom, lit_atom. cbn [a_col a_op a_lit].
    destruct (denote c0 (fmt_literal l0)) as [l0'|] eqn:El; [|done].
    rewrite Hr0. destruct (vcmp h0 l0') eqn:E; [|done..].
    apply (cmp_eq (cmp:=vcmp)) in E. congruence. }
  assert (∀ op, sat_atom denote vcmp r (lit_atom c0 op h0) = holds op Gt) as Hah.
  { intros op. unfold sat_atom, lit_atom. cbn [a_col a_op a_lit].
    rewrite Hread, Hr0, (vcmp_swap vcmp h0 h0'), Hearly. done. }
  destruct tail as [|c1 tail].
  - cbn [composite_preds lookup list_lookup mbind option_bind] in Hps.
    assert (ps = [[lit_atom c0 OpGe l0; lit_atom c0 (upper_op true) h0]]) as ->
      by congruence.
    rewrite count_sat_cons, count_sat_nil. unfold sat_pred. cbn [forallb].
    rewrite (Hah (upper_op true)). simpl. by rewrite andb_false_r.
  - rewrite composite_preds_cons in Hps.
    cbn [lookup list_lookup mbind option_bind drop] in Hps. rewrite !drop_0 in Hps.
    destruct (py_eq l0 h0).
    + destruct (composite_preds py_eq (c1 :: tail) lt ht true) as [tps|];
        cbn [mbind option_bind] in Hps; [|done].
      injection Hps as <-. fold_fmap. by rewrite count_sat_guard, Hal.
    + destruct (ge_segments (c1 :: tail) lt) as [lower|];
        cbn [mbind option_bind] in Hps; [|done].
      destruct (le_segments (c1 :: tail) ht true) as [upper|];
        cbn [mbind option_bind] in Hps; [|done].
      injection Hps as <-. fold_fmap.
      rewrite count_sat_app, count_sat_guard, Hal. cbn [app].
      rewrite count_sat_cons, count_sat_guard, (Hah OpEq).
      unfold sat_pred. cbn [forallb]. rewrite (Hah OpLt). simpl.
      by rewrite andb_false_r.
Qed.

(** A table of two rows, (10:00:00.000005, 1) and (10:00:01.000007, 9), under
    the key (ts, id), one slice requested.  The three conditions written
    name whole seconds, and none of them holds on the second row. *)
Lemma composite_slice_misses_upper_bound_witness :
  generate_slice_sql identity_eq (Drivers true false)
    (Connection (Some [1; 2]%Z) [(1%Z, "ts"); (2%Z, "id")] []
       [[VDateTime (Date 2026 1 26) (TimeOfDay 10 0 0 5); VInt 1];
        [VDateTime (Date 2026 1 26) (TimeOfDay 10 0 1 7); VInt 9]])
    "pg" "t" 1 []
  = ([QPgConstraint; QPgAttribute; QCount; QRanked [1; 2]%Z],
     inr ["SELECT * FROM t WHERE ts = TIMESTAMP '2026-01-26 10:00:00' AND id >= 1;";
          "SELECT * FROM t WHERE ts > TIMESTAMP '2026-01-26 10:00:00' AND ts < TIMESTAMP '2026-01-26 10:00:01';";
          "SELECT * FROM t WHERE ts = TIMESTAMP '2026-01-26 10:00:01' AND id <= 9;"])
  ∧ ∃ ps,
      composite_preds identity_eq ["ts"; "id"]
        [VDateTime (Date 2026 1 26) (TimeOfDay 10 0 0 5); VInt 1]
        [VDateTime (Date 2026 1 26) (TimeOfDay 10 0 1 7); VInt 9] true = Some ps
      ∧ build_composite_slice_wheres identity_eq ["ts"; "id"]
          [VDateTime (Date 2026 1 26) (TimeOfDay 10 0 0 5); VInt 1]
          [VDateTime (Date 2026 1 26) (TimeOfDay 10 0 1 7); VInt 9] true
        = Some (render_preds ps)
      ∧ (∀ r : row,
           key_of r ["ts"; "id"]
           = [VDateTime (Date 2026 1 26) (TimeOfDay 10 0 1 7); VInt 9] →
           in_interval value_compare
             [VDateTime (Date 2026 1 26) (TimeOfDay 10 0 0 5); VInt 1]
             [VDateTime (Date 2026 1 26) (TimeOfDay 10 0 1 7); VInt 9] true
             (key_of r ["ts"; "id"]) = true
           ∧ count_sat read_back value_compare r ps = 0)
      ∧ (NoDup ["ts"; "id"] →
         ∃ r : row,
           key_of r ["ts"; "id"]
           = [VDateTime (Date 2026 1 26) (TimeOfDay 10 0 1 7); VInt 9]).
Proof.
  split; [vm_compute; reflexivity|].
  apply (composite_slice_misses_upper_bound identity_eq read_back value_compare
           "ts" ["id"]
           (VDateTime (Date 2026 1 26) (TimeOfDay 10 0 0 5))
           (VDateTime (Date 2026 1 26) (TimeOfDay 10 0 1 7))
           (VDateTime (Date 2026 1 26) (TimeOfDay 10 0 1 0))
           [VInt 1] [VInt 9]);
    [reflexivity | reflexivity | vm_compute; reflexivity | vm_compute; reflexivity
    | vm_compute; reflexivity | vm_compute; congruence].
Defined.



(** ** Whole runs *)

(** A row that satisfies a predicate of a list satisfies one at some
    position. *)
Lemma count_sat_position (denote : string → string → option value)
    (vcmp : value → value → comparison) (r : row) (ps : list (list atom)) :
  0 < count_sat denote vcmp r ps →
  ∃ i p, ps !! i = Some p ∧ sat_pred denote vcmp r p = true.
Proof.
  intros (p & [i Hi]%list_elem_of_lookup_1 & Hs)%count_sat_pos. eauto.
Qed.

(** C2 fails on the code: two boundaries whose leading components differ
    but are written as the same literal (two datetimes within one second)
    give the lower bands of the two intervals the same guard, and a row
    whose leading component is what that literal reads as, with the rest of
    its key at or above the rest of both boundaries, satisfies a predicate
    of each of the two intervals. *)
Theorem slices_overlap_on_equal_literals
    (py_eq : value → value → bool) (denote : string → string → option value)
    (vcmp : value → value → comparison) `{!TotalCompare vcmp}
    (c0 : string) (tail : list string) (x0 y0 z0 : value) (xt yt zt : list value)
    (r : row) :
  tail ≠ [] →
  faithful denote tail xt → faithful denote tail yt → length zt = length tail →
  strictly_increasing vcmp [x0 :: xt; y0 :: yt; z0 :: zt] = true →
  py_eq x0 y0 = false → py_eq y0 z0 = false →
  fmt_literal x0 = fmt_literal y0 →
  denote c0 (fmt_literal x0) = Some (r c0) →
  lex_compare vcmp (key_of r tail) xt ≠ Lt →
  lex_compare vcmp (key_of r tail) yt ≠ Lt →
  ∃ ps,
    slice_preds py_eq (c0 :: tail) [x0 :: xt; y0 :: yt; z0 :: zt] = Some ps
    ∧ slice_conditions py_eq (c0 :: tail) [x0 :: xt; y0 :: yt; z0 :: zt]
      = Some (render_preds ps)
    ∧ ∃ (i j : nat) (p q : list atom),
        i ≠ j ∧ ps !! i = Some p ∧ ps !! j = Some q
        ∧ sat_pred denote vcmp r p = true ∧ sat_pred denote vcmp r q = true.
Proof.
  intros Hne Hfx Hfy Hz _ Hxy Hyz Hlit Hread Hgx Hgy.
  pose proof (faithful_length denote _ _ Hfx) as Hx.
  pose proof (faithful_length denote _ _ Hfy) as Hy.
  destruct tail as [|c1 tail]; [done|].
  destruct (ge_segments_length (c1 :: tail) xt) as (lo1 & Hlo1 & _); [done | lia |].
  destruct (le_segments_length (c1 :: tail) yt false) as (up1 & Hup1 & _); [done | lia |].
  destruct (ge_segments_length (c1 :: tail) yt) as (lo2 & Hlo2 & _); [done | lia |].
  destruct (le_segments_length (c1 :: tail) zt true) as (up2 & Hup2 & _); [done | lia |].
  set (ps1 := (cons (lit_atom c0 OpEq x0) <$> lo1)
              ++ [[lit_atom c0 OpGt x0; lit_atom c0 OpLt y0]]
              ++ (cons (lit_atom c0 OpEq y0) <$> up1)).
  set (ps2 := (cons (lit_atom c0 OpEq y0) <$> lo2)
              ++ [[lit_atom c0 OpGt y0; lit_atom c0 OpLt z0]]
              ++ (cons (lit_atom c0 OpEq z0) <$> up2)).
  assert (slice_preds py_eq (c0 :: c1 :: tail) [x0 :: xt; y0 :: yt; z0 :: zt]
          = Some (ps1 ++ ps2 ++ [])) as Hps.
  { unfold slice_preds. rewrite bool_decide_false by (simpl; lia).
    rewrite composite_bounds_consecutive.
    cbn [consecutive mbind option_bind mapM].
    rewrite !composite_preds_cons.
    cbn [lookup list_lookup mbind option_bind drop]. rewrite !drop_0.
    rewrite Hxy, Hyz, Hlo1, Hup1, Hlo2, Hup2. reflexivity. }
  exists (ps1 ++ ps2 ++ []). split; [done|].
  split; [by rewrite slice_conditions_render, Hps|].
  assert (sat_atom denote vcmp r (lit_atom c0 OpEq x0) = true) as Hax.
  { unfold sat_atom, lit_atom. cbn [a_col a_op a_lit].
    by rewrite Hread, (cmp_refl vcmp). }
  assert (sat_atom denote vcmp r (lit_atom c0 OpEq y0) = true) as Hay.
  { unfold sat_atom, lit_atom. cbn [a_col a_op a_lit].
    by rewrite <- Hlit, Hread, (cmp_refl vcmp). }
  destruct (count_sat_position denote vcmp r (cons (lit_atom c0 OpEq x0) <$> lo1))
    as (i & p & Hi & Hp).
  { rewrite count_sat_guard, Hax, (ge_segments_count denote vcmp r _ _ _ Hlo1) by done.
    destruct (lex_compare vcmp (key_of r (c1 :: tail)) xt); [lia | done | lia]. }
  destruct (count_sat_position denote vcmp r (cons (lit_atom c0 OpEq y0) <$> lo2))
    as (j & q & Hj & Hq).
  { rewrite count_sat_guard, Hay, (ge_segments_count denote vcmp r _ _ _ Hlo2) by done.
    destruct (lex_compare vcmp (key_of r (c1 :: tail)) yt); [lia | done | lia]. }
  pose proof (lookup_lt_Some _ _ _ Hi) as Hilt.
  assert (i < length ps1) as Hi1 by (unfold ps1; rewrite length_app; lia).
  exists i, (length ps1 + j), p, q.
  split; [lia|]. split; [|split; [|done]].
  - rewrite lookup_app_l by done. unfold ps1. by rewrite lookup_app_l.
  - rewrite lookup_app_r by lia.
    replace (length ps1 + j - length ps1) with j by lia.
    unfold ps2. rewrite <- !app_assoc.
    rewrite lookup_app_l; [done|]. by eapply lookup_lt_Some.
Qed.

(** A table of four rows under the key (ts, id), three slices requested:
    the rows (10:00:00, 1), (10:00:00.000007, 1) and (10:00:01.000005, 1)
    are sampled.  The first and the fourth statement are the same text, and
    the second row of the table, (10:00:00, 2), satisfies both. *)
Lemma slices_overlap_on_equal_literals_witness :
  generate_slice_sql identity_eq (Drivers true false)
    (Connection (Some [1; 2]%Z) [(1%Z, "ts"); (2%Z, "id")] []
       [[VDateTime (Date 2026 1 26) (TimeOfDay 10 0 0 0); VInt 1];
        [VDateTime (Date 2026 1 26) (TimeOfDay 10 0 0 0); VInt 2];
        [VDateTime (Date 2026 1 26) (TimeOfDay 10 0 0 7); VInt 1];
        [VDateTime (Date 2026 1 26) (TimeOfDay 10 0 1 5); VInt 1]])
    "pg" "t" 3 []
  = ([QPgConstraint; QPgAttribute; QCount; QRanked [1; 3; 4; 5]%Z],
     inr ["SELECT * FROM t WHERE ts = TIMESTAMP '2026-01-26 10:00:00' AND id >= 1;";
          "SELECT * FROM t WHERE ts > TIMESTAMP '2026-01-26 10:00:00' AND ts < TIMESTAMP '2026-01-26 10:00:00';";
          "SELECT * FROM t WHERE ts = TIMESTAMP '2026-01-26 10:00:00' AND id < 1;";
          "SELECT * FROM t WHERE ts = TIMESTAMP '2026-01-26 10:00:00' AND id >= 1;";
          "SELECT * FROM t WHERE ts > TIMESTAMP '2026-01-26 10:00:00' AND ts < TIMESTAMP '2026-01-26 10:00:01';";
          "SELECT * FROM t WHERE ts = TIMESTAMP '2026-01-26 10:00:01' AND id <= 1;"])
  ∧ ∃ ps,
      slice_preds identity_eq ["ts"; "id"]
        [[VDateTime (Date 2026 1 26) (TimeOfDay 10 0 0 0); VInt 1];
         [VDateTime (Date 2026 1 26) (TimeOfDay 10 0 0 7); VInt 1];
         [VDateTime (Date 2026 1 26) (TimeOfDay 10 0 1 5); VInt 1]] = Some ps
      ∧ slice_conditions identity_eq ["ts"; "id"]
          [[VDateTime (Date 2026 1 26) (TimeOfDay 10 0 0 0); VInt 1];
           [VDateTime (Date 2026 1 26) (TimeOfDay 10 0 0 7); VInt 1];
           [VDateTime (Date 2026 1 26) (TimeOfDay 10 0 1 5); VInt 1]]
        = Some (render_preds ps)
      ∧ ∃ (i j : nat) (p q : list atom),
          i ≠ j ∧ ps !! i = Some p ∧ ps !! j = Some q
          ∧ sat_pred read_back value_compare
              (fun c => if String.eqb c "ts"
                        then VDateTime (Date 2026 1 26) (TimeOfDay 10 0 0 0)
                        else VInt 2) p = true
          ∧ sat_pred read_back value_compare
              (fun c => if String.eqb c "ts"
                        then VDateTime (Date 2026 1 26) (TimeOfDay 10 0 0 0)
                        else VInt 2) q = true.
Proof.
  split; [vm_compute; reflexivity|].
  apply (slices_overlap_on_equal_literals identity_eq read_back value_compare
           "ts" ["id"]
           (VDateTime (Date 2026 1 26) (TimeOfDay 10 0 0 0))
           (VDateTime (Date 2026 1 26) (TimeOfDay 10 0 0 7))
           (VDateTime (Date 2026 1 26) (TimeOfDay 10 0 1 5))
           [VInt 1] [VInt 1] [VInt 1]
           (fun c => if String.eqb c "ts"
                     then VDateTime (Date 2026 1 26) (TimeOfDay 10 0 0 0)
                     else VInt 2));
    [done | by repeat constructor | by repeat constructor | reflexivity
    | vm_compute; reflexivity | vm_compute; reflexivity | vm_compute; reflexivity
    | vm_compute; reflexivity | vm_compute; reflexivity
    | vm_compute; congruence | vm_compute; congruence].
Defined.



(** ** The single-column slicer *)

(** C5: for [m >= 2] boundary values of which no two neighbours are equal
    (so for every ordered, deduplicated list), the single-column slicer
    emits [m - 1] predicates; the one at position [i] is
    [col >= lo AND col < hi] on the pair at positions [i], [i + 1],
    with [<=] instead for the last pair.  Boundaries 1, 11, 21, 30 on column
    ID give the three predicates of scenario A. *)
Theorem single_key_slices (py_eq : value → value → bool)
    (col : string) (bounds : list value) :
  2 ≤ length bounds → adjacent_distinct py_eq bounds = true →
  length (make_single_pk_slices_from_bounds py_eq col bounds) = length bounds - 1
  ∧ (∀ (i : nat) (lo hi : value),
       bounds !! i = Some lo → bounds !! (i + 1) = Some hi →
       make_single_pk_slices_from_bounds py_eq col bounds !! i
       = Some (if bool_decide (i = length bounds - 2)
               then col +:+ " >= " +:+ fmt_literal lo +:+ " AND " +:+ col +:+ " <= "
                      +:+ fmt_literal hi
               else col +:+ " >= " +:+ fmt_literal lo +:+ " AND " +:+ col +:+ " < "
                      +:+ fmt_literal hi))
  ∧ make_single_pk_slices_from_bounds identity_eq "ID" [VInt 1; VInt 11; VInt 21; VInt 30]
    = ["ID >= 1 AND ID < 11"; "ID >= 11 AND ID < 21"; "ID >= 21 AND ID <= 30"].
Proof.
  intros Hm Hd.
  set (text i := match bounds !! i, bounds !! (i + 1) with
                 | Some lo, Some hi =>
                     if bool_decide (i = length bounds - 2)
                     then col +:+ " >= " +:+ fmt_literal lo +:+ " AND " +:+ col +:+ " <= "
                            +:+ fmt_literal hi
                     else col +:+ " >= " +:+ fmt_literal lo +:+ " AND " +:+ col +:+ " < "
                            +:+ fmt_literal hi
                 | _, _ => EmptyString
                 end).
  assert (make_single_pk_slices_from_bounds py_eq col bounds
          = text <$> seq 0 (length bounds - 1)) as ->.
  { unfold make_single_pk_slices_from_bounds.
    rewrite (dedup_adjacent_distinct py_eq bounds Hd), (close_single_long bounds Hm).
    apply omap_seq_total. intros i Hi. unfold single_slice_at, text.
    destruct (lookup_lt_is_Some_2 bounds i) as [lo ->]; [lia|].
    destruct (lookup_lt_is_Some_2 bounds (i + 1)) as [hi ->]; [lia|]. done. }
  split; [by rewrite length_fmap, length_seq|]. split; [|reflexivity].
  intros i lo hi Hlo Hhi. rewrite list_lookup_fmap.
  apply lookup_lt_Some in Hhi as Hi.
  rewrite lookup_seq_lt by lia. simpl. unfold text. by rewrite Hlo, Hhi.
Qed.

(** Scenario A: three predicates, the last one closed. *)
Lemma single_key_slices_witness :
  length (make_single_pk_slices_from_bounds identity_eq "ID"
            [VInt 1; VInt 11; VInt 21; VInt 30]) = 3
  ∧ make_single_pk_slices_from_bounds identity_eq "ID"
      [VInt 1; VInt 11; VInt 21; VInt 30] !! 2
    = Some "ID >= 21 AND ID <= 30".
Proof.
  destruct (single_key_slices identity_eq "ID" [VInt 1; VInt 11; VInt 21; VInt 30])
    as (Hlen & Hat & _);
    [simpl; lia | reflexivity |].
  split; [exact Hlen|]. exact (Hat 2 (VInt 21) (VInt 30) eq_refl eq_refl).
Defined.

(** ** Sizes of the composite decomposition *)

(** C6: for a key of [n >= 1] columns the decomposition of one interval has
    at most [2 * (n - 1) + 1] predicates; when the leading components are
    not equal for Python it is a lower band of at most [n - 1] segments, one
    middle predicate and an upper band of at most [n - 1] segments. *)
Theorem composite_predicate_count_bound
    (py_eq : value → value → bool)
    (cols : list string) (left right : list value) (is_last : bool) :
  cols ≠ [] → length left = length cols → length right = length cols →
  ∃ ws,
    build_composite_slice_wheres py_eq cols left right is_last = Some ws
    ∧ length ws ≤ 2 * (length cols - 1) + 1
    ∧ ∀ c0 tail l0 lt r0 rt,
        cols = c0 :: tail → tail ≠ [] → left = l0 :: lt → right = r0 :: rt →
        py_eq l0 r0 = false →
        ∃ lower upper,
          _ge_segments tail lt = Some lower
          ∧ _le_segments tail rt is_last = Some upper
          ∧ length lower ≤ length cols - 1
          ∧ length upper ≤ length cols - 1
          ∧ ws = map (fun seg => String.concat " AND " ((c0 +:+ " = " +:+ fmt_literal l0) :: seg)) lower
                 ++ [c0 +:+ " > " +:+ fmt_literal l0 +:+ " AND " +:+ c0 +:+ " < " +:+ fmt_literal r0]
                 ++ map (fun seg => String.concat " AND " ((c0 +:+ " = " +:+ fmt_literal r0) :: seg)) upper.
Proof.
  intros Hne Hl Hr.
  destruct (composite_preds_length py_eq cols left right is_last) as (ps & Hps & Hlen);
    [done|lia..|].
  exists (render_preds ps). split; [by rewrite build_composite_slice_wheres_render, Hps|].
  split; [unfold render_preds; rewrite length_fmap; lia|].
  intros c0 tail l0 lt r0 rt -> Htl -> -> Hneq.
  destruct tail as [|c1 tail]; [done|].
  destruct (ge_segments_length (c1 :: tail) lt) as (lo & Hlo & Hlol); [done|simpl in *; lia|].
  destruct (le_segments_length (c1 :: tail) rt is_last) as (up & Hup & Hupl);
    [done|simpl in *; lia|].
  exists (render_segments lo), (render_segments up).
  rewrite _ge_segments_render, _le_segments_render, Hlo, Hup.
  split; [done|]. split; [done|].
  unfold render_segments. rewrite !length_fmap.
  split; [simpl in *; lia|]. split; [simpl in *; lia|].
  pose proof (build_composite_slice_wheres_render py_eq (c0 :: c1 :: tail) (l0 :: lt)
                (r0 :: rt) is_last) as Hb.
  rewrite Hps in Hb. rewrite build_composite_slice_wheres_cons in Hb.
  cbn [lookup list_lookup mbind option_bind drop] in Hb. rewrite !drop_0 in Hb.
  rewrite Hneq in Hb.
  rewrite _ge_segments_render, _le_segments_render, Hlo, Hup in Hb.
  cbn [mbind option_bind fmap option_fmap option_map] in Hb. by injection Hb as <-.
Qed.

(** Three columns, all components different: at most five predicates, and
    the three bands. *)
Lemma composite_predicate_count_bound_witness :
  ∃ ws,
    build_composite_slice_wheres identity_eq ["A"; "B"; "C"] [VInt 1; VInt 2; VInt 3]
      [VInt 4; VInt 5; VInt 6] true = Some ws
    ∧ length ws ≤ 5
    ∧ ∃ lower upper,
        _ge_segments ["B"; "C"] [VInt 2; VInt 3] = Some lower
        ∧ _le_segments ["B"; "C"] [VInt 5; VInt 6] true = Some upper
        ∧ ws = map (fun seg => String.concat " AND " (("A" +:+ " = " +:+ fmt_literal (VInt 1)) :: seg)) lower
               ++ ["A" +:+ " > " +:+ fmt_literal (VInt 1) +:+ " AND " +:+ "A" +:+ " < "
                     +:+ fmt_literal (VInt 4)]
               ++ map (fun seg => String.concat " AND " (("A" +:+ " = " +:+ fmt_literal (VInt 4)) :: seg)) upper.
Proof.
  destruct (composite_predicate_count_bound identity_eq ["A"; "B"; "C"]
              [VInt 1; VInt 2; VInt 3] [VInt 4; VInt 5; VInt 6] true)
    as (ws & Hws & Hlen & Hbands); [done | reflexivity | reflexivity |].
  exists ws. split; [exact Hws|]. split; [exact Hlen|].
  destruct (Hbands "A" ["B"; "C"] (VInt 1) [VInt 2; VInt 3] (VInt 4) [VInt 5; VInt 6])
    as (lower & upper & Hlo & Hup & _ & _ & Heq);
    [reflexivity | done | reflexivity | reflexivity | reflexivity |].
  exists lower, upper. split; [exact Hlo|]. split; [exact Hup | exact Heq].
Defined.

(** C10: on a column list of length [m >= 1] and a bound tuple of that
    arity the lower-bound helper returns exactly [m] segments, and so does
    the upper-bound helper, whatever the bound values; an interval whose
    bound tuples first differ, for Python's [==], at component [j + 1]
    (with [j < n]) expands into exactly [2 * (n - j) - 1] predicates. *)
Theorem expansion_sizes (py_eq : value → value → bool) :
  (∀ (cols : list string) (bounds : list value),
     cols ≠ [] → length bounds = length cols →
     ∃ segs, _ge_segments cols bounds = Some segs ∧ length segs = length cols)
  ∧ (∀ (cols : list string) (bounds : list value) (inclusive : bool),
       cols ≠ [] → length bounds = length cols →
       ∃ segs, _le_segments cols bounds inclusive = Some segs ∧ length segs = length cols)
  ∧ (∀ (cols : list string) (left right : list value) (is_last : bool) (j : nat)
       (a b : value),
       length left = length cols → length right = length cols →
       j < length cols →
       Forall2 (fun x y => py_eq x y = true) (take j left) (take j right) →
       left !! j = Some a → right !! j = Some b → py_eq a b = false →
       ∃ ws, build_composite_slice_wheres py_eq cols left right is_last = Some ws
             ∧ length ws = 2 * (length cols - j) - 1).
Proof.
  split; [|split].
  - intros cols bounds Hne Hb.
    destruct (ge_segments_length cols bounds) as (segs & Hs & Hlen); [done|lia|].
    exists (render_segments segs). rewrite _ge_segments_render, Hs.
    split; [done|]. unfold render_segments. by rewrite length_fmap.
  - intros cols bounds inclusive Hne Hb.
    destruct (le_segments_length cols bounds inclusive) as (segs & Hs & Hlen); [done|lia|].
    exists (render_segments segs). rewrite _le_segments_render, Hs.
    split; [done|]. unfold render_segments. by rewrite length_fmap.
  - intros cols left right is_last j a b Hl Hr Hj Htake Ha Hb Hdiff.
    assert (cols ≠ []) as Hne by (intros ->; simpl in Hj; lia).
    destruct (composite_preds_length py_eq cols left right is_last) as (ps & Hps & Hlen);
      [done|lia..|].
    exists (render_preds ps). rewrite build_composite_slice_wheres_render, Hps.
    split; [done|]. unfold render_preds. rewrite length_fmap, Hlen.
    rewrite (common_prefix_spec py_eq left right j a b) by done. lia.
Qed.

(** Three columns, bounds that share their first component. *)
Lemma expansion_sizes_witness :
  (∃ segs, _ge_segments ["A"; "B"; "C"] [VInt 7; VInt 8; VInt 9] = Some segs
           ∧ length segs = 3)
  ∧ (∃ segs, _le_segments ["A"; "B"; "C"] [VInt 7; VInt 8; VInt 9] false = Some segs
             ∧ length segs = 3)
  ∧ (∃ ws, build_composite_slice_wheres identity_eq ["A"; "B"; "C"] [VInt 1; VInt 2; VInt 3]
             [VInt 1; VInt 5; VInt 0] true = Some ws
           ∧ length ws = 2 * (3 - 1) - 1).
Proof.
  destruct (expansion_sizes identity_eq) as (Hge & Hle & Hcomp). split; [|split].
  - apply (Hge ["A"; "B"; "C"] [VInt 7; VInt 8; VInt 9]); [done | reflexivity].
  - apply (Hle ["A"; "B"; "C"] [VInt 7; VInt 8; VInt 9] false); [done | reflexivity].
  - apply (Hcomp ["A"; "B"; "C"] [VInt 1; VInt 2; VInt 3] [VInt 1; VInt 5; VInt 0] true 1
             (VInt 2) (VInt 5));
      [reflexivity | reflexivity | simpl; lia | by repeat constructor
      | reflexivity | reflexivity | reflexivity].
Defined.

(** ** The sampler *)

(** C4 (as amended): for [N >= 1] rows and [K >= 1] requested slices,
    whenever the stride is computed the sampler asks for the ranks
    [{1 + i * step : 0 <= i < K}] and [N], sorted ascending without
    repetition; they include [N] and are at most [K + 1].  For
    [N < 2 ^ 53] the stride is computed and is [max (1, ceil (N / K))]. *)
Theorem sampler_target_ranks
    (conn : connection) (table : TableSpec) (pk_cols : list string)
    (k : Z) (dbtype : string) (tr : list query) :
  (1 ≤ Z.of_nat (length (table_rows conn)))%Z → (1 ≤ k)%Z →
  (∀ step,
     stride (Z.of_nat (length (table_rows conn))) k = inr step →
     let total := Z.of_nat (length (table_rows conn)) in
     let rns := target_ranks total k step in
     fetch_pk_boundaries conn table pk_cols k dbtype tr
     = (tr ++ [QCount; QRanked rns], inr (ranked_select (table_rows conn) rns))
     ∧ (∀ x, x ∈ rns ↔ x = total ∨ ∃ i, (0 ≤ i < k)%Z ∧ x = (1 + i * step)%Z)
     ∧ StronglySorted Z.lt rns
     ∧ total ∈ rns
     ∧ (Z.of_nat (length rns) ≤ k + 1)%Z)
  ∧ ((Z.of_nat (length (table_rows conn)) < 2 ^ 53)%Z →
     stride (Z.of_nat (length (table_rows conn))) k
     = inr (Z.max 1 (ceil_div (Z.of_nat (length (table_rows conn))) k))).
Proof.
  intros Hn Hk. split.
  - intros step Hs total rns. split; [|split; [|split; [|split]]].
    + apply fetch_pk_boundaries_ranked; [|done].
      destruct (table_rows conn); [simpl in Hn; lia | done].
    + intros x. apply elem_of_target_ranks.
    + apply sorted_ranks_strict.
    + apply elem_of_target_ranks. by left.
    + pose proof (length_target_ranks total k step). fold rns in H. lia.
  - intros Hlt. apply stride_exact; lia.
Qed.

(** Scenario A: thirty rows and three slices give the ranks 1, 11, 21, 30. *)
Lemma sampler_target_ranks_witness :
  fetch_pk_boundaries
    (Connection None [] ["ID"] ((fun i => [VInt (Z.of_nat i)]) <$> seq 1 30))
    (parse_table "T") ["ID"] 3 "ora" []
  = ([QCount; QRanked [1; 11; 21; 30]%Z],
     inr [[VInt 1]; [VInt 11]; [VInt 21]; [VInt 30]]).
Proof.
  destruct (sampler_target_ranks
              (Connection None [] ["ID"] ((fun i => [VInt (Z.of_nat i)]) <$> seq 1 30))
              (parse_table "T") ["ID"] 3 "ora" []) as [H _];
    [vm_compute; discriminate | lia |].
  destruct (H 10%Z) as [Hrun _]; [vm_compute; reflexivity|].
  rewrite Hrun. vm_compute. reflexivity.
Defined.

(** C4, as stated, fails above [2 ^ 53] rows: the quotient is rounded to a
    binary64 number before the ceiling is taken. *)
Lemma stride_not_exact_ceiling :
  stride (2 ^ 53 + 1) 1 = inr (2 ^ 53)%Z
  ∧ Z.max 1 (ceil_div (2 ^ 53 + 1) 1) = (2 ^ 53 + 1)%Z
  ∧ stride (2 ^ 53 + 1) 1 ≠ inr (Z.max 1 (ceil_div (2 ^ 53 + 1) 1)).
Proof. split; [|split]; vm_compute; [reflexivity | reflexivity | discriminate]. Qed.

(** ** Degenerate tables and failures *)

Lemma ranked_select_single (row : list value) (rns : list Z) :
  1%Z ∈ rns → ranked_select [row] rns = [row].
Proof.
  intros H. unfold ranked_select. simpl. rewrite filter_cons, filter_nil.
  by rewrite decide_True.
Qed.

(** C3: on a table with one row the single-column branch emits exactly one
    predicate, closed on both ends, while the composite branch emits none:
    the single boundary tuple is not duplicated there. *)
Theorem single_row_table_slices (py_eq : value → value → bool)
    (drv : drivers) (conn : connection) (dbtype table : string) (k : Z)
    (tr tr' : list query) (pk_cols : list string) (row : list value) :
  resolve_pk_columns drv conn dbtype (parse_table table) tr = (tr', inr pk_cols) →
  table_rows conn = [row] → (1 ≤ k)%Z →
  let rns := target_ranks 1 k (Z.max 1 (ceil_div 1 k)) in
  (∀ c v, pk_cols = [c] → row = [v] →
     generate_slice_sql py_eq drv conn dbtype table k tr
     = (tr' ++ [QCount; QRanked rns],
        inr [select_stmt (qualified (parse_table table))
               (c +:+ " >= " +:+ fmt_literal v +:+ " AND " +:+ c +:+ " <= " +:+ fmt_literal v)]))
  ∧ (2 ≤ length pk_cols →
     generate_slice_sql py_eq drv conn dbtype table k tr
     = (tr' ++ [QCount; QRanked rns], inr [])).
Proof.
  intros Hres Hrows Hk rns.
  assert (fetch_pk_boundaries conn (parse_table table) pk_cols k dbtype tr'
          = (tr' ++ [QCount; QRanked rns], inr [row])) as Hfetch.
  { rewrite (fetch_pk_boundaries_ranked conn _ pk_cols k dbtype tr' (Z.max 1 (ceil_div 1 k)));
      rewrite Hrows; [| done | apply stride_exact; lia].
    change (Z.of_nat (length [row])) with 1%Z. fold rns.
    rewrite ranked_select_single; [done|]. apply elem_of_target_ranks. by left. }
  split.
  - intros c v -> ->. rewrite (generate_slice_sql_run py_eq _ _ _ _ _ _ _ _ Hres), Hfetch.
    reflexivity.
  - intros Hlen. rewrite (generate_slice_sql_run py_eq _ _ _ _ _ _ _ _ Hres), Hfetch.
    rewrite bool_decide_false by (intros ->; simpl in Hlen; lia).
    rewrite bool_decide_false by done.
    unfold slice_conditions. rewrite bool_decide_false by lia. reflexivity.
Qed.

(** One row under a two-column key: no statement at all. *)
Lemma single_row_table_slices_witness :
  generate_slice_sql identity_eq (Drivers true true)
    (Connection (Some [1; 2]%Z) [(1%Z, "a"); (2%Z, "b")] [] [[VInt 1; VInt 1]])
    "pg" "t" 4 []
  = ([QPgConstraint; QPgAttribute; QCount; QRanked [1; 2; 3; 4]%Z], inr []).
Proof.
  destruct (single_row_table_slices identity_eq (Drivers true true)
              (Connection (Some [1; 2]%Z) [(1%Z, "a"); (2%Z, "b")] [] [[VInt 1; VInt 1]])
              "pg" "t" 4 [] [QPgConstraint; QPgAttribute] ["a"; "b"] [VInt 1; VInt 1])
    as [_ H]; [vm_compute; reflexivity | reflexivity | lia |].
  rewrite H by (simpl; lia). vm_compute. reflexivity.
Defined.

(** C8: when the resolved key column list is empty the generator raises
    "Primary key not found"; up to that point only catalog queries have been
    sent, neither the row count nor the ranked sample, and no statement is
    returned. *)
Theorem empty_key_raises_before_sampling (py_eq : value → value → bool)
    (drv : drivers) (conn : connection) (dbtype table : string) (k : Z)
    (tr tr' : list query) :
  resolve_pk_columns drv conn dbtype (parse_table table) tr = (tr', inr []) →
  generate_slice_sql py_eq drv conn dbtype table k tr
  = (tr', inl (RuntimeError "Primary key not found"))
  ∧ ∃ qs, tr' = tr ++ qs ∧ Forall (fun q => is_sampling_query q = false) qs.
Proof.
  intros Hres. split.
  - by rewrite (generate_slice_sql_run py_eq _ _ _ _ _ _ _ _ Hres).
  - by eapply resolve_pk_columns_trace.
Qed.

(** A PostgreSQL table without a primary-key constraint. *)
Lemma empty_key_raises_before_sampling_witness :
  generate_slice_sql identity_eq (Drivers true true) (Connection None [] [] [[VInt 1]; [VInt 2]])
    "pg" "public.t" 8 []
  = ([QPgConstraint], inl (RuntimeError "Primary key not found")).
Proof.
  apply (empty_key_raises_before_sampling identity_eq (Drivers true true)
           (Connection None [] [] [[VInt 1]; [VInt 2]]) "pg" "public.t" 8 [] [QPgConstraint]).
  reflexivity.
Defined.

(** C9: on a table without rows the sampler returns the empty boundary list
    and the generator, once the key columns are resolved, returns the empty
    statement list; nothing is raised. *)
Theorem empty_table_yields_no_statements (py_eq : value → value → bool)
    (conn : connection) :
  table_rows conn = [] →
  (∀ (table : TableSpec) (pk_cols : list string) (k : Z) (dbtype : string)
     (tr : list query),
     fetch_pk_boundaries conn table pk_cols k dbtype tr = (tr ++ [QCount], inr []))
  ∧ (∀ (drv : drivers) (dbtype table : string) (k : Z) (tr tr' : list query)
       (pk_cols : list string),
       resolve_pk_columns drv conn dbtype (parse_table table) tr = (tr', inr pk_cols) →
       pk_cols ≠ [] →
       generate_slice_sql py_eq drv conn dbtype table k tr = (tr' ++ [QCount], inr [])).
Proof.
  intros Hrows. split.
  - intros table pk_cols k dbtype tr. by apply fetch_pk_boundaries_empty.
  - intros drv dbtype table k tr tr' pk_cols Hres Hne.
    rewrite (generate_slice_sql_run py_eq _ _ _ _ _ _ _ _ Hres).
    rewrite (fetch_pk_boundaries_empty conn (parse_table table) pk_cols k dbtype tr' Hrows).
    by rewrite bool_decide_false.
Qed.

(** An empty Oracle table, even with zero requested slices. *)
Lemma empty_table_yields_no_statements_witness :
  fetch_pk_boundaries (Connection None [] ["DT"; "ID"] []) (parse_table "T_SPLIT_TEST")
    ["DT"; "ID"] 0 "ora" [QOraConstraints]
  = ([QOraConstraints; QCount], inr [])
  ∧ generate_slice_sql identity_eq (Drivers false true) (Connection None [] ["DT"; "ID"] [])
      "ora" "T_SPLIT_TEST" 0 []
    = ([QOraConstraints; QCount], inr []).
Proof.
  destruct (empty_table_yields_no_statements identity_eq (Connection None [] ["DT"; "ID"] []))
    as [Hfetch Hgen]; [reflexivity|].
  split.
  - apply (Hfetch (parse_table "T_SPLIT_TEST") ["DT"; "ID"] 0%Z "ora" [QOraConstraints]).
  - apply (Hgen (Drivers false true) "ora" "T_SPLIT_TEST" 0%Z [] [QOraConstraints]
             ["DT"; "ID"]); [reflexivity | done].
Defined.

(** ** The emitted text *)

(** C7 (as amended): the words [OR] and [UNION] reach an emitted predicate
    only through a key column name or a formatted key value, which are
    copied into it as they are; when none of those contains the word, no
    emitted predicate does. *)
Theorem conditions_free_of_or_and_union (py_eq : value → value → bool)
    (w : string) (pk_cols : list string) (boundaries : list (list value))
    (ws : list string) :
  w = "OR" ∨ w = "UNION" →
  (∀ c, c ∈ pk_cols → ¬ is_substring w c) →
  (∀ b v, b ∈ boundaries → v ∈ b → ¬ is_substring w (fmt_literal v)) →
  slice_conditions py_eq pk_cols boundaries = Some ws →
  ∀ p, p ∈ ws → ¬ is_substring w p.
Proof.
  intros Hw Hcols Hvals Hws p Hp Hsub.
  assert (foreign_word w = true) as Hf by (by destruct Hw as [-> | ->]).
  rewrite slice_conditions_render in Hws.
  destruct (slice_preds py_eq pk_cols boundaries) as [ps|] eqn:Eps; [|done].
  injection Hws as <-. unfold render_preds in Hp.
  apply list_elem_of_fmap in Hp as (q & -> & Hq).
  destruct (substring_render_pred w q Hf Hsub) as (a & Ha & Hin).
  destruct (slice_preds_atoms py_eq pk_cols boundaries ps q a Eps Hq Ha)
    as [Hc (b & v & Hb & Hv & Hlit)].
  destruct Hin as [Hin|Hin]; [by apply (Hcols _ Hc)|].
  rewrite Hlit in Hin. by apply (Hvals _ _ Hb Hv).
Qed.

(** Scenario B, two boundaries on (DT, ID). *)
Lemma conditions_free_of_or_and_union_witness :
  slice_conditions identity_eq ["DT"; "ID"]
    [[VDate (Date 2024 1 1); VInt 1]; [VDate (Date 2024 1 2); VInt 7]]
  = Some ["DT = DATE '2024-01-01' AND ID >= 1";
          "DT > DATE '2024-01-01' AND DT < DATE '2024-01-02'";
          "DT = DATE '2024-01-02' AND ID <= 7"]
  ∧ ∀ p,
      p ∈ ["DT = DATE '2024-01-01' AND ID >= 1";
           "DT > DATE '2024-01-01' AND DT < DATE '2024-01-02'";
           "DT = DATE '2024-01-02' AND ID <= 7"] →
      ¬ is_substring "UNION" p.
Proof.
  split; [vm_compute; reflexivity|].
  apply (conditions_free_of_or_and_union identity_eq "UNION" ["DT"; "ID"]
           [[VDate (Date 2024 1 1); VInt 1]; [VDate (Date 2024 1 2); VInt 7]]).
  - by right.
  - intros c Hc. apply not_substring_of_contains.
    repeat (apply elem_of_cons in Hc as [-> | Hc]; [vm_compute; reflexivity|]).
    by apply elem_of_nil in Hc.
  - intros b v Hb Hv. apply not_substring_of_contains.
    repeat (apply elem_of_cons in Hb as [-> | Hb];
            [repeat (apply elem_of_cons in Hv as [-> | Hv]; [vm_compute; reflexivity|]);
             by apply elem_of_nil in Hv|]).
    by apply elem_of_nil in Hb.
  - vm_compute. reflexivity.
Defined.

(** C7, as stated, fails: a column name or a text value that contains the
    letters is copied into the predicate. *)
Lemma or_and_union_inside_names_and_values :
  slice_conditions identity_eq ["ORDER_ID"] [[VInt 1]; [VInt 11]]
  = Some ["ORDER_ID >= 1 AND ORDER_ID <= 11"]
  ∧ is_substring "OR" "ORDER_ID >= 1 AND ORDER_ID <= 11"
  ∧ slice_conditions identity_eq ["NAME"] [[VStr "REUNION"]; [VStr "TOGO"]]
    = Some ["NAME >= 'REUNION' AND NAME <= 'TOGO'"]
  ∧ is_substring "UNION" "NAME >= 'REUNION' AND NAME <= 'TOGO'".
Proof.
  split; [vm_compute; reflexivity|]. split.
  { by exists EmptyString, "DER_ID >= 1 AND ORDER_ID <= 11". }
  split; [vm_compute; reflexivity|].
  by exists "NAME >= 'RE", "' AND NAME <= 'TOGO'".
Qed.

(** ** The generator on a table in key order *)



(** * Further properties of the code *)

(** ** The sampler beyond its target ranks *)

(** X2: whenever [fetch_pk_boundaries] returns for [k >= 1], what it returns are
    rows of the table in table order, the first one being the first row of
    the table and the last one its last row, and there are at most [k + 1]
    of them. *)
Theorem sampled_boundaries_are_table_rows
    (conn : connection) (table : TableSpec) (pk_cols : list string)
    (k : Z) (dbtype : string) (tr tr' : list query) (bs : list (list value)) :
  (1 ≤ k)%Z →
  fetch_pk_boundaries conn table pk_cols k dbtype tr = (tr', inr bs) →
  bs `sublist_of` table_rows conn
  ∧ head bs = head (table_rows conn)
  ∧ last bs = last (table_rows conn)
  ∧ length bs ≤ Z.to_nat k + 1.
Proof.
  intros Hk Hrun.
  destruct (fetch_pk_boundaries_cases conn table pk_cols k dbtype tr)
    as [[Hrows H] | [(e & _ & _ & H) | (step & Hrows & Hs & H)]];
    rewrite H in Hrun; [| done |].
  - injection Hrun as _ <-. rewrite Hrows. repeat split; [constructor | simpl; lia].
  - injection Hrun as _ <-.
    set (n := Z.of_nat (length (table_rows conn))) in *.
    set (rns := target_ranks n k step).
    assert (1%Z ∈ rns) as H1.
    { apply elem_of_target_ranks. right. exists 0%Z. split; lia. }
    assert (n ∈ rns) as Hn by (apply elem_of_target_ranks; by left).
    split; [apply ranked_select_sublist|]. split; [|split].
    + destruct (table_rows conn) as [|r1 rest]; [done|]. by apply ranked_select_head.
    + destruct (last (table_rows conn)) as [rn|] eqn:Elast; [|by apply last_None in Elast].
      apply last_Some in Elast as [init Einit]. unfold n in Hn. rewrite Einit in Hn |- *.
      by apply ranked_select_last.
    + etrans; [apply ranked_select_length|]. apply length_target_ranks.
Qed.

(** Five rows, two slices: the rows of rank 1, 4 and 5. *)
Lemma sampled_boundaries_are_table_rows_witness :
  [[VInt 10]; [VInt 40]; [VInt 50]]
    `sublist_of` [[VInt 10]; [VInt 20]; [VInt 30]; [VInt 40]; [VInt 50]]
  ∧ head [[VInt 10]; [VInt 40]; [VInt 50]]
    = head [[VInt 10]; [VInt 20]; [VInt 30]; [VInt 40]; [VInt 50]]
  ∧ last [[VInt 10]; [VInt 40]; [VInt 50]]
    = last [[VInt 10]; [VInt 20]; [VInt 30]; [VInt 40]; [VInt 50]]
  ∧ length [[VInt 10]; [VInt 40]; [VInt 50]] ≤ Z.to_nat 2 + 1.
Proof.
  apply (sampled_boundaries_are_table_rows
           (Connection None [] ["ID"]
              [[VInt 10]; [VInt 20]; [VInt 30]; [VInt 40]; [VInt 50]])
           (parse_table "T") ["ID"] 2 "ora" [] [QCount; QRanked [1; 4; 5]%Z]);
    [lia | vm_compute; reflexivity].
Defined.

(** X3: when at least as many slices are requested as the table has rows (and
    the table has fewer than [2 ^ 53] rows), the stride is 1 and the sampler
    returns every row of the table. *)
Theorem sampler_takes_every_row
    (conn : connection) (table : TableSpec) (pk_cols : list string)
    (k : Z) (dbtype : string) (tr : list query) :
  table_rows conn ≠ [] →
  (Z.of_nat (length (table_rows conn)) < 2 ^ 53)%Z →
  (Z.of_nat (length (table_rows conn)) ≤ k)%Z →
  stride (Z.of_nat (length (table_rows conn))) k = inr 1%Z
  ∧ fetch_pk_boundaries conn table pk_cols k dbtype tr
    = (tr ++ [QCount; QRanked (target_ranks (Z.of_nat (length (table_rows conn))) k 1)],
       inr (table_rows conn)).
Proof.
  intros Hne Hn53 Hk.
  set (n := Z.of_nat (length (table_rows conn))) in *.
  assert (0 < n)%Z as Hn by (unfold n; destruct (table_rows conn); [done | simpl; lia]).
  assert (stride n k = inr 1%Z) as Hs.
  { rewrite stride_exact by lia. by rewrite ceil_div_one by lia. }
  split; [done|].
  rewrite (fetch_pk_boundaries_ranked conn table pk_cols k dbtype tr 1 Hne Hs).
  fold n. f_equal. f_equal. apply ranked_select_all. intros i Hi.
  apply elem_of_target_ranks. right. exists (i - 1)%Z. fold n in Hi. lia.
Qed.

(** Three rows, eight slices. *)
Lemma sampler_takes_every_row_witness :
  stride (Z.of_nat (length [[VInt 7]; [VInt 8]; [VInt 9]])) 8 = inr 1%Z
  ∧ fetch_pk_boundaries (Connection None [] ["ID"] [[VInt 7]; [VInt 8]; [VInt 9]])
      (parse_table "T") ["ID"] 8 "ora" []
    = ([] ++ [QCount; QRanked (target_ranks (Z.of_nat (length [[VInt 7]; [VInt 8]; [VInt 9]])) 8 1)],
       inr [[VInt 7]; [VInt 8]; [VInt 9]]).
Proof.
  apply (sampler_takes_every_row
           (Connection None [] ["ID"] [[VInt 7]; [VInt 8]; [VInt 9]])
           (parse_table "T") ["ID"] 8 "ora" []);
    [done | vm_compute; reflexivity | vm_compute; discriminate].
Defined.

(** ** Slice counts that are not positive *)

(** X4: with [k = 0] on a table that has rows, the sampler raises
    [ZeroDivisionError] right after the count query, before any ranked
    query, and the generator passes the exception on. *)
Theorem zero_slices_raise_after_count (py_eq : value → value → bool) (conn : connection) :
  table_rows conn ≠ [] →
  (∀ table pk_cols dbtype tr,
     fetch_pk_boundaries conn table pk_cols 0 dbtype tr
     = (tr ++ [QCount], inl ZeroDivisionError))
  ∧ (∀ drv dbtype table tr tr' pk_cols,
       resolve_pk_columns drv conn dbtype (parse_table table) tr = (tr', inr pk_cols) →
       pk_cols ≠ [] →
       generate_slice_sql py_eq drv conn dbtype table 0 tr
       = (tr' ++ [QCount], inl ZeroDivisionError)).
Proof.
  intros Hne.
  assert (∀ table pk_cols dbtype tr,
            fetch_pk_boundaries conn table pk_cols 0 dbtype tr
            = (tr ++ [QCount], inl ZeroDivisionError)) as Hfetch.
  { intros. apply fetch_pk_boundaries_raise; [done|]. apply stride_zero_slices. }
  split; [done|].
  intros drv dbtype table tr tr' pk_cols Hres Hpk.
  rewrite (generate_slice_sql_run py_eq _ _ _ _ _ _ _ _ Hres).
  rewrite bool_decide_false by done. by rewrite Hfetch.
Qed.

(** One row, zero slices, on Oracle. *)
Lemma zero_slices_raise_after_count_witness :
  generate_slice_sql identity_eq (Drivers false true) (Connection None [] ["ID"] [[VInt 1]])
    "ora" "T" 0 []
  = ([QOraConstraints; QCount], inl ZeroDivisionError).
Proof.
  destruct (zero_slices_raise_after_count identity_eq (Connection None [] ["ID"] [[VInt 1]]))
    as [_ H]; [done|].
  apply (H (Drivers false true) "ora" "T" [] [QOraConstraints] ["ID"]);
    [reflexivity | done].
Defined.

(** X5: with a negative [k] (and fewer than [2 ^ 53] rows) nothing is raised:
    the stride is 1, the only rank asked for is the row count, and the
    sampler returns the last row alone.  The generator then emits one
    statement closed on that key for a single-column key, and no statement
    for a composite key. *)
Theorem negative_slices_keep_last_row (py_eq : value → value → bool)
    (conn : connection) (k : Z) (init : list (list value)) (rn : list value) :
  (k < 0)%Z → table_rows conn = init ++ [rn] →
  (Z.of_nat (length (table_rows conn)) < 2 ^ 53)%Z →
  let n := Z.of_nat (length (table_rows conn)) in
  (∀ table pk_cols dbtype tr,
     fetch_pk_boundaries conn table pk_cols k dbtype tr
     = (tr ++ [QCount; QRanked [n]], inr [rn]))
  ∧ (∀ drv dbtype table tr tr' pk_cols,
       resolve_pk_columns drv conn dbtype (parse_table table) tr = (tr', inr pk_cols) →
       (∀ c v, pk_cols = [c] → rn = [v] →
          generate_slice_sql py_eq drv conn dbtype table k tr
          = (tr' ++ [QCount; QRanked [n]],
             inr [select_stmt (qualified (parse_table table))
                    (c +:+ " >= " +:+ fmt_literal v +:+ " AND " +:+ c +:+ " <= "
                       +:+ fmt_literal v)]))
       ∧ (2 ≤ length pk_cols →
          generate_slice_sql py_eq drv conn dbtype table k tr
          = (tr' ++ [QCount; QRanked [n]], inr []))).
Proof.
  intros Hk Hrows Hn53 n.
  assert (table_rows conn ≠ []) as Hne by (rewrite Hrows; by destruct init).
  assert (0 < n)%Z as Hn by (unfold n; destruct (table_rows conn); [done | simpl; lia]).
  assert (∀ table pk_cols dbtype tr,
            fetch_pk_boundaries conn table pk_cols k dbtype tr
            = (tr ++ [QCount; QRanked [n]], inr [rn])) as Hfetch.
  { intros.
    rewrite (fetch_pk_boundaries_ranked conn table pk_cols k dbtype tr 1 Hne)
      by (apply stride_negative; done).
    fold n. rewrite target_ranks_negative by lia.
    unfold n. rewrite Hrows. by rewrite ranked_select_only_last. }
  split; [done|].
  intros drv dbtype table tr tr' pk_cols Hres. split.
  - intros c v -> ->. rewrite (generate_slice_sql_run py_eq _ _ _ _ _ _ _ _ Hres), Hfetch.
    reflexivity.
  - intros Hlen. rewrite (generate_slice_sql_run py_eq _ _ _ _ _ _ _ _ Hres), Hfetch.
    rewrite bool_decide_false by (intros ->; simpl in Hlen; lia).
    rewrite bool_decide_false by done.
    unfold slice_conditions. rewrite bool_decide_false by lia. reflexivity.
Qed.

(** Three rows, minus two slices. *)
Lemma negative_slices_keep_last_row_witness :
  generate_slice_sql identity_eq (Drivers false true)
    (Connection None [] ["ID"] [[VInt 7]; [VInt 8]; [VInt 9]]) "ora" "T" (-2) []
  = ([QOraConstraints; QCount; QRanked [3%Z]],
     inr ["SELECT * FROM T WHERE ID >= 9 AND ID <= 9;"]).
Proof.
  destruct (negative_slices_keep_last_row identity_eq
              (Connection None [] ["ID"] [[VInt 7]; [VInt 8]; [VInt 9]]) (-2)
              [[VInt 7]; [VInt 8]] [VInt 9]) as [_ H];
    [lia | reflexivity | vm_compute; reflexivity |].
  destruct (H (Drivers false true) "ora" "T" [] [QOraConstraints] ["ID"]) as [H1 _];
    [reflexivity|].
  rewrite (H1 "ID" (VInt 9)) by reflexivity. vm_compute. reflexivity.
Defined.

(** ** What the generator can raise *)

(** X6: once the key columns are resolved and every row has one value per key
    column, the generator fails in three ways only: an empty key, [k = 0]
    on a table with rows, or a quotient too large for a float, which needs
    at least [2 ^ 53] rows.  In particular no index is ever out of range,
    and the two arithmetic failures come after the count query and before
    any ranked query. *)
Theorem generator_failures (py_eq : value → value → bool)
    (drv : drivers) (conn : connection) (dbtype table : string) (k : Z)
    (tr tr' tr'' : list query) (pk_cols : list string) (e : exn) :
  resolve_pk_columns drv conn dbtype (parse_table table) tr = (tr', inr pk_cols) →
  Forall (fun b => length b = length pk_cols) (table_rows conn) →
  generate_slice_sql py_eq drv conn dbtype table k tr = (tr'', inl e) →
  (e = RuntimeError "Primary key not found" ∧ pk_cols = [] ∧ tr'' = tr')
  ∨ (e = ZeroDivisionError ∧ k = 0%Z ∧ table_rows conn ≠ [] ∧ tr'' = tr' ++ [QCount])
  ∨ (e = OverflowError ∧ k ≠ 0%Z ∧ (2 ^ 53 ≤ Z.of_nat (length (table_rows conn)))%Z
     ∧ tr'' = tr' ++ [QCount]).
Proof.
  intros Hres Hlen. rewrite (generate_slice_sql_run py_eq _ _ _ _ _ _ _ _ Hres).
  case_bool_decide as Hpk; [intros [= <- <-]; by left|]. intros Hgen. right.
  destruct (fetch_pk_boundaries_cases conn (parse_table table) pk_cols k dbtype tr')
    as [[Hrows Hf] | [(e' & Hrows & Hs & Hf) | (step & Hrows & Hs & Hf)]];
    rewrite Hf in Hgen.
  - by rewrite bool_decide_true in Hgen.
  - injection Hgen as <- <-.
    set (n := Z.of_nat (length (table_rows conn))) in *.
    assert (0 < n)%Z as Hn by (unfold n; destruct (table_rows conn); [done | simpl; lia]).
    destruct (decide (k = 0%Z)) as [-> | Hk0].
    + left. rewrite stride_zero_slices in Hs. by injection Hs as <-.
    + right. apply stride_errors in Hs as Herr.
      assert (2 ^ 53 ≤ n)%Z as Hbig.
      { destruct (Z.lt_ge_cases n (2 ^ 53)) as [Hsmall|]; [|done].
        destruct (Z.lt_ge_cases k 0).
        - by rewrite stride_negative in Hs.
        - by rewrite stride_exact in Hs by lia. }
      destruct Herr as [-> | ->]; [|done].
      unfold stride, int_true_divide in Hs.
      rewrite (proj2 (Z.eqb_neq k 0)) in Hs by done.
      rewrite (proj2 (Z.eqb_neq n 0)) in Hs by lia.
      by destruct (2 ^ 1024 <=? _)%Z.
  - case_bool_decide; [done|].
    pose proof (sublist_Forall _ _ _ (ranked_select_sublist (table_rows conn)
                  (target_ranks (Z.of_nat (length (table_rows conn))) k step)) Hlen) as Hb.
    destruct (slice_preds_total py_eq pk_cols _ Hpk Hb) as [ps Hps].
    by rewrite slice_conditions_render, Hps in Hgen.
Qed.

(** A table with rows and [k = 0]. *)
Lemma generator_failures_witness :
  (ZeroDivisionError = RuntimeError "Primary key not found" ∧ ["ID"] = []
   ∧ [QOraConstraints; QCount] = [QOraConstraints])
  ∨ (ZeroDivisionError = ZeroDivisionError ∧ 0%Z = 0%Z
     ∧ table_rows (Connection None [] ["ID"] [[VInt 1]; [VInt 2]]) ≠ []
     ∧ [QOraConstraints; QCount] = [QOraConstraints] ++ [QCount])
  ∨ (ZeroDivisionError = OverflowError ∧ 0%Z ≠ 0%Z
     ∧ (2 ^ 53
        ≤ Z.of_nat (length (table_rows (Connection None [] ["ID"] [[VInt 1]; [VInt 2]]))))%Z
     ∧ [QOraConstraints; QCount] = [QOraConstraints] ++ [QCount]).
Proof.
  apply (generator_failures identity_eq (Drivers false true)
           (Connection None [] ["ID"] [[VInt 1]; [VInt 2]]) "ora" "T" 0
           [] [QOraConstraints] [QOraConstraints; QCount] ["ID"] ZeroDivisionError);
    [reflexivity | repeat constructor | vm_compute; reflexivity].
Defined.

(** ** How many statements *)

(** X7: for [k >= 1] the generator returns at most [k] statements per possible
    predicate of an interval: at most [k] for a single-column key, at most
    [k * (2 n - 1)] for a key of [n] columns. *)
Theorem generated_statement_count (py_eq : value → value → bool)
    (drv : drivers) (conn : connection) (dbtype table : string) (k : Z)
    (tr tr' tr'' : list query) (pk_cols : list string) (stmts : list string) :
  resolve_pk_columns drv conn dbtype (parse_table table) tr = (tr', inr pk_cols) →
  (1 ≤ k)%Z →
  generate_slice_sql py_eq drv conn dbtype table k tr = (tr'', inr stmts) →
  length stmts ≤ Z.to_nat k * (2 * (length pk_cols - 1) + 1).
Proof.
  intros Hres Hk. rewrite (generate_slice_sql_run py_eq _ _ _ _ _ _ _ _ Hres).
  case_bool_decide as Hpk; [done|].
  destruct (fetch_pk_boundaries conn (parse_table table) pk_cols k dbtype tr')
    as [tr3 [e|bs]] eqn:Hfetch; [done|].
  case_bool_decide as Hbs; [intros [= _ <-]; apply Nat.le_0_l|].
  destruct (slice_conditions py_eq pk_cols bs) as [conds|] eqn:Hc; [|done].
  intros [= _ <-]. rewrite length_fmap.
  etrans; [by apply (slice_conditions_length py_eq pk_cols bs)|].
  apply Nat.mul_le_mono_r.
  pose proof (fetch_pk_boundaries_length conn (parse_table table) pk_cols k dbtype tr' tr3 bs
                Hk Hfetch).
  lia.
Qed.

(** Five rows under a two-column key, two slices: four statements. *)
Lemma generated_statement_count_witness :
  length ["SELECT * FROM s.t WHERE a = 1 AND b >= 1;";
          "SELECT * FROM s.t WHERE a > 1 AND a < 3;";
          "SELECT * FROM s.t WHERE a = 3 AND b < 1;";
          "SELECT * FROM s.t WHERE a = 3 AND b >= 1 AND b <= 2;"]
  ≤ Z.to_nat 2 * (2 * (length ["a"; "b"] - 1) + 1).
Proof.
  apply (generated_statement_count identity_eq (Drivers true false)
           (Connection (Some [1; 2]%Z) [(1%Z, "a"); (2%Z, "b")] []
              [[VInt 1; VInt 1]; [VInt 1; VInt 5]; [VInt 2; VInt 1]; [VInt 3; VInt 1];
               [VInt 3; VInt 2]])
           "pg" "s.t" 2 [] [QPgConstraint; QPgAttribute]
           [QPgConstraint; QPgAttribute; QCount; QRanked [1; 4; 5]%Z] ["a"; "b"]);
    [vm_compute; reflexivity | lia | vm_compute; reflexivity].
Defined.

(** ** Configuration errors *)

(** X8: a [dbtype] other than [pg] and [ora], or a [dbtype] whose driver module
    is missing, makes the generator raise before any query is sent. *)
Theorem configuration_errors_send_no_query (py_eq : value → value → bool)
    (drv : drivers) (conn : connection) (dbtype table : string) (k : Z)
    (tr : list query) :
  (dbtype ≠ "pg" → dbtype ≠ "ora" →
   generate_slice_sql py_eq drv conn dbtype table k tr
   = (tr, inl (ValueError "dbtype must be 'pg' or 'ora'")))
  ∧ (dbtype = "pg" → psycopg2 drv = false →
     generate_slice_sql py_eq drv conn dbtype table k tr
     = (tr, inl (RuntimeError "psycopg2 is not installed")))
  ∧ (dbtype = "ora" → cx_Oracle drv = false →
     generate_slice_sql py_eq drv conn dbtype table k tr
     = (tr, inl (RuntimeError "cx_Oracle is not installed"))).
Proof.
  unfold generate_slice_sql. rewrite bind_run. unfold resolve_pk_columns.
  split; [|split].
  - intros Hpg Hora.
    rewrite (proj2 (String.eqb_neq dbtype "pg")), (proj2 (String.eqb_neq dbtype "ora")) by done.
    reflexivity.
  - intros -> Hdrv. by rewrite String.eqb_refl, Hdrv.
  - intros -> Hdrv. cbn [String.eqb Ascii.eqb]. by rewrite Hdrv.
Qed.

(** An unknown database type; and PostgreSQL without its driver. *)
Lemma configuration_errors_send_no_query_witness :
  generate_slice_sql identity_eq (Drivers true true) (Connection None [] [] [[VInt 1]])
    "mysql" "t" 4 []
  = ([], inl (ValueError "dbtype must be 'pg' or 'ora'"))
  ∧ generate_slice_sql identity_eq (Drivers false true) (Connection None [] [] [[VInt 1]])
      "pg" "t" 4 []
    = ([], inl (RuntimeError "psycopg2 is not installed")).
Proof.
  split.
  - destruct (configuration_errors_send_no_query identity_eq (Drivers true true)
                (Connection None [] [] [[VInt 1]]) "mysql" "t" 4 []) as [H _].
    apply H; discriminate.
  - destruct (configuration_errors_send_no_query identity_eq (Drivers false true)
                (Connection None [] [] [[VInt 1]]) "pg" "t" 4 []) as (_ & H & _).
    apply H; reflexivity.
Defined.

(** ** A whole run and the range it selects *)



(** ** The shape of the emitted conditions *)

(** X10: every condition of a run is the rendering of a conjunction that puts
    equalities on leading key columns, in key order, and then bounds the
    next key column from one side or from both: a range an index on the key
    serves in one scan. *)
Theorem slices_are_prefix_ranges (py_eq : value → value → bool)
    (pk_cols : list string) (boundaries : list (list value)) (conds : list string) :
  slice_conditions py_eq pk_cols boundaries = Some conds →
  ∃ ps, conds = render_preds ps ∧ Forall (fun p => prefix_range pk_cols p = true) ps.
Proof.
  rewrite slice_conditions_render.
  destruct (slice_preds py_eq pk_cols boundaries) as [ps|] eqn:Hps; [|done].
  intros [= <-]. exists ps. split; [done|]. by apply (slice_preds_shape py_eq pk_cols boundaries).
Qed.

(** The four conditions of three boundaries under a two-column key. *)
Lemma slices_are_prefix_ranges_witness :
  ∃ ps,
    ["a = 1 AND b >= 1"; "a > 1 AND a < 3"; "a = 3 AND b < 1";
     "a = 3 AND b >= 1 AND b <= 2"] = render_preds ps
    ∧ Forall (fun p => prefix_range ["a"; "b"] p = true) ps.
Proof.
  apply (slices_are_prefix_ranges identity_eq ["a"; "b"]
           [[VInt 1; VInt 1]; [VInt 3; VInt 1]; [VInt 3; VInt 2]]).
  vm_compute. reflexivity.
Defined.

(** ** The two expansions on their own *)

(** X11: on a bound tuple whose literals are read back as the values, the
    segments [_ge_segments] returns are renderings of conjunctions of which
    a row satisfies exactly one when its key is at or above the bound
    tuple, and none when it is below; those of [_le_segments], exactly one
    when the key is below the bound tuple, or equal to it and the bound is
    inclusive, and none otherwise. *)
Theorem segments_select_half_lines
    (denote : string → string → option value)
    (vcmp : value → value → comparison) `{!TotalCompare vcmp}
    (cols : list string) (bounds : list value) :
  cols ≠ [] → faithful denote cols bounds →
  (∃ segs,
     _ge_segments cols bounds = Some (render_segments segs)
     ∧ ∀ r : row,
         count_sat denote vcmp r segs
         = match lex_compare vcmp (key_of r cols) bounds with Lt => 0 | _ => 1 end)
  ∧ (∀ inclusive : bool,
       ∃ segs,
         _le_segments cols bounds inclusive = Some (render_segments segs)
         ∧ ∀ r : row,
             count_sat denote vcmp r segs
             = match lex_compare vcmp (key_of r cols) bounds with
               | Lt => 1
               | Eq => if inclusive then 1 else 0
               | Gt => 0
               end).
Proof.
  intros Hne Hf. pose proof (faithful_length denote _ _ Hf) as Hlen. split.
  - destruct (ge_segments_length cols bounds) as (segs & Hs & _); [done | lia |].
    exists segs. split; [by rewrite _ge_segments_render, Hs|].
    intros r. by apply (ge_segments_count denote vcmp).
  - intros inclusive.
    destruct (le_segments_length cols bounds inclusive) as (segs & Hs & _); [done | lia |].
    exists segs. split; [by rewrite _le_segments_render, Hs|].
    intros r. by apply (le_segments_count denote vcmp).
Qed.

(** A bound on three columns. *)
Lemma segments_select_half_lines_witness :
  ∃ segs,
    _ge_segments ["A"; "B"; "C"] [VInt 1; VInt 2; VInt 3] = Some (render_segments segs)
    ∧ ∀ r : row,
        count_sat read_back value_compare r segs
        = match lex_compare value_compare (key_of r ["A"; "B"; "C"])
                  [VInt 1; VInt 2; VInt 3] with
          | Lt => 0
          | _ => 1
          end.
Proof.
  destruct (segments_select_half_lines read_back value_compare ["A"; "B"; "C"]
              [VInt 1; VInt 2; VInt 3]) as [H _]; [done | by repeat constructor |].
  exact H.
Defined.

(** X12: an interval whose two bounds are the same tuple, every component of
    which is equal to itself for Python, gives one predicate.  When the
    literals are read back as the values, that predicate selects, as the
    last interval of a run, the rows with exactly that key, and as any
    other interval no row.  When the leading component is not equal to
    itself (a float NaN), a key of [n >= 2] columns gives the [2 n - 1]
    predicates of the three bands instead. *)
Theorem point_interval
    (py_eq : value → value → bool) (denote : string → string → option value)
    (vcmp : value → value → comparison) `{!TotalCompare vcmp}
    (cols : list string) (bound : list value) (is_last : bool) :
  cols ≠ [] → length bound = length cols →
  (Forall (fun b => py_eq b b = true) bound →
   ∃ p,
     build_composite_slice_wheres py_eq cols bound bound is_last = Some [render_pred p]
     ∧ (faithful denote cols bound →
        ∀ r : row,
          sat_pred denote vcmp r p = is_last && bool_decide (key_of r cols = bound)))
  ∧ (∀ b0 bt, bound = b0 :: bt → py_eq b0 b0 = false → 2 ≤ length cols →
     ∃ ws,
       build_composite_slice_wheres py_eq cols bound bound is_last = Some ws
       ∧ length ws = 2 * length cols - 1).
Proof.
  intros Hne Hlen.
  destruct (composite_preds_length py_eq cols bound bound is_last) as (ps & Hps & Hn);
    [done | lia.. |].
  split.
  - intros Hrefl.
    assert (common_prefix py_eq bound bound = length bound) as Hcp.
    { clear -Hrefl. induction Hrefl as [|b bound Hb _ IH]; [done|]. simpl.
      by rewrite Hb, IH. }
    assert (eq_is_identity py_eq bound bound) as Hid.
    { clear -Hrefl. induction Hrefl as [|b bound Hb _ IH]; [constructor|].
      constructor; [|done]. by rewrite Hb, bool_decide_true. }
    rewrite Hcp, Hlen in Hn.
    assert (length ps = 1) as Hone.
    { rewrite Hn. destruct cols; [done|]. cbn [length]. lia. }
    destruct ps as [|p [|? ?]]; try done.
    exists p. split; [by rewrite build_composite_slice_wheres_render, Hps|].
    intros Hf r.
    pose proof (composite_preds_count py_eq denote vcmp r cols bound bound is_last [p]
                  Hps Hf Hf Hid) as Hc.
    rewrite (cmp_refl (lex_compare vcmp)) in Hc. specialize (Hc ltac:(done)).
    rewrite (count_sat_cons denote vcmp), (count_sat_nil denote vcmp) in Hc.
    unfold in_interval in Hc.
    rewrite (lex_compare_antisym vcmp (key_of r cols) bound) in Hc.
    case_bool_decide as Hk.
    + rewrite Hk, (cmp_refl (lex_compare vcmp)) in Hc. simpl in Hc.
      destruct (sat_pred denote vcmp r p), is_last; simpl in *; (done || lia).
    + assert (lex_compare vcmp (key_of r cols) bound ≠ Eq) as Hneq.
      { intros E. by apply (lex_compare_eq vcmp) in E. }
      rewrite andb_false_r.
      destruct (lex_compare vcmp (key_of r cols) bound); [done | |]; simpl in Hc;
        destruct (sat_pred denote vcmp r p); (done || lia).
  - intros b0 bt -> Hnan Hcols.
    exists (render_preds ps). split; [by rewrite build_composite_slice_wheres_render, Hps|].
    unfold render_preds. rewrite length_fmap, Hn. cbn [common_prefix].
    rewrite Hnan. lia.
Qed.

(** The point (3, 2) under a two-column key, as a last interval. *)
Lemma point_interval_witness :
  ∃ p,
    build_composite_slice_wheres identity_eq ["a"; "b"] [VInt 3; VInt 2] [VInt 3; VInt 2]
      true
    = Some [render_pred p]
    ∧ ∀ r : row,
        sat_pred read_back value_compare r p
        = true && bool_decide (key_of r ["a"; "b"] = [VInt 3; VInt 2]).
Proof.
  destruct (point_interval identity_eq read_back value_compare ["a"; "b"]
              [VInt 3; VInt 2] true) as [H _]; [done | reflexivity |].
  destruct H as (p & Hp & Hsat); [by repeat constructor|].
  exists p. split; [exact Hp|]. apply Hsat. by repeat constructor.
Defined.

(** ** Repeated boundaries in the single-column slicer *)

(** X13: what the first loop of the single-column slicer drops is decided by
    Python's [==].  A boundary value that is equal to itself and occurs
    twice in a row counts once, and a list that repeats such a value gives
    the single condition closed on that value; a second value that is equal
    to the first is dropped, however it is written; a value that is not
    equal to itself (a float NaN) is never dropped; and whatever the list,
    no two neighbours are equal after the first loop. *)
Theorem single_slicer_collapses_repeats (py_eq : value → value → bool) (col : string) :
  (∀ (l1 l2 : list value) (x : value),
     py_eq x x = true →
     make_single_pk_slices_from_bounds py_eq col (l1 ++ x :: x :: l2)
     = make_single_pk_slices_from_bounds py_eq col (l1 ++ x :: l2))
  ∧ (∀ (n : nat) (v : value),
       py_eq v v = true →
       make_single_pk_slices_from_bounds py_eq col (replicate (S n) v)
       = [col +:+ " >= " +:+ fmt_literal v +:+ " AND " +:+ col +:+ " <= "
            +:+ fmt_literal v])
  ∧ (∀ (x y : value) (l : list value),
       py_eq y x = true →
       make_single_pk_slices_from_bounds py_eq col (x :: y :: l)
       = make_single_pk_slices_from_bounds py_eq col (x :: l))
  ∧ (∀ (n : nat) (v : value),
       py_eq v v = false →
       dedup_adjacent py_eq (replicate n v) = replicate n v
       ∧ length (make_single_pk_slices_from_bounds py_eq col (replicate (S (S n)) v))
         = S n)
  ∧ (∀ bounds : list value,
       adjacent_distinct py_eq (dedup_adjacent py_eq bounds) = true
       ∧ dedup_adjacent py_eq (dedup_adjacent py_eq bounds) = dedup_adjacent py_eq bounds).
Proof.
  split; [|split; [|split; [|split]]].
  - intros l1 l2 x Hx. unfold make_single_pk_slices_from_bounds.
    by rewrite dedup_adjacent_repeat.
  - intros n v Hv. unfold make_single_pk_slices_from_bounds.
    rewrite dedup_adjacent_replicate by done. reflexivity.
  - intros x y l Hyx. unfold make_single_pk_slices_from_bounds.
    by rewrite dedup_adjacent_equal_head.
  - intros n v Hv. split; [by apply dedup_adjacent_irreflexive|].
    rewrite length_make_single_pk_slices_from_bounds.
    rewrite dedup_adjacent_irreflexive by done.
    rewrite close_single_long by (rewrite length_replicate; lia).
    rewrite length_replicate. lia.
  - intros bounds. split;
      [apply dedup_adjacent_adjacent_distinct | apply dedup_adjacent_idempotent].
Qed.

(** The boundaries 1, 1, 5 give the condition of 1, 5; and a value that is
    never equal to itself is kept three times, for two conditions. *)
Lemma single_slicer_collapses_repeats_witness :
  make_single_pk_slices_from_bounds identity_eq "ID" ([] ++ VInt 1 :: VInt 1 :: [VInt 5])
  = make_single_pk_slices_from_bounds identity_eq "ID" ([] ++ VInt 1 :: [VInt 5])
  ∧ length (make_single_pk_slices_from_bounds (fun _ _ => false) "X"
              (replicate 3 (VOther "nan"))) = 2.
Proof.
  split.
  - destruct (single_slicer_collapses_repeats identity_eq "ID") as [H _].
    apply (H [] [VInt 5] (VInt 1)). reflexivity.
  - destruct (single_slicer_collapses_repeats (fun _ _ => false) "X")
      as (_ & _ & _ & H & _).
    apply (H 1 (VOther "nan")). reflexivity.
Defined.

(** ** Table names *)

(** X14: [parse_table] splits at the first dot and nowhere else: the qualified
    name is the text it was given; without a dot there is no schema and the
    name is the whole text; with a dot the schema is what precedes the first
    dot, so it holds no dot itself, and the name is all that follows. *)
Theorem parse_table_splits_at_first_dot (raw : string) :
  qualified (parse_table raw) = raw
  ∧ match schema (parse_table raw) with
    | None => contains "." raw = false ∧ name (parse_table raw) = raw
    | Some s => raw = s +:+ "." +:+ name (parse_table raw) ∧ contains "." s = false
    end.
Proof.
  unfold parse_table. pose proof (split_dot_spec raw) as H.
  destruct (split_dot raw) as [[a b]|]; simpl.
  - destruct H as [H1 H2]. by rewrite <- H1.
  - done.
Qed.

(** ** Key columns on PostgreSQL *)

(** X15: with a non-empty [conkey], [get_pk_columns_pg] sends the constraint
    query and the attribute query and returns, in [conkey] order, an
    attribute name for every number of [conkey] that the attribute query
    lists; a number it does not list is left out without an error. *)
Theorem pg_key_columns_follow_conkey
    (conn : connection) (table : TableSpec) (tr : list query) (conkey : list Z) :
  pg_conkey conn = Some conkey → conkey ≠ [] →
  ∃ cols,
    get_pk_columns_pg conn table tr = (tr ++ [QPgConstraint; QPgAttribute], inr cols)
    ∧ Forall2 (fun k c => (k, c) ∈ pg_attribute conn)
        (filter (fun k => k ∈ (pg_attribute conn).*1) conkey) cols
    ∧ length cols ≤ length conkey.
Proof.
  intros Hkey Hne. eexists. split; [|split].
  - unfold get_pk_columns_pg. rewrite bind_run. unfold execute at 1. rewrite Hkey.
    destruct conkey as [|k0 conkey]; [done|].
    rewrite bind_run. unfold execute, ret. by rewrite <- app_assoc.
  - apply omap_lookup_attributes.
  - rewrite <- (Forall2_length _ _ _ (omap_lookup_attributes (pg_attribute conn) conkey)).
    apply length_filter.
Qed.

(** A key on attributes 2 and 1, and a number 7 that is no attribute. *)
Lemma pg_key_columns_follow_conkey_witness :
  ∃ cols,
    get_pk_columns_pg
      (Connection (Some [2; 7; 1]%Z) [(1%Z, "id"); (2%Z, "dt"); (3%Z, "pad")] [] [])
      (parse_table "public.t") []
    = ([] ++ [QPgConstraint; QPgAttribute], inr cols)
    ∧ Forall2 (fun k c => (k, c) ∈ [(1%Z, "id"); (2%Z, "dt"); (3%Z, "pad")])
        (filter (fun k => k ∈ [(1%Z, "id"); (2%Z, "dt"); (3%Z, "pad")].*1) [2; 7; 1]%Z) cols
    ∧ length cols ≤ length [2; 7; 1]%Z.
Proof.
  apply (pg_key_columns_follow_conkey
           (Connection (Some [2; 7; 1]%Z) [(1%Z, "id"); (2%Z, "dt"); (3%Z, "pad")] [] [])
           (parse_table "public.t") [] [2; 7; 1]%Z); [reflexivity | done].
Defined.

(** ** Literals *)

(** X16: the literal of a text value reads back as that text: the quotes inside
    are doubled, so no text closes the literal early, and different texts
    have different literals. *)
Theorem text_literal_reads_back :
  (∀ s : string, unquote (fmt_literal (VStr s)) = Some s)
  ∧ (∀ s s' : string, fmt_literal (VStr s) = fmt_literal (VStr s') → s = s').
Proof.
  split; [apply unquote_fmt_literal|].
  intros s s' H. apply (f_equal unquote) in H.
  rewrite !unquote_fmt_literal in H. congruence.
Qed.

(** A text with a quote in it; and a text compared with itself. *)
Lemma text_literal_reads_back_witness :
  unquote (fmt_literal (VStr "it's")) = Some "it's" ∧ "ab" = "ab".
Proof.
  destruct text_literal_reads_back as [H1 H2]. split.
  - apply (H1 "it's").
  - apply (H2 "ab" "ab"). reflexivity.
Defined.

(** X17: among key values that are text or integers, different values have
    different literals. *)
Theorem plain_literals_are_distinct (a b : value) :
  plain_key a = true → plain_key b = true →
  a ≠ b → fmt_literal a ≠ fmt_literal b.
Proof.
  intros Ha Hb Hne H. apply Hne. clear Hne.
  destruct a as [s| | | |z|], b as [s'| | | |z'|]; try done.
  - f_equal. apply (f_equal unquote) in H. rewrite !unquote_fmt_literal in H. congruence.
  - exfalso. unfold fmt_literal in H. rewrite append_cons, append_nil_l in H.
    symmetry in H. by apply pretty_Z_ne_quote in H.
  - exfalso. unfold fmt_literal in H. rewrite append_cons, append_nil_l in H.
    by apply pretty_Z_ne_quote in H.
  - f_equal. by apply (inj pretty).
Qed.

(** The text 7 and the number 7. *)
Lemma plain_literals_are_distinct_witness :
  fmt_literal (VStr "7") ≠ fmt_literal (VInt 7).
Proof.
  apply (plain_literals_are_distinct (VStr "7") (VInt 7)); [reflexivity | reflexivity | discriminate].
Defined.

(** X18: the literal of a datetime never shows its microseconds: two datetimes
    on the same day that agree on hour, minute and second and are not
    midnight have the same literal.  A datetime at midnight sharp has the
    literal of its date. *)
Theorem datetime_literals_drop_microseconds (d : date) :
  (∀ h m s us us' : nat,
     is_midnight (TimeOfDay h m s us) = false →
     is_midnight (TimeOfDay h m s us') = false →
     fmt_literal (VDateTime d (TimeOfDay h m s us))
     = fmt_literal (VDateTime d (TimeOfDay h m s us')))
  ∧ fmt_literal (VDateTime d (TimeOfDay 0 0 0 0)) = fmt_literal (VDate d).
Proof.
  split; [|reflexivity].
  intros h m s us us' H1 H2. unfold fmt_literal. by rewrite H1, H2.
Qed.

(** Half past ten, with and without 250 microseconds. *)
Lemma datetime_literals_drop_microseconds_witness :
  fmt_literal (VDateTime (Date 2026 1 26) (TimeOfDay 10 30 0 250))
  = fmt_literal (VDateTime (Date 2026 1 26) (TimeOfDay 10 30 0 0)).
Proof.
  destruct (datetime_literals_drop_microseconds (Date 2026 1 26)) as [H _].
  apply (H 10 30 0 250 0); reflexivity.
Defined.

(** ** Chunking a key list held in memory *)







(** X22: for [k >= 1] and fewer than [2 ^ 53] tuples, any two of which
    compare, [chunk_lex] returns at most [k] slices, and at least one
    unless the list is empty. *)
Theorem chunk_lex_slice_count
    (comparable : value → value → bool)
    (vcmp : value → value → comparison) `{!TotalCompare vcmp}
    (pk_rows : list (list value)) (k : Z) :
  (1 ≤ k)%Z → (Z.of_nat (length pk_rows) < 2 ^ 53)%Z →
  (∀ x y, x ∈ pk_rows → y ∈ pk_rows → tuples_comparable comparable vcmp x y = true) →
  ∃ slices,
    chunk_lex comparable vcmp pk_rows k = inr slices
    ∧ length slices ≤ Z.to_nat k
    ∧ (pk_rows ≠ [] → 1 ≤ length slices).
Proof.
  intros Hk Hn53 Hall. set (n := Z.of_nat (length pk_rows)) in *.
  assert (py_sorted comparable vcmp pk_rows = inr (merge_sort (key_le vcmp) pk_rows))
    as Hsort.
  { unfold py_sorted.
    assert (forallb (fun x => forallb (tuples_comparable comparable vcmp x) pk_rows)
              pk_rows = true) as ->; [|done].
    apply forallb_forall. intros x Hx. apply forallb_forall. intros y Hy.
    apply list_elem_of_In in Hx, Hy. by apply Hall. }
  destruct (decide (pk_rows = [])) as [-> | Hrows].
  { exists []. split; [|split; [simpl; lia | done]].
    unfold chunk_lex, py_sorted, stride, int_true_divide. simpl.
    rewrite (proj2 (Z.eqb_neq k 0)) by lia. reflexivity. }
  assert (0 < n)%Z as Hn by (unfold n; destruct pk_rows; [done | simpl; lia]).
  pose proof (stride_exact n k Hn Hn53 ltac:(lia)) as Hs.
  destruct (chunk_lex_run comparable vcmp pk_rows k _ Hsort Hs)
    as [[E _] | (b0 & bs & mx & H & _ & _ & _ & Hcount)]; [congruence|].
  exists (consecutive (b0 :: bs ++ [mx])). split; [done|].
  rewrite length_consecutive. cbn [length]. rewrite length_app. cbn [length].
  split; [|lia].
  pose proof (ceil_div_spec n k ltac:(lia)) as Hc.
  set (step := Z.max 1 (ceil_div n k)) in *. fold n in Hcount.
  assert ((n + step - 1) / step < k + 1)%Z as Hlt.
  { apply Z.div_lt_upper_bound; [lia|]. nia. }
  lia.
Qed.

(** Five tuples, two slices requested, two returned. *)
Lemma chunk_lex_slice_count_witness :
  ∃ slices,
    chunk_lex same_kind value_compare [[VInt 3]; [VInt 1]; [VInt 5]; [VInt 2]; [VInt 4]] 2
    = inr slices
    ∧ length slices ≤ Z.to_nat 2
    ∧ ([[VInt 3]; [VInt 1]; [VInt 5]; [VInt 2]; [VInt 4]] ≠ [] → 1 ≤ length slices).
Proof.
  apply (chunk_lex_slice_count same_kind value_compare
           [[VInt 3]; [VInt 1]; [VInt 5]; [VInt 2]; [VInt 4]] 2);
    [lia | vm_compute; reflexivity |].
  intros x y Hx Hy.
  repeat (apply elem_of_cons in Hx as [-> | Hx]);
    try (by apply elem_of_nil in Hx);
    repeat (apply elem_of_cons in Hy as [-> | Hy]);
    try (by apply elem_of_nil in Hy); reflexivity.
Defined.




(** ** How many rows an interval holds *)

(** X24: on a table in strict key order, with [K >= 1] and fewer than [2 ^ 53]
    rows, two neighbouring boundaries of the sample are never more than one
    stride apart: the table has at most [max (1, ceil (N / K))] rows with a
    key in the half-open interval between them, and at most one more in the
    closed interval that ends the run. *)
Theorem sampled_intervals_hold_one_stride
    (vcmp : value → value → comparison) `{!TotalCompare vcmp}
    (conn : connection) (table : TableSpec) (pk_cols : list string)
    (k : Z) (dbtype : string) (tr : list query) :
  strictly_increasing vcmp (table_rows conn) = true →
  (1 ≤ k)%Z → (Z.of_nat (length (table_rows conn)) < 2 ^ 53)%Z →
  ∃ tr' bs,
    fetch_pk_boundaries conn table pk_cols k dbtype tr = (tr', inr bs)
    ∧ ∀ lo hi closed,
        (lo, hi, closed) ∈ consecutive bs →
        length (filter (fun key => in_interval vcmp lo hi closed key = true)
                  (table_rows conn))
        ≤ Z.to_nat (Z.max 1 (ceil_div (Z.of_nat (length (table_rows conn))) k))
          + (if closed then 1 else 0).
Proof.
  intros Hinc Hk Hn53.
  destruct (decide (table_rows conn = [])) as [Hrows | Hrows].
  { exists (tr ++ [QCount]), []. split; [by apply fetch_pk_boundaries_empty|].
    intros lo hi closed Hin. by apply elem_of_nil in Hin. }
  set (n := Z.of_nat (length (table_rows conn))) in *.
  assert (0 < n)%Z as Hn by (unfold n; destruct (table_rows conn); [done | simpl; lia]).
  set (step := Z.max 1 (ceil_div n k)).
  assert (stride n k = inr step) as Hs by (apply stride_exact; lia).
  eexists _, _. split; [by apply (fetch_pk_boundaries_ranked conn table pk_cols k dbtype tr step)|].
  intros lo hi closed Hin. fold n in Hin.
  pose proof (ceil_div_spec n k ltac:(lia)) as Hc.
  destruct (sampled_neighbours_stride (table_rows conn) k step lo hi closed)
    as (a & b & Ha & Hb & Hab & Hwidth); [done | lia | fold n; nia | done |].
  etrans; [apply (interval_row_count vcmp _ a b); (done || lia)|].
  destruct closed; lia.
Qed.

(** Seven rows, three slices: a stride of three. *)
Lemma sampled_intervals_hold_one_stride_witness :
  ∃ tr' bs,
    fetch_pk_boundaries
      (Connection None [] ["ID"]
         [[VInt 1]; [VInt 2]; [VInt 3]; [VInt 4]; [VInt 5]; [VInt 6]; [VInt 7]])
      (parse_table "T") ["ID"] 3 "ora" [] = (tr', inr bs)
    ∧ ∀ lo hi closed,
        (lo, hi, closed) ∈ consecutive bs →
        length (filter (fun key => in_interval value_compare lo hi closed key = true)
                  [[VInt 1]; [VInt 2]; [VInt 3]; [VInt 4]; [VInt 5]; [VInt 6]; [VInt 7]])
        ≤ Z.to_nat (Z.max 1 (ceil_div (Z.of_nat (length
              [[VInt 1]; [VInt 2]; [VInt 3]; [VInt 4]; [VInt 5]; [VInt 6]; [VInt 7]])) 3))
          + (if closed then 1 else 0).
Proof.
  apply (sampled_intervals_hold_one_stride value_compare
           (Connection None [] ["ID"]
              [[VInt 1]; [VInt 2]; [VInt 3]; [VInt 4]; [VInt 5]; [VInt 6]; [VInt 7]])
           (parse_table "T") ["ID"] 3 "ora" []);
    [vm_compute; reflexivity | lia | vm_compute; reflexivity].
Defined.

(** ** The text of a statement *)

(** X25: every statement the generator returns is [SELECT * FROM], the table
    text exactly as it was passed in, [WHERE], a condition and a semicolon:
    splitting the name into schema and name and joining it again changes
    nothing, and nothing is quoted or re-cased. *)
Theorem generated_statements_name_the_table (py_eq : value → value → bool)
    (drv : drivers) (conn : connection) (dbtype table : string) (k : Z)
    (tr tr' : list query) (stmts : list string) :
  generate_slice_sql py_eq drv conn dbtype table k tr = (tr', inr stmts) →
  ∃ conds,
    stmts = (fun cond => "SELECT * FROM " +:+ table +:+ " WHERE " +:+ cond +:+ ";")
              <$> conds.
Proof.
  destruct (resolve_pk_columns drv conn dbtype (parse_table table) tr)
    as [tr1 [e|pk_cols]] eqn:Hres.
  { unfold generate_slice_sql. rewrite bind_run, Hres. done. }
  rewrite (generate_slice_sql_run py_eq _ _ _ _ _ _ _ _ Hres).
  case_bool_decide; [done|].
  destruct (fetch_pk_boundaries conn (parse_table table) pk_cols k dbtype tr1)
    as [tr2 [e|bs]]; [done|].
  case_bool_decide; [intros [= _ <-]; by exists []|].
  destruct (slice_conditions py_eq pk_cols bs) as [conds|]; [|done].
  intros [= _ <-]. exists conds. unfold select_stmt. by rewrite qualified_parse_table.
Qed.

(** Two rows of a table named with a schema. *)
Lemma generated_statements_name_the_table_witness :
  ∃ conds,
    ["SELECT * FROM app.orders WHERE ID >= 1 AND ID <= 2;"]
    = (fun cond => "SELECT * FROM " +:+ "app.orders" +:+ " WHERE " +:+ cond +:+ ";")
        <$> conds.
Proof.
  apply (generated_statements_name_the_table identity_eq (Drivers false true)
           (Connection None [] ["ID"] [[VInt 1]; [VInt 2]]) "ora" "app.orders" 1
           [] [QOraConstraints; QCount; QRanked [1; 2]%Z]).
  vm_compute. reflexivity.
Defined.
